(** * wtree: rollback ledger and operation locks

    A shallow embedding of the rollback manager
    ([internal/worktree/rollback.go]) and of the lock manager
    ([internal/worktree/lock.go]) of wtree, with the properties of their
    specification stated and settled against the embedded code. *)

From Stdlib Require Import ZArith List String Ascii Bool Lia DecimalString.
From Stdlib Require DecimalPos.
From stdpp Require Import base option list gmap sets strings.

Set Warnings "-register-all".

Open Scope string_scope.
Open Scope list_scope.
Open Scope Z_scope.

(** ** Go error values

    The error values that the two components build or inspect.  Errors that
    come from the outside (the git repository, the operating system) are
    opaque messages, except for the two conditions the code tests for with
    [os.IsExist] and [os.IsNotExist]. *)

Inductive error : Type :=
| ErrOpaque (msg : string)
| ErrNotExist (path : string)
| ErrExist (path : string)
| Errorf_wrap (prefix : string) (cause : error)
    (* fmt.Errorf("%s: %w", prefix, cause) *)
| Errorf_constraint (description : string)
    (* fmt.Errorf("operation cannot be executed due to dependency
       constraints: %s", description) *)
| Errorf_errors (errs : list error)
    (* fmt.Errorf("errors: %v", errs) *)
| Errorf_list (prefix : string) (errs : list error)
    (* fmt.Errorf("<prefix>: %v", errs) *)
| FileSystemError (operation path message : string) (cause : error)
    (* types.NewFileSystemError *)
| ValidationError (operation message : string) (cause : option error).
    (* types.NewValidationError *)

Definition os_IsNotExist (e : error) : bool :=
  match e with ErrNotExist _ => true | _ => false end.

Definition os_IsExist (e : error) : bool :=
  match e with ErrExist _ => true | _ => false end.

(** [%d] of a non-negative count. *)
Definition fmt_d (n : nat) : string := NilEmpty.string_of_uint (Nat.to_uint n).

(** ** The collaborators of the rollback manager

    [git.Repository] (the two methods the compensating actions call) and the
    two [os] calls, as operations on an abstract world [W]: each returns the
    Go [error] ([None] is [nil]) and the world after the call. *)

Class Repository (W : Type) := {
  RemoveWorktree : string -> bool -> W -> option error * W;
  DeleteBranch : string -> bool -> W -> option error * W
}.

Class OS (W : Type) := {
  os_RemoveAll : string -> W -> option error * W;
  os_Remove : string -> W -> option error * W
}.

Module Rollback.

Section Manager.

Context {W : Type} `{!Repository W} `{!OS W}.

Definition RollbackType := string.

Definition RollbackRemoveWorktree : RollbackType := "remove_worktree".
Definition RollbackDeleteBranch : RollbackType := "delete_branch".
Definition RollbackRemoveFiles : RollbackType := "remove_files".
Definition RollbackCleanupLinks : RollbackType := "cleanup_links".

Record RollbackOperation := mkOp {
  Type_ : RollbackType;
  Description : string;
  Action : W -> option error * W;
  Critical : bool;
  ID : Z;
  DependsOn : list Z
}.

Record RollbackManager := mkRM {
  operations : list RollbackOperation;
  dependencies : gmap Z (list Z);
  failFast : bool;
  failFastExplicitlySet : bool;
  lastError : option error
}.

Definition NewRollbackManager : RollbackManager :=
  {| operations := [];
     dependencies := ∅;
     failFast := true;
     failFastExplicitlySet := false;
     lastError := None |}.

Definition appendOperation (op : RollbackOperation) (rm : RollbackManager)
  : RollbackManager :=
  {| operations := operations rm ++ [op];
     dependencies := dependencies rm;
     failFast := failFast rm;
     failFastExplicitlySet := failFastExplicitlySet rm;
     lastError := lastError rm |}.

Definition AddWorktreeCleanup (path : string) (rm : RollbackManager)
  : Z * RollbackManager :=
  let id := Z.of_nat (length (operations rm)) in
  let op := {| Type_ := RollbackRemoveWorktree;
               Description := "Remove worktree at " +:+ path;
               Action := RemoveWorktree path true;
               Critical := true;
               ID := id;
               DependsOn := [] |} in
  (id, appendOperation op rm).

Definition AddBranchCleanup (branch : string) (rm : RollbackManager)
  : Z * RollbackManager :=
  let id := Z.of_nat (length (operations rm)) in
  let op := {| Type_ := RollbackDeleteBranch;
               Description := "Delete branch " +:+ branch;
               Action := DeleteBranch branch true;
               Critical := false;
               ID := id;
               DependsOn := [] |} in
  (id, appendOperation op rm).

Definition AddFileCleanup (path : string) (rm : RollbackManager)
  : Z * RollbackManager :=
  let id := Z.of_nat (length (operations rm)) in
  let op := {| Type_ := RollbackRemoveFiles;
               Description := "Remove files at " +:+ path;
               Action := os_RemoveAll path;
               Critical := true;
               ID := id;
               DependsOn := [] |} in
  (id, appendOperation op rm).

(** The closure of [AddLinkCleanup]: remove the links in order, stop at the
    first error that is not "does not exist". *)
Fixpoint removeLinks (links : list string) (w : W) : option error * W :=
  match links with
  | [] => (None, w)
  | link :: rest =>
      match os_Remove link w with
      | (Some err, w') =>
          if negb (os_IsNotExist err) then (Some err, w')
          else removeLinks rest w'
      | (None, w') => removeLinks rest w'
      end
  end.

Definition AddLinkCleanup (links : list string) (rm : RollbackManager)
  : Z * RollbackManager :=
  let id := Z.of_nat (length (operations rm)) in
  let op := {| Type_ := RollbackCleanupLinks;
               Description :=
                 "Remove " +:+ fmt_d (length links) +:+ " symbolic links";
               Action := removeLinks links;
               Critical := false;
               ID := id;
               DependsOn := [] |} in
  (id, appendOperation op rm).

Definition clearOperations (rm : RollbackManager) : RollbackManager :=
  {| operations := [];
     dependencies := ∅;
     failFast := failFast rm;
     failFastExplicitlySet := failFastExplicitlySet rm;
     lastError := lastError rm |}.

Definition Clear (rm : RollbackManager) : RollbackManager :=
  clearOperations rm.

Definition HasOperations (rm : RollbackManager) : bool :=
  (0 <? length (operations rm))%nat.

Definition GetOperations (rm : RollbackManager) : list string :=
  map Description (operations rm).

Definition addDependsOn (dependsOnID : Z) (op : RollbackOperation)
  : RollbackOperation :=
  {| Type_ := Type_ op;
     Description := Description op;
     Action := Action op;
     Critical := Critical op;
     ID := ID op;
     DependsOn := DependsOn op ++ [dependsOnID] |}.

(** [AddDependency] takes two Go [int]s.  The guard is the source's
    [dependentID < len(rm.operations)]; a negative [dependentID] passes it
    and the index expression panics, which is the [None] here. *)
Definition AddDependency (dependentID dependsOnID : Z) (rm : RollbackManager)
  : option RollbackManager :=
  if dependentID <? Z.of_nat (length (operations rm)) then
    if dependentID <? 0 then None
    else
      Some {| operations :=
                alter (addDependsOn dependsOnID) (Z.to_nat dependentID)
                      (operations rm);
              dependencies :=
                <[dependsOnID :=
                    default [] (dependencies rm !! dependsOnID)
                      ++ [dependentID]]> (dependencies rm);
              failFast := failFast rm;
              failFastExplicitlySet := failFastExplicitlySet rm;
              lastError := lastError rm |}
  else Some rm.

Definition SetFailFast (b : bool) (rm : RollbackManager) : RollbackManager :=
  {| operations := operations rm;
     dependencies := dependencies rm;
     failFast := b;
     failFastExplicitlySet := true;
     lastError := lastError rm |}.

Definition GetLastError (rm : RollbackManager) : option error := lastError rm.

(** *** Execute

    The locals of [Execute] ([errors], [executed], [failed]), the world the
    actions act on, the [lastError] field while the call runs, and a
    record of every call [op.Action()]: the index of the operation in the
    ledger and what the call returned, in call order. *)

Record ExecState := mkExec {
  world : W;
  errors : list error;
  executed : gset Z;
  failed : gset Z;
  lastErr : option error;
  trace : list (nat * option error)
}.

Definition shouldSkipOperation (op : RollbackOperation) (failed : gset Z)
  : bool :=
  existsb (fun depID => bool_decide (depID ∈ failed)) (DependsOn op).

(** [op.Action()] for the operation at index [i]. *)
Definition callAction (i : nat) (op : RollbackOperation) (st : ExecState)
  : option error * ExecState :=
  let '(r, w') := Action op (world st) in
  (r, {| world := w'; errors := errors st; executed := executed st;
         failed := failed st; lastErr := lastErr st;
         trace := trace st ++ [(i, r)] |}).

Definition setLastError (e : error) (st : ExecState) : ExecState :=
  {| world := world st; errors := errors st; executed := executed st;
     failed := failed st; lastErr := Some e; trace := trace st |}.

Definition markFailed (id : Z) (st : ExecState) : ExecState :=
  {| world := world st; errors := errors st; executed := executed st;
     failed := {[id]} ∪ failed st; lastErr := lastErr st;
     trace := trace st |}.

Definition markExecuted (id : Z) (st : ExecState) : ExecState :=
  {| world := world st; errors := errors st;
     executed := {[id]} ∪ executed st;
     failed := failed st; lastErr := lastErr st; trace := trace st |}.

Definition appendError (e : error) (st : ExecState) : ExecState :=
  {| world := world st; errors := errors st ++ [e];
     executed := executed st; failed := failed st; lastErr := lastErr st;
     trace := trace st |}.

Definition criticalFailure (op : RollbackOperation) (err : error) : error :=
  FileSystemError "rollback-critical-failure" ""
    ("critical rollback operation failed: " +:+ Description op) err.

(** A loop body either falls through to the next iteration or returns from
    [Execute]. *)
Inductive outcome :=
| Continue (st : ExecState)
| Return (e : error) (st : ExecState).

(** Body of the phase-1 loop at index [i]. *)
Definition phase1_body (explicit : bool) (i : nat) (op : RollbackOperation)
  (st : ExecState) : outcome :=
  if negb (Critical op) then Continue st
  else if shouldSkipOperation op (failed st) then Continue st
  else
    match callAction i op st with
    | (Some err, st1) =>
        let opError := Errorf_wrap (Description op) err in
        let st2 := setLastError opError st1 in
        if explicit then Return (criticalFailure op err) st2
        else Continue (appendError opError (markFailed (ID op) st2))
    | (None, st1) => Continue (markExecuted (ID op) st1)
    end.

(** [for i := n - 1; i >= 0; i--] over the ledger [ops]. *)
Fixpoint phase1_loop (explicit : bool) (ops : list RollbackOperation)
  (n : nat) (st : ExecState) : outcome :=
  match n with
  | O => Continue st
  | S i =>
      match ops !! i with
      | Some op =>
          match phase1_body explicit i op st with
          | Continue st' => phase1_loop explicit ops i st'
          | Return e st' => Return e st'
          end
      | None => Continue st
      end
  end.

(** Body of the phase-2 loop at index [i]. *)
Definition phase2_body (i : nat) (op : RollbackOperation) (st : ExecState)
  : ExecState :=
  if Critical op || bool_decide (ID op ∈ executed st) then st
  else if shouldSkipOperation op (failed st) then st
  else
    match callAction i op st with
    | (Some err, st1) =>
        let opError := Errorf_wrap (Description op) err in
        setLastError opError (markFailed (ID op) (appendError opError st1))
    | (None, st1) => markExecuted (ID op) st1
    end.

Fixpoint phase2_loop (ops : list RollbackOperation) (n : nat)
  (st : ExecState) : ExecState :=
  match n with
  | O => st
  | S i =>
      match ops !! i with
      | Some op => phase2_loop ops i (phase2_body i op st)
      | None => st
      end
  end.

(** The dependency-aware branch ([failFast = false]). *)

Definition canExecute (op : RollbackOperation) (st : ExecState) : bool :=
  forallb (fun depID => bool_decide (depID ∈ executed st)
                        || bool_decide (depID ∈ failed st))
          (DependsOn op).

Record PassState := mkPass {
  ps_state : ExecState;
  ps_progress : bool;
  ps_newRemaining : list nat
}.

(** Body of [for _, i := range remaining]. *)
Definition pass_body (ops : list RollbackOperation) (ps : PassState) (i : nat)
  : PassState :=
  match ops !! i with
  | None => ps
  | Some op =>
      let st := ps_state ps in
      if shouldSkipOperation op (failed st) then ps
      else if canExecute op st then
        let st' :=
          match callAction i op st with
          | (Some err, st1) =>
              let opError := Errorf_wrap (Description op) err in
              setLastError opError
                (markFailed (ID op) (appendError opError st1))
          | (None, st1) => markExecuted (ID op) st1
          end in
        {| ps_state := st'; ps_progress := true;
           ps_newRemaining := ps_newRemaining ps |}
      else
        {| ps_state := st; ps_progress := ps_progress ps;
           ps_newRemaining := ps_newRemaining ps ++ [i] |}
  end.

Definition pass (ops : list RollbackOperation) (remaining : list nat)
  (st : ExecState) : PassState :=
  fold_left (pass_body ops) remaining
    {| ps_state := st; ps_progress := false; ps_newRemaining := [] |}.

(** Body of the loop that gives up on the operations still waiting. *)
Definition constraint_body (ops : list RollbackOperation) (st : ExecState)
  (i : nat) : ExecState :=
  match ops !! i with
  | None => st
  | Some op =>
      let opError := Errorf_constraint (Description op) in
      setLastError opError (markFailed (ID op) (appendError opError st))
  end.

(** [for len(remaining) > 0 { ... }]; [fuel] bounds the number of passes
    ([None]: the bound was reached). *)
Fixpoint dependency_loop (fuel : nat) (ops : list RollbackOperation)
  (remaining : list nat) (st : ExecState) : option ExecState :=
  match remaining with
  | [] => Some st
  | _ :: _ =>
      match fuel with
      | O => None
      | S fuel' =>
          let ps := pass ops remaining st in
          if negb (ps_progress ps) && (0 <? length (ps_newRemaining ps))%nat
          then Some (fold_left (constraint_body ops) (ps_newRemaining ps)
                               (ps_state ps))
          else dependency_loop fuel' ops (ps_newRemaining ps) (ps_state ps)
      end
  end.

Definition initState (rm : RollbackManager) (w : W) : ExecState :=
  {| world := w; errors := []; executed := ∅; failed := ∅;
     lastErr := lastError rm; trace := [] |}.

Definition storeLastError (rm : RollbackManager) (st : ExecState)
  : RollbackManager :=
  {| operations := operations rm;
     dependencies := dependencies rm;
     failFast := failFast rm;
     failFastExplicitlySet := failFastExplicitlySet rm;
     lastError := lastErr st |}.

Definition aggregateError (errs : list error) : error :=
  FileSystemError "rollback" ""
    ("rollback completed with " +:+ fmt_d (length errs) +:+ " errors")
    (Errorf_errors errs).

(** What [Execute] returns after its loops: the ledger is cleared and the
    collected errors are reported together. *)
Definition finish (rm : RollbackManager) (st : ExecState)
  : option error * RollbackManager * ExecState :=
  let rm' := clearOperations (storeLastError rm st) in
  if (0 <? length (errors st))%nat
  then (Some (aggregateError (errors st)), rm', st)
  else (None, rm', st).

(** [Execute]: the returned error, the manager after the call and the final
    values of the locals.  The result is [None] only if the dependency loop
    exceeds its bound of passes, which [Execute_total] excludes. *)
Definition Execute (rm : RollbackManager) (w : W)
  : option (option error * RollbackManager * ExecState) :=
  let ops := operations rm in
  let st0 := initState rm w in
  if (length ops =? 0)%nat then Some (None, rm, st0)
  else if failFast rm then
    match phase1_loop (failFastExplicitlySet rm) ops (length ops) st0 with
    | Return e st =>
        Some (Some e, clearOperations (storeLastError rm st), st)
    | Continue st1 =>
        if negb (failFastExplicitlySet rm) || (length (errors st1) =? 0)%nat
        then Some (finish rm (phase2_loop ops (length ops) st1))
        else Some (finish rm st1)
    end
  else
    match dependency_loop (S (length ops)) ops (seq 0 (length ops)) st0 with
    | Some st => Some (finish rm st)
    | None => None
    end.

End Manager.

End Rollback.

(** ** A concrete world: the mock repository of the test suite

    [MockGitRepo] of [rollback_test.go] (the two methods that record their
    argument unless an error was injected), together with a flat set of
    existing paths for the two [os] calls. *)

Module Mock.

Record MockGitRepo := mkMock {
  removedWorktrees : list string;
  deletedBranches : list string;
  removeError : option error;
  deleteError : option error;
  paths : gset string
}.

Definition mockRemoveWorktree (path : string) (force : bool) (m : MockGitRepo)
  : option error * MockGitRepo :=
  match removeError m with
  | Some e => (Some e, m)
  | None =>
      (None, {| removedWorktrees := removedWorktrees m ++ [path];
                deletedBranches := deletedBranches m;
                removeError := removeError m;
                deleteError := deleteError m;
                paths := paths m |})
  end.

Definition mockDeleteBranch (name : string) (force : bool) (m : MockGitRepo)
  : option error * MockGitRepo :=
  match deleteError m with
  | Some e => (Some e, m)
  | None =>
      (None, {| removedWorktrees := removedWorktrees m;
                deletedBranches := deletedBranches m ++ [name];
                removeError := removeError m;
                deleteError := deleteError m;
                paths := paths m |})
  end.

Definition withoutPath (path : string) (m : MockGitRepo) : MockGitRepo :=
  {| removedWorktrees := removedWorktrees m;
     deletedBranches := deletedBranches m;
     removeError := removeError m;
     deleteError := deleteError m;
     paths := paths m ∖ {[path]} |}.

Definition mockRemoveAll (path : string) (m : MockGitRepo)
  : option error * MockGitRepo :=
  (None, withoutPath path m).

Definition mockRemove (path : string) (m : MockGitRepo)
  : option error * MockGitRepo :=
  if bool_decide (path ∈ paths m) then (None, withoutPath path m)
  else (Some (ErrNotExist path), m).

#[export] Instance mock_repository : Repository MockGitRepo :=
  {| RemoveWorktree := mockRemoveWorktree; DeleteBranch := mockDeleteBranch |}.

#[export] Instance mock_os : OS MockGitRepo :=
  {| os_RemoveAll := mockRemoveAll; os_Remove := mockRemove |}.

(** [assert.AnError] *)
Definition AnError : error :=
  ErrOpaque "assert.AnError general error for testing".

Definition emptyRepo : MockGitRepo :=
  {| removedWorktrees := []; deletedBranches := [];
     removeError := None; deleteError := None; paths := ∅ |}.

Definition failingRemove : MockGitRepo :=
  {| removedWorktrees := []; deletedBranches := [];
     removeError := Some AnError; deleteError := None; paths := ∅ |}.

Definition failingDelete : MockGitRepo :=
  {| removedWorktrees := []; deletedBranches := [];
     removeError := None; deleteError := Some AnError; paths := ∅ |}.

End Mock.

(** ** Ledgers of the test suite

    The ledgers that [rollback_test.go] builds, on the mock repository. *)

Module Scenarios.

Import Rollback Mock.

Definition manager : Type := RollbackManager (W:=MockGitRepo).

Definition addDependency (dependentID dependsOnID : Z) (rm : manager)
  : manager :=
  default rm (AddDependency dependentID dependsOnID rm).

(** [TestRollbackManager_Execute]: a worktree, a branch, a worktree. *)
Definition threeCleanups : manager :=
  (AddWorktreeCleanup "/worktree2"
     (AddBranchCleanup "branch1"
        (AddWorktreeCleanup "/worktree1" NewRollbackManager).2).2).2.

(** [TestRollbackManager_ExecuteWithErrors] and
    [TestRollbackManager_CriticalFailure]: a worktree, then a branch. *)
Definition worktreeThenBranch : manager :=
  (AddBranchCleanup "branch"
     (AddWorktreeCleanup "/worktree" NewRollbackManager).2).2.

(** [TestRollbackManager_DependencySkipping]: a worktree, a branch and
    files, the last two depending on the first. *)
Definition withDependencies : manager :=
  addDependency 2 0
    (addDependency 1 0
       (AddFileCleanup "/files"
          (AddBranchCleanup "branch"
             (AddWorktreeCleanup "/worktree" NewRollbackManager).2).2).2).

(** Files, then a worktree on which the cleanup of the files depends. *)
Definition filesNeedWorktree : manager :=
  addDependency 0 1
    (AddWorktreeCleanup "/worktree"
       (AddFileCleanup "/files" NewRollbackManager).2).2.

(** Two branches, the cleanup of the first depending on the second. *)
Definition branchNeedsBranch : manager :=
  addDependency 0 1
    (AddBranchCleanup "second"
       (AddBranchCleanup "first" NewRollbackManager).2).2.

(** The operations of these ledgers. *)
Definition removeWorktreeOp (path : string) (id : Z) (deps : list Z)
  : RollbackOperation (W:=MockGitRepo) :=
  {| Type_ := RollbackRemoveWorktree;
     Description := "Remove worktree at " +:+ path;
     Action := RemoveWorktree path true;
     Critical := true; ID := id; DependsOn := deps |}.

Definition deleteBranchOp (branch : string) (id : Z) (deps : list Z)
  : RollbackOperation (W:=MockGitRepo) :=
  {| Type_ := RollbackDeleteBranch;
     Description := "Delete branch " +:+ branch;
     Action := DeleteBranch branch true;
     Critical := false; ID := id; DependsOn := deps |}.

Definition removeFilesOp (path : string) (id : Z) (deps : list Z)
  : RollbackOperation (W:=MockGitRepo) :=
  {| Type_ := RollbackRemoveFiles;
     Description := "Remove files at " +:+ path;
     Action := os_RemoveAll path;
     Critical := true; ID := id; DependsOn := deps |}.

(** The outcome of [Execute]. *)
Definition returned (rm : manager) (w : MockGitRepo) : option error :=
  match Execute rm w with
  | Some (ret, _, _) => ret
  | None => None
  end.

Definition managerAfter (rm : manager) (w : MockGitRepo) : manager :=
  match Execute rm w with
  | Some (_, rm', _) => rm'
  | None => rm
  end.

Definition localsAfter (rm : manager) (w : MockGitRepo)
  : ExecState (W:=MockGitRepo) :=
  match Execute rm w with
  | Some (_, _, st) => st
  | None => initState rm w
  end.

End Scenarios.

(** ** Vocabulary of the properties

    Definitions used only to state and prove the properties of the rollback
    manager. *)

Module RollbackSpec.

Import Rollback.

Section Spec.

Context {W : Type}.

Implicit Types (rm : RollbackManager (W:=W)) (st : ExecState (W:=W)).
Implicit Types (op : RollbackOperation (W:=W)).
Implicit Types (ops : list (RollbackOperation (W:=W))).

(** Operation IDs are positions in the ledger: every [Add...Cleanup] uses
    [len(rm.operations)] as the ID of the operation it appends. *)
Definition wf_ledger ops : Prop :=
  ∀ (i : nat) op, ops !! i = Some op → ID op = Z.of_nat i.

(** The calls [op.Action()] made by [Execute], in call order. *)
Definition invocations rm (w : W) : list (nat * option error) :=
  match Execute rm w with
  | Some (_, _, st) => trace st
  | None => []
  end.

(** The operation at index [i] was called in [st] and its outcome recorded,
    which gave [st']. *)
Definition attempted (i : nat) op st st' : Prop :=
  ∃ r w',
    Action op (world st) = (r, w') ∧ world st' = w'
    ∧ trace st' = trace st ++ [(i, r)]
    ∧ match r with
      | Some err =>
          errors st' = errors st ++ [Errorf_wrap (Description op) err]
          ∧ failed st' = {[ID op]} ∪ failed st
          ∧ executed st' = executed st
          ∧ lastErr st' = Some (Errorf_wrap (Description op) err)
      | None =>
          errors st' = errors st ∧ failed st' = failed st
          ∧ executed st' = {[ID op]} ∪ executed st
          ∧ lastErr st' = lastErr st
      end.

(** One iteration of a phase loop at index [i]: the operation is passed
    over (it is not of the phase's class, or one of its dependencies has
    failed), or it is attempted. *)
Definition visit (inClass : bool) (i : nat) op st st' : Prop :=
  (st' = st ∧ (inClass = false ∨ shouldSkipOperation op (failed st) = true))
  ∨ (inClass = true ∧ shouldSkipOperation op (failed st) = false
     ∧ attempted i op st st').

(** A phase loop from index [n - 1] down to [0] over the operations that
    [g] selects. *)
Inductive descend ops
  (g : RollbackOperation (W:=W) → ExecState (W:=W) → bool)
  : nat → ExecState (W:=W) → ExecState (W:=W) → Prop :=
| descend_O st : descend ops g O st st
| descend_S i op st st1 st' :
    ops !! i = Some op →
    visit (g op st) i op st st1 →
    descend ops g i st1 st' →
    descend ops g (S i) st st'.

(** The classes of the two phases. *)
Definition inPhase1 op st : bool := Critical op.
Definition inPhase2 op st : bool :=
  negb (Critical op || bool_decide (ID op ∈ executed st)).
Definition ofClass (c : bool) op st : bool := eqb (Critical op) c.

(** The indices below [n] of the operations whose critical flag is [c],
    highest first. *)
Fixpoint indices_desc ops (c : bool) (n : nat) : list nat :=
  match n with
  | O => []
  | S i =>
      match ops !! i with
      | Some op =>
          (if eqb (Critical op) c then [i] else []) ++ indices_desc ops c i
      | None => indices_desc ops c i
      end
  end.

(** [rm.lastError] is the last of the collected errors, or still what it was
    before the call. *)
Definition lastInv (init : option error) st : Prop :=
  lastErr st = from_option Some init (last (errors st)).

(** The operation at index [j] is critical. *)
Definition criticalAt ops (j : nat) : Prop :=
  ∃ op, ops !! j = Some op ∧ Critical op = true.

Definition nonCriticalAt ops (j : nat) : Prop :=
  ∃ op, ops !! j = Some op ∧ Critical op = false.

(** The wrapped errors of the calls that failed, in call order. *)
Definition trace_errors ops (tr : list (nat * option error)) : list error :=
  omap (λ ev, match ev.2, ops !! ev.1 with
              | Some err, Some op => Some (Errorf_wrap (Description op) err)
              | _, _ => None
              end) tr.

(** The locals [failed] and [executed] hold the IDs of the operations whose
    call failed, respectively succeeded. *)
Definition failedInv st : Prop :=
  ∀ d, d ∈ failed st ↔ ∃ (j : nat) e, (j, Some e) ∈ trace st ∧ d = Z.of_nat j.

Definition executedInv st : Prop :=
  ∀ d, d ∈ executed st ↔ ∃ j : nat, (j, None) ∈ trace st ∧ d = Z.of_nat j.

(** In the default mode the operation [y] is reached before [x]: it is
    critical and [x] is not, or both are of one class and [y] was appended
    after [x]. *)
Definition reachedBefore (opx opy : RollbackOperation (W:=W)) (x y : nat)
  : Prop :=
  (Critical opy = true ∧ Critical opx = false)
  ∨ (Critical opy = Critical opx ∧ (x < y)%nat).

(** In the calls [tr], every call of an operation comes after a successful
    call of each operation it depends on. *)
Definition depsBefore ops (tr : list (nat * option error)) : Prop :=
  ∀ (k x : nat) r op d,
    tr !! k = Some (x, r) → ops !! x = Some op → d ∈ DependsOn op →
    ∃ k' j : nat, (k' < k)%nat ∧ tr !! k' = Some (j, None) ∧ d = Z.of_nat j.

(** Invariant of the dependency loop; [pending] are the indices the loop
    still holds (to be visited in this pass, or kept for the next). *)
Record depInv ops st (pending : list nat) : Prop := mkDepInv {
  dep_failed : failedInv st;
  dep_executed : executedInv st;
  dep_pending_nodup : NoDup pending;
  dep_trace_pending : ∀ j r, (j, r) ∈ trace st → j ∉ pending;
  dep_trace_nodup : NoDup (trace st).*1;
  dep_before : depsBefore ops (trace st);
  dep_covered :
    ∀ i op, ops !! i = Some op →
      i ∈ pending ∨ (∃ r, (i, r) ∈ trace st)
      ∨ (∃ d, d ∈ DependsOn op ∧ d ∈ failed st)
}.

(** While a pass has made no progress, the state is the one the pass
    started from, and the operations kept for the next pass wait for a
    dependency that was not attempted. *)
Definition passInv ops (st0 : ExecState (W:=W)) (ps : PassState (W:=W))
  : Prop :=
  ps_progress ps = false →
  ps_state ps = st0
  ∧ ∀ i, i ∈ ps_newRemaining ps →
      ∃ op, ops !! i = Some op
            ∧ shouldSkipOperation op (failed st0) = false
            ∧ canExecute op st0 = false.

(** The locals agree with the calls made so far. *)
Definition coherent ops st : Prop :=
  failedInv st ∧ executedInv st
  ∧ errors st = trace_errors ops (trace st)
  ∧ (errors st = [] → failed st = ∅).

(** The operations the loop gave up on: they were neither skipped nor
    executable in the state [st] the last pass left. *)
Definition waiting ops st (l : list nat) : Prop :=
  ∀ i, i ∈ l →
    ∃ op, ops !! i = Some op
          ∧ shouldSkipOperation op (failed st) = false
          ∧ canExecute op st = false.

End Spec.

End RollbackSpec.

(** ** SHA-256

    [crypto/sha256.Sum256] on a sequence of bytes (FIPS 180-4), with 32-bit
    words as integers below [2^32]. *)

Module SHA256.

Definition mask32 : Z := 0xffffffff.

Definition add32 (a b : Z) : Z := Z.land (a + b) mask32.

Definition rotr (n x : Z) : Z :=
  Z.lor (Z.shiftr x n) (Z.land (Z.shiftl x (32 - n)) mask32).

Definition Ch (x y z : Z) : Z :=
  Z.lxor (Z.land x y) (Z.land (Z.lxor x mask32) z).

Definition Maj (x y z : Z) : Z :=
  Z.lxor (Z.lxor (Z.land x y) (Z.land x z)) (Z.land y z).

Definition Sigma0 (x : Z) : Z :=
  Z.lxor (Z.lxor (rotr 2 x) (rotr 13 x)) (rotr 22 x).

Definition Sigma1 (x : Z) : Z :=
  Z.lxor (Z.lxor (rotr 6 x) (rotr 11 x)) (rotr 25 x).

Definition sigma0 (x : Z) : Z :=
  Z.lxor (Z.lxor (rotr 7 x) (rotr 18 x)) (Z.shiftr x 3).

Definition sigma1 (x : Z) : Z :=
  Z.lxor (Z.lxor (rotr 17 x) (rotr 19 x)) (Z.shiftr x 10).

(** The constants are fractional parts of roots of the first primes: the
    first 32 bits of the square roots of the first 8 primes for the initial
    hash value, of the cube roots of the first 64 primes for the round
    constants. *)

Definition is_prime (n : Z) : bool :=
  forallb (λ d, negb (n mod Z.of_nat d =? 0)) (seq 2 (Z.to_nat n - 2)).

Definition primes (count : nat) : list Z :=
  take count (List.filter is_prime (map Z.of_nat (seq 2 400))).

(** The largest [r] below [2^bits] above the start value with
    [r^3 <= n], bit by bit. *)
Fixpoint cube_root (bits : nat) (r n : Z) : Z :=
  match bits with
  | O => r
  | S bits' =>
      let r' := r + 2 ^ Z.of_nat bits' in
      if r' * r' * r' <=? n then cube_root bits' r' n
      else cube_root bits' r n
  end.

Definition H0 : list Z :=
  Eval vm_compute in
    map (λ p, Z.land (Z.sqrt (p * 2 ^ 64)) mask32) (primes 8).

Definition K : list Z :=
  Eval vm_compute in
    map (λ p, Z.land (cube_root 36 0 (p * 2 ^ 96)) mask32) (primes 64).

(** The [n] low bytes of [x], most significant first. *)
Definition be_bytes (n : nat) (x : Z) : list Z :=
  map (λ i, Z.land (Z.shiftr x (8 * Z.of_nat i)) 0xff) (rev (seq 0 n)).

(** The message followed by the bit [1], zeros up to 56 modulo 64 bytes, and
    the length in bits on 8 bytes. *)
Definition pad (msg : list Z) : list Z :=
  let len := Z.of_nat (length msg) in
  msg ++ [0x80] ++ repeat 0 (Z.to_nat ((55 - len) mod 64))
      ++ be_bytes 8 (8 * len).

Fixpoint words (bs : list Z) : list Z :=
  match bs with
  | b0 :: b1 :: b2 :: b3 :: rest =>
      Z.lor (Z.lor (Z.shiftl b0 24) (Z.shiftl b1 16))
            (Z.lor (Z.shiftl b2 8) b3) :: words rest
  | _ => []
  end.

Fixpoint blocks (n : nat) (ws : list Z) : list (list Z) :=
  match n with
  | O => []
  | S n' => take 16 ws :: blocks n' (drop 16 ws)
  end.

(** The message schedule, latest word first: [ws] holds [W[t-1]], [W[t-2]],
    ... and [n] more words are computed. *)
Fixpoint schedule (n : nat) (ws : list Z) : list Z :=
  match n with
  | O => ws
  | S n' =>
      let w := add32 (add32 (sigma1 (nth 1 ws 0)) (nth 6 ws 0))
                     (add32 (sigma0 (nth 14 ws 0)) (nth 15 ws 0)) in
      schedule n' (w :: ws)
  end.

Definition vars : Type := Z * Z * Z * Z * Z * Z * Z * Z.

Definition round (v : vars) (kw : Z * Z) : vars :=
  let '(a, b, c, d, e, f, g, h) := v in
  let '(k, w) := kw in
  let T1 := add32 (add32 (add32 h (Sigma1 e)) (add32 (Ch e f g) k)) w in
  let T2 := add32 (Sigma0 a) (Maj a b c) in
  (add32 T1 T2, a, b, c, add32 d T1, e, f, g).

Definition compress (hs : list Z) (block : list Z) : list Z :=
  let W := rev (schedule 48 (rev block)) in
  let v0 := (nth 0 hs 0, nth 1 hs 0, nth 2 hs 0, nth 3 hs 0,
             nth 4 hs 0, nth 5 hs 0, nth 6 hs 0, nth 7 hs 0) in
  let '(a, b, c, d, e, f, g, h) := fold_left round (combine K W) v0 in
  [add32 (nth 0 hs 0) a; add32 (nth 1 hs 0) b; add32 (nth 2 hs 0) c;
   add32 (nth 3 hs 0) d; add32 (nth 4 hs 0) e; add32 (nth 5 hs 0) f;
   add32 (nth 6 hs 0) g; add32 (nth 7 hs 0) h].

(** The 32 bytes of the digest. *)
Definition Sum256 (msg : list Z) : list Z :=
  let ws := words (pad msg) in
  let hs := fold_left compress (blocks (length ws / 16) ws) H0 in
  concat (map (be_bytes 4) hs).

End SHA256.

(** Go strings are byte sequences: a character of a [string] is one byte. *)
Definition bytes_of_string (s : string) : list Z :=
  map (λ c, Z.of_N (N_of_ascii c)) (list_ascii_of_string s).

Definition hexdigit (n : Z) : ascii :=
  nth (Z.to_nat n) (list_ascii_of_string "0123456789abcdef") "0"%char.

(** [fmt.Sprintf("%x", bs)] on a byte slice. *)
Fixpoint fmt_x (bs : list Z) : string :=
  match bs with
  | [] => ""
  | b :: rest => String (hexdigit (b / 16)) (String (hexdigit (b mod 16)) (fmt_x rest))
  end.

(** [%d] of a Go [int]. *)
Definition fmt_dZ (n : Z) : string := NilZero.string_of_int (Z.to_int n).

(** ** The lock manager *)

Module Lock.

Definition LockType := string.

Definition LockTypeCreate : LockType := "create".
Definition LockTypeDelete : LockType := "delete".
Definition LockTypeMerge : LockType := "merge".
Definition LockTypeSwitch : LockType := "switch".
Definition LockTypeCleanup : LockType := "cleanup".

(** [lockFile] tells whether the handle holds an open [*os.File]; durations
    are in nanoseconds. *)
Record OperationLock := mkLock {
  lockPath : string;
  lockFile : bool;
  pid : Z;
  operation : string;
  acquired : bool;
  timeout : Z;
  retryDelay : Z
}.

(** [locks] maps a lock key to the address of the [*OperationLock] that the
    manager tracks; the caller holds the same address. *)
Record LockManager := mkLM {
  lockDir : string;
  locks : gmap string nat
}.

Inductive fsop := OpMkdir | OpCreate | OpWrite | OpClose | OpRemove | OpRead.

(** What the code takes from the platform and does not change: path
    joining, time formatting, the process ID, the operating system, the
    answers of the process table, and the I/O errors of the file system
    other than "exists" and "does not exist". *)
Record Env := mkEnv {
  filepath_Join : string → string → string;
  os_TempDir : string;
  time_RFC3339 : Z → string;
  os_Getpid : Z;
  windows : bool;
  os_FindProcess : Z → option error;
  process_Signal0 : Z → option error;
  process_Wait : Z → error + bool;
  fault : fsop → string → option error
}.

(** What changes: the [*OperationLock] objects by address, the files by
    path, the clock, and the number of calls made to the file system. *)
Record Machine := mkMachine {
  heap : gmap nat OperationLock;
  next : nat;
  files : gmap string string;
  clock : Z;
  fs_calls : nat
}.

Section WithEnv.

Variable env : Env.

Definition tick (m : Machine) : Machine :=
  {| heap := heap m; next := next m; files := files m; clock := clock m;
     fs_calls := S (fs_calls m) |}.

Definition setFiles (fs : gmap string string) (m : Machine) : Machine :=
  {| heap := heap m; next := next m; files := fs; clock := clock m;
     fs_calls := fs_calls m |}.

(** [os.MkdirAll(dir, 0755)] *)
Definition os_MkdirAll (dir : string) (m : Machine) : option error * Machine :=
  (fault env OpMkdir dir, tick m).

(** [os.OpenFile(path, O_CREATE|O_EXCL|O_WRONLY, 0600)] *)
Definition os_OpenFile_excl (path : string) (m : Machine)
  : option error * Machine :=
  match fault env OpCreate path with
  | Some e => (Some e, tick m)
  | None =>
      match files m !! path with
      | Some _ => (Some (ErrExist path), tick m)
      | None => (None, setFiles (<[path := ""]> (files m)) (tick m))
      end
  end.

(** [file.WriteString(data)] on the file opened at [path] *)
Definition file_WriteString (path data : string) (m : Machine)
  : option error * Machine :=
  match fault env OpWrite path with
  | Some e => (Some e, tick m)
  | None =>
      (None, setFiles (<[path := default "" (files m !! path) +:+ data]>
                         (files m)) (tick m))
  end.

Definition file_Sync (m : Machine) : Machine := tick m.

Definition file_Close (path : string) (m : Machine) : option error * Machine :=
  (fault env OpClose path, tick m).

Definition os_Remove (path : string) (m : Machine) : option error * Machine :=
  match fault env OpRemove path with
  | Some e => (Some e, tick m)
  | None =>
      match files m !! path with
      | Some _ => (None, setFiles (delete path (files m)) (tick m))
      | None => (Some (ErrNotExist path), tick m)
      end
  end.

Definition os_ReadFile (path : string) (m : Machine)
  : (string + error) * Machine :=
  match fault env OpRead path with
  | Some e => (inr e, tick m)
  | None =>
      match files m !! path with
      | Some data => (inl data, tick m)
      | None => (inr (ErrNotExist path), tick m)
      end
  end.

(** [time.Sleep(d)] *)
Definition time_Sleep (d : Z) (m : Machine) : Machine :=
  {| heap := heap m; next := next m; files := files m;
     clock := clock m + d; fs_calls := fs_calls m |}.

Definition generateLockKey (operation targetPath : string) : string :=
  let hash := SHA256.Sum256 (bytes_of_string targetPath) in
  let pathHash := fmt_x (take 8 hash) in
  "wtree-" +:+ operation +:+ "-" +:+ pathHash.

Definition getLockDirectory (m : Machine) : (string + error) * Machine :=
  let lockDir :=
    if windows env then filepath_Join env (os_TempDir env) "wtree-locks"
    else filepath_Join env "/tmp" "wtree-locks" in
  match os_MkdirAll lockDir m with
  | (Some err, m') => (inr err, m')
  | (None, m') => (inl lockDir, m')
  end.

Definition NewLockManager (m : Machine) : (LockManager + error) * Machine :=
  match getLockDirectory m with
  | (inr err, m') =>
      (inr (Errorf_wrap "failed to create lock directory" err), m')
  | (inl dir, m') => (inl {| lockDir := dir; locks := ∅ |}, m')
  end.

Definition newOperationLock (lockDir lockKey operation : string)
  (timeout : Z) : OperationLock :=
  {| lockPath := filepath_Join env lockDir (lockKey +:+ ".lock");
     lockFile := false;
     pid := os_Getpid env;
     operation := operation;
     acquired := false;
     timeout := timeout;
     retryDelay := 100 * 1000000 |}.

(** *** Reading a lock file *)

(** [strings.Split(s, sep)] for a separator of one byte. *)
Fixpoint strings_Split (sep : ascii) (s : string) : list string :=
  match s with
  | EmptyString => [EmptyString]
  | String c rest =>
      if Ascii.eqb c sep then EmptyString :: strings_Split sep rest
      else
        match strings_Split sep rest with
        | first :: others => String c first :: others
        | [] => [String c EmptyString]
        end
  end.

Definition digit (c : ascii) : option Z :=
  let n := Z.of_N (N_of_ascii c) in
  if (48 <=? n) && (n <=? 57) then Some (n - 48) else None.

Fixpoint parseDigits (acc : Z) (s : string) : option Z :=
  match s with
  | EmptyString => Some acc
  | String c rest =>
      match digit c with
      | Some d => parseDigits (acc * 10 + d) rest
      | None => None
      end
  end.

(** [strconv.Atoi]: an optional sign and one or more decimal digits, the
    value within the 64-bit [int]; [None] when it returns an error. *)
Definition strconv_Atoi (s : string) : option Z :=
  let '(neg, body) :=
    match s with
    | String "-" rest => (true, rest)
    | String "+" rest => (false, rest)
    | _ => (false, s)
    end in
  match body with
  | EmptyString => None
  | _ =>
      match parseDigits 0 body with
      | Some n =>
          let v := if neg then - n else n in
          if (- 2 ^ 63 <=? v) && (v <=? 2 ^ 63 - 1) then Some v else None
      | None => None
      end
  end.

(** Body of the loop over the lines: the PID when the line holds one. *)
Definition pidOfLine (line : string) : option Z :=
  if (4 <? String.length line)%nat
     && String.eqb (substring 0 4 line) "pid=" then
    strconv_Atoi (substring 4 (String.length line - 4) line)
  else None.

Fixpoint firstPid (lines : list string) : Z :=
  match lines with
  | [] => 0
  | line :: rest =>
      match pidOfLine line with
      | Some pid => pid
      | None => firstPid rest
      end
  end.

Definition extractPIDFromLockInfo (lockInfo : string) : Z :=
  firstPid (strings_Split "010" lockInfo).

Definition processExistsUnix (pid : Z) : bool :=
  match os_FindProcess env pid with
  | Some _ => false
  | None =>
      match process_Signal0 env pid with
      | Some _ => false
      | None => true
      end
  end.

Definition processExistsWindows (pid : Z) : bool :=
  match os_FindProcess env pid with
  | Some _ => false
  | None =>
      match process_Wait env pid with
      | inl _ => true
      | inr exited => negb exited
      end
  end.

Definition readLockInfo (ol : OperationLock) (m : Machine)
  : (string + error) * Machine :=
  os_ReadFile (lockPath ol) m.

Definition isLockStale (ol : OperationLock) (m : Machine) : bool * Machine :=
  match readLockInfo ol m with
  | (inr _, m') => (true, m')
  | (inl lockInfo, m') =>
      let pid := extractPIDFromLockInfo lockInfo in
      if 0 <? pid then
        if windows env then (negb (processExistsWindows pid), m')
        else (negb (processExistsUnix pid), m')
      else (true, m')
  end.

Definition cleanupStaleLock (ol : OperationLock) (m : Machine)
  : option error * Machine :=
  os_Remove (lockPath ol) m.

(** *** Acquiring and releasing *)

Definition setHandle (file acq : bool) (ol : OperationLock) : OperationLock :=
  {| lockPath := lockPath ol; lockFile := file; pid := pid ol;
     operation := operation ol; acquired := acq; timeout := timeout ol;
     retryDelay := retryDelay ol |}.

Definition newline : string := String "010" "".

(** [fmt.Sprintf("pid=%d\noperation=%s\ntime=%s\n", ...)] *)
Definition lockRecord (ol : OperationLock) (now : Z) : string :=
  "pid=" +:+ fmt_dZ (pid ol) +:+ newline
  +:+ "operation=" +:+ operation ol +:+ newline
  +:+ "time=" +:+ time_RFC3339 env now +:+ newline.

(** The [for] loop of [acquire]; [fuel] bounds the number of iterations
    ([None]: the bound was reached). *)
Fixpoint acquire_loop (fuel : nat) (startTime : Z) (ol : OperationLock)
  (m : Machine) : option (option error * OperationLock * Machine) :=
  match fuel with
  | O => None
  | S fuel' =>
      match os_OpenFile_excl (lockPath ol) m with
      | (None, m1) =>
          let ol1 := setHandle true true ol in
          let lockInfo := lockRecord ol (clock m1) in
          match file_WriteString (lockPath ol) lockInfo m1 with
          | (Some writeErr, m2) =>
              let '(_, m3) := file_Close (lockPath ol) m2 in
              let '(_, m4) := os_Remove (lockPath ol) m3 in
              Some (Some (Errorf_wrap "failed to write lock info" writeErr),
                    ol1, m4)
          | (None, m2) => Some (None, ol1, file_Sync m2)
          end
      | (Some err, m1) =>
          if negb (os_IsExist err) then
            Some (Some (Errorf_wrap "failed to create lock file" err), ol, m1)
          else if timeout ol <=? clock m1 - startTime then
            match readLockInfo ol m1 with
            | (inl lockInfo, m2) =>
                Some (Some (ValidationError "acquire-lock-timeout"
                              ("timeout waiting for lock (held by "
                                 +:+ lockInfo +:+ ")") (Some err)), ol, m2)
            | (inr _, m2) =>
                Some (Some (ValidationError "acquire-lock-timeout"
                              "timeout waiting for lock" (Some err)), ol, m2)
            end
          else
            let '(stale, m2) := isLockStale ol m1 in
            if stale then
              match cleanupStaleLock ol m2 with
              | (None, m3) => acquire_loop fuel' startTime ol m3
              | (Some _, m3) =>
                  acquire_loop fuel' startTime ol
                               (time_Sleep (retryDelay ol) m3)
              end
            else
              acquire_loop fuel' startTime ol (time_Sleep (retryDelay ol) m2)
      end
  end.

(** Two iterations for each sleep that fits in the timeout, and four more. *)
Definition acquire_fuel (ol : OperationLock) : nat :=
  4 + 2 * Z.to_nat (timeout ol / Z.max 1 (retryDelay ol)).

Definition acquire (ol : OperationLock) (m : Machine)
  : option (option error * OperationLock * Machine) :=
  if acquired ol then
    Some (Some (ValidationError "acquire-lock" "lock already acquired" None),
          ol, m)
  else acquire_loop (acquire_fuel ol) (clock m) ol m.

Definition cleanup (ol : OperationLock) (m : Machine)
  : option error * OperationLock * Machine :=
  let '(errors1, ol1, m1) :=
    if lockFile ol then
      match file_Close (lockPath ol) m with
      | (Some err, m') =>
          ([Errorf_wrap "failed to close lock file" err],
           setHandle false (acquired ol) ol, m')
      | (None, m') => ([], setHandle false (acquired ol) ol, m')
      end
    else ([], ol, m) in
  let '(errors2, m2) :=
    match os_Remove (lockPath ol) m1 with
    | (Some err, m') =>
        if negb (os_IsNotExist err)
        then (errors1 ++ [Errorf_wrap "failed to remove lock file" err], m')
        else (errors1, m')
    | (None, m') => (errors1, m')
    end in
  if (0 <? length errors2)%nat
  then (Some (Errorf_list "lock cleanup errors" errors2), ol1, m2)
  else (None, ol1, m2).

Definition Release (ol : OperationLock) (m : Machine)
  : option error * OperationLock * Machine :=
  if negb (acquired ol) then (None, ol, m)
  else
    let '(err, ol', m') := cleanup ol m in
    (err, setHandle (lockFile ol') false ol', m').

Definition setHeap (h : gmap nat OperationLock) (m : Machine) : Machine :=
  {| heap := h; next := next m; files := files m; clock := clock m;
     fs_calls := fs_calls m |}.

(** [&OperationLock{...}]: a new object at a new address. *)
Definition alloc (ol : OperationLock) (m : Machine) : nat * Machine :=
  (next m, {| heap := <[next m := ol]> (heap m); next := S (next m);
              files := files m; clock := clock m; fs_calls := fs_calls m |}).

(** [Release] on the object at the address [a]. *)
Definition ReleaseAt (a : nat) (m : Machine) : option error * Machine :=
  match heap m !! a with
  | None => (None, m)
  | Some ol =>
      let '(err, ol', m') := Release ol m in
      (err, setHeap (<[a := ol']> (heap m')) m')
  end.

Definition acquireAt (a : nat) (m : Machine)
  : option (option error * Machine) :=
  match heap m !! a with
  | None => Some (None, m)
  | Some ol =>
      match acquire ol m with
      | None => None
      | Some (err, ol', m') => Some (err, setHeap (<[a := ol']> (heap m')) m')
      end
  end.

Definition cleanupAt (a : nat) (m : Machine) : option error * Machine :=
  match heap m !! a with
  | None => (None, m)
  | Some ol =>
      let '(err, ol', m') := cleanup ol m in
      (err, setHeap (<[a := ol']> (heap m')) m')
  end.

Definition alreadyAcquired (lockType : LockType) (targetPath : string)
  : error :=
  ValidationError "acquire-lock"
    ("lock already acquired for " +:+ lockType +:+ " on " +:+ targetPath)
    None.

(** [AcquireLock]: the handle (an address) or the error, the manager and the
    machine after the call; [None] only if the loop of [acquire] exceeds its
    bound of iterations. *)
Definition AcquireLock (lockType : LockType) (targetPath : string)
  (timeout : Z) (lm : LockManager) (m : Machine)
  : option ((nat + error) * LockManager * Machine) :=
  let lockKey := generateLockKey lockType targetPath in
  let held :=
    match locks lm !! lockKey with
    | Some a =>
        match heap m !! a with
        | Some existingLock => acquired existingLock
        | None => false
        end
    | None => false
    end in
  if held then Some (inr (alreadyAcquired lockType targetPath), lm, m)
  else
    let '(a, m0) :=
      alloc (newOperationLock (lockDir lm) lockKey lockType timeout) m in
    match acquireAt a m0 with
    | None => None
    | Some (Some err, m1) =>
        let '(_, m2) := cleanupAt a m1 in
        Some (inr (Errorf_wrap "failed to acquire lock" err), lm, m2)
    | Some (None, m1) =>
        Some (inl a,
              {| lockDir := lockDir lm;
                 locks := <[lockKey := a]> (locks lm) |}, m1)
    end.

(** The key under which the manager tracks the address [a]: the first one
    in the order of [map_to_list], for Go's unspecified iteration order. *)
Definition trackedKey (a : nat) (lm : LockManager) : option string :=
  fst <$> head (filter (λ kv, kv.2 = a) (map_to_list (locks lm))).

(** [ReleaseLock]; the handle is [None] for [nil]. *)
Definition ReleaseLock (lock : option nat) (lm : LockManager) (m : Machine)
  : option error * LockManager * Machine :=
  match lock with
  | None => (None, lm, m)
  | Some a =>
      let lm' :=
        match trackedKey a lm with
        | Some key => {| lockDir := lockDir lm; locks := delete key (locks lm) |}
        | None => lm
        end in
      let '(err, m') := ReleaseAt a m in
      (err, lm', m')
  end.

(** Body of the loop of [ReleaseAll]. *)
Definition releaseAll_body (acc : list error * Machine) (kv : string * nat)
  : list error * Machine :=
  let '(errors, m) := acc in
  match ReleaseAt kv.2 m with
  | (Some err, m') => (errors ++ [err], m')
  | (None, m') => (errors, m')
  end.

Definition ReleaseAll (lm : LockManager) (m : Machine)
  : option error * LockManager * Machine :=
  let '(errors, m') :=
    fold_left releaseAll_body (map_to_list (locks lm)) ([], m) in
  let lm' := {| lockDir := lockDir lm; locks := ∅ |} in
  if (0 <? length errors)%nat
  then (Some (Errorf_list
                ("failed to release " +:+ fmt_d (length errors) +:+ " locks")
                errors), lm', m')
  else (None, lm', m').

End WithEnv.

End Lock.

(** ** Vocabulary of the properties of the lock manager *)

Module LockSpec.

Import Lock.

(** The line reads [pid=] followed by what [strconv.Atoi] parses as [n]. *)
Definition pidLine (line : string) (n : Z) : Prop :=
  ∃ digits, line = "pid=" +:+ digits ∧ strconv_Atoi digits = Some n.

(** The addresses the manager tracks have been allocated. *)
Definition manager_wf (lm : LockManager) (m : Machine) : Prop :=
  ∀ key a, locks lm !! key = Some a → (a < next m)%nat.

(** The injected faults are I/O errors other than "exists" and "does not
    exist", which the file system itself reports. *)
Definition faults_are_io (env : Env) : Prop :=
  ∀ op path e, fault env op path = Some e →
    os_IsExist e = false ∧ os_IsNotExist e = false.

(** The object behind the handle [a]. *)
Definition handle_acquired (a : nat) (m : Machine) : Prop :=
  ∃ ol, heap m !! a = Some ol ∧ acquired ol = true.

(** The calls to the file system leave the objects in memory alone. *)
Definition frame (m m' : Machine) : Prop :=
  heap m' = heap m ∧ next m' = next m.

End LockSpec.

(** ** A concrete platform for the lock manager

    A Unix host on which only this process (PID 4242) is alive, no I/O
    faults occur and paths are joined with a slash. *)

Module LockTest.

Import Lock.

Definition thisPid : Z := 4242.

Definition env : Env :=
  {| filepath_Join := λ dir name, dir +:+ "/" +:+ name;
     os_TempDir := "/tmp";
     time_RFC3339 := λ _, "2024-01-01T00:00:00Z";
     os_Getpid := thisPid;
     windows := false;
     os_FindProcess := λ _, None;
     process_Signal0 :=
       λ pid, if pid =? thisPid then None
              else Some (ErrOpaque "os: process already finished");
     process_Wait := λ _, inl (ErrOpaque "wait: no child processes");
     fault := λ _ _, None |}.

Definition boot : Machine :=
  {| heap := ∅; next := O; files := ∅; clock := 0; fs_calls := O |}.

Definition seconds (n : Z) : Z := n * 1000000000.

(** The manager and the machine after [NewLockManager]. *)
Definition manager0 : LockManager :=
  match NewLockManager env boot with
  | (inl lm, _) => lm
  | (inr _, _) => {| lockDir := ""; locks := ∅ |}
  end.

Definition machine0 : Machine := (NewLockManager env boot).2.

(** ... and after [AcquireLock("create", "/repo/A", 5s)]. *)
Definition manager1 : LockManager :=
  match AcquireLock env "create" "/repo/A" (seconds 5) manager0 machine0 with
  | Some (_, lm, _) => lm
  | None => manager0
  end.

Definition machine1 : Machine :=
  match AcquireLock env "create" "/repo/A" (seconds 5) manager0 machine0 with
  | Some (_, _, m) => m
  | None => machine0
  end.

(** A lock whose file holds a PID line that does not parse. *)
Definition someLock : OperationLock :=
  newOperationLock env "/tmp/wtree-locks" "wtree-create-x" "create"
                   (seconds 5).

Definition garbledRecord : string :=
  "pid=abc" +:+ newline +:+ "operation=create" +:+ newline.

Definition garbled : Machine :=
  setFiles (<[lockPath someLock := garbledRecord]> ∅) boot.

End LockTest.

(** ** Vocabulary of further properties of the rollback manager *)

Module RollbackMore.

Import Rollback RollbackSpec.

Section More.

Context {W : Type} `{!Repository W} `{!OS W}.

Implicit Types (rm : RollbackManager (W:=W)) (st : ExecState (W:=W)).
Implicit Types (op : RollbackOperation (W:=W)).
Implicit Types (ops : list (RollbackOperation (W:=W))).

(** The managers that the exported functions produce from
    [NewRollbackManager]. *)
Inductive reachable : RollbackManager (W:=W) → Prop :=
| reach_new : reachable NewRollbackManager
| reach_worktree path rm :
    reachable rm → reachable (AddWorktreeCleanup path rm).2
| reach_branch branch rm :
    reachable rm → reachable (AddBranchCleanup branch rm).2
| reach_file path rm :
    reachable rm → reachable (AddFileCleanup path rm).2
| reach_link links rm :
    reachable rm → reachable (AddLinkCleanup links rm).2
| reach_dependency dependentID dependsOnID rm rm' :
    reachable rm →
    AddDependency dependentID dependsOnID rm = Some rm' →
    reachable rm'
| reach_failFast b rm : reachable rm → reachable (SetFailFast b rm)
| reach_clear rm : reachable rm → reachable (Clear rm)
| reach_execute rm (w : W) ret rm' st :
    reachable rm → Execute rm w = Some (ret, rm', st) → reachable rm'.

(** [dependencies] is the reverse index of the [DependsOn] lists: [x] is
    listed under [d] exactly when the operation at [x] depends on [d]. *)
Definition indexInv rm : Prop :=
  ∀ (x : nat) (d : Z),
    (∃ op, operations rm !! x = Some op ∧ d ∈ DependsOn op)
    ↔ (∃ l, dependencies rm !! d = Some l ∧ Z.of_nat x ∈ l).

(** The world after the calls [tr], made in this order from [w]. *)
Fixpoint replay ops (tr : list (nat * option error)) (w : W) : W :=
  match tr with
  | [] => w
  | ev :: rest =>
      match ops !! ev.1 with
      | Some op => replay ops rest (Action op w).2
      | None => replay ops rest w
      end
  end.

(** Each call of [tr] returned what the action returns in the world the
    earlier calls left. *)
Fixpoint faithful ops (tr : list (nat * option error)) (w : W) : Prop :=
  match tr with
  | [] => True
  | ev :: rest =>
      match ops !! ev.1 with
      | Some op => (Action op w).1 = ev.2 ∧ faithful ops rest (Action op w).2
      | None => False
      end
  end.

(** No call of [tr] comes after a failed call of an operation that the
    called one depends on. *)
Definition neverAfterFailure ops (tr : list (nat * option error)) : Prop :=
  ∀ (k k' x y : nat) r e op,
    tr !! k = Some (x, r) → ops !! x = Some op →
    tr !! k' = Some (y, Some e) → (k' < k)%nat →
    Z.of_nat y ∉ DependsOn op.

(** The manager with the mark of an explicit [SetFailFast] removed. *)
Definition asDefault rm : RollbackManager (W:=W) :=
  {| operations := operations rm;
     dependencies := dependencies rm;
     failFast := failFast rm;
     failFastExplicitlySet := false;
     lastError := lastError rm |}.

End More.

End RollbackMore.

(** ** Vocabulary of further properties of the lock manager *)

Module LockMore.

Import Lock LockSpec.

(** No handle is tracked under two keys. *)
Definition tracked_once (lm : LockManager) : Prop :=
  ∀ k1 k2 a, locks lm !! k1 = Some a → locks lm !! k2 = Some a → k1 = k2.

(** The path of the lock file of a kind and a target. *)
Definition lockFileOf (env : Env) (lm : LockManager)
  (lockType targetPath : string) : string :=
  filepath_Join env (lockDir lm)
    (generateLockKey lockType targetPath +:+ ".lock").

(** No I/O fault is raised on the path. *)
Definition fault_free (env : Env) (path : string) : Prop :=
  ∀ op, fault env op path = None.

(** The manager does not hold an acquired lock under the key. *)
Definition not_held (lm : LockManager) (m : Machine) (key : string) : Prop :=
  ∀ a ol, locks lm !! key = Some a → heap m !! a = Some ol →
          acquired ol = false.

(** The process with this PID is alive for the probe of the platform. *)
Definition alive (env : Env) (pid : Z) : bool :=
  if windows env then processExistsWindows env pid
  else processExistsUnix env pid.

(** A tracked handle points to an object whose lock file is the one of the
    key it is tracked under. *)
Definition tracked_at_key (env : Env) (lm : LockManager) (m : Machine)
  : Prop :=
  ∀ key a, locks lm !! key = Some a →
    ∃ ol, heap m !! a = Some ol
          ∧ lockPath ol = filepath_Join env (lockDir lm) (key +:+ ".lock").

(** The states of a manager and its machine that the exported functions
    produce, together with the calls of [Release] that a caller makes on a
    handle and with what happens to the files and the clock in between. *)
Inductive reachable (env : Env) : LockManager → Machine → Prop :=
| reach_new m lm m' :
    NewLockManager env m = (inl lm, m') → reachable env lm m'
| reach_acquire lockType targetPath t lm m r lm' m' :
    reachable env lm m →
    AcquireLock env lockType targetPath t lm m = Some (r, lm', m') →
    reachable env lm' m'
| reach_release lock lm m err lm' m' :
    reachable env lm m →
    ReleaseLock env lock lm m = (err, lm', m') →
    reachable env lm' m'
| reach_releaseAll lm m err lm' m' :
    reachable env lm m →
    ReleaseAll env lm m = (err, lm', m') →
    reachable env lm' m'
| reach_Release a lm m err m' :
    reachable env lm m →
    ReleaseAt env a m = (err, m') →
    reachable env lm m'
| reach_world lm m m' :
    reachable env lm m → frame m m' → reachable env lm m'.

(** Every tracked lock of the manager is released in the machine. *)
Definition all_released (lm : LockManager) (m : Machine) : Prop :=
  ∀ key a ol, locks lm !! key = Some a → heap m !! a = Some ol →
              acquired ol = false.

End LockMore.

(** ** Further ledgers and lock files *)

Module MoreScenarios.

Import Rollback Mock Scenarios.

(** A worktree whose cleanup is made to depend on an operation that was
    never appended, run without fail-fast. *)
Definition danglingDependency : manager :=
  SetFailFast false
    (addDependency 0 7
       (AddWorktreeCleanup "/worktree" NewRollbackManager).2).

(** [TestRollbackManager_NonCriticalFailure] with an explicit fail-fast:
    a worktree, then a branch whose deletion fails. *)
Definition explicitWorktreeThenBranch : manager :=
  SetFailFast true worktreeThenBranch.

(** [TestRollbackManager_Execute] without fail-fast. *)
Definition threeWithoutFailFast : manager :=
  SetFailFast false threeCleanups.

End MoreScenarios.

Module LockMoreTest.

Import Lock LockTest LockMore.

(** The lock file of [("create", "/repo/A")] in the directory of the
    manager. *)
Definition lockFileA : string := lockFileOf env manager0 "create" "/repo/A".

(** The machine with this lock file left behind by a process that wrote no
    PID that parses. *)
Definition staleMachine : Machine :=
  setFiles (<[lockFileA := garbledRecord]> (files machine0)) machine0.

(** The record of a lock of the live process [thisPid], taken by another
    manager. *)
Definition holderRecord : string := lockRecord env someLock 0.

Definition heldMachine : Machine :=
  setFiles (<[lockFileA := holderRecord]> (files machine0)) machine0.

End LockMoreTest.

Module RollbackProofs.

Import Rollback RollbackSpec.

Section Proofs.

Context {W : Type}.

Implicit Types (rm : RollbackManager (W:=W)) (st : ExecState (W:=W)).
Implicit Types (op : RollbackOperation (W:=W)).
Implicit Types (ops : list (RollbackOperation (W:=W))).

(** *** The loop bodies *)

Lemma phase1_body_visit i op st :
  ∃ st', phase1_body false i op st = Continue st'
         ∧ visit (inPhase1 op st) i op st st'.
Proof.
  unfold phase1_body, visit, inPhase1.
  destruct (Critical op); simpl; [| eauto 6].
  destruct (shouldSkipOperation op (failed st)) eqn:Hskip; [eauto 6 |].
  unfold callAction. destruct (Action op (world st)) as [[err|] w'] eqn:Hact.
  - eexists; split; [reflexivity |]. right. repeat split.
    exists (Some err), w'. simpl. auto 10.
  - eexists; split; [reflexivity |]. right. repeat split.
    exists None, w'. simpl. auto 10.
Qed.

Lemma phase2_body_visit i op st :
  visit (inPhase2 op st) i op st (phase2_body i op st).
Proof.
  unfold phase2_body, visit, inPhase2.
  destruct (Critical op || bool_decide (ID op ∈ executed st)); simpl;
    [auto |].
  destruct (shouldSkipOperation op (failed st)) eqn:Hskip; [auto |].
  unfold callAction. destruct (Action op (world st)) as [[err|] w'] eqn:Hact.
  - right. repeat split. exists (Some err), w'. simpl. auto 10.
  - right. repeat split. exists None, w'. simpl. auto 10.
Qed.

Lemma visit_cases g i op st st' :
  visit g i op st st' → st' = st ∨ attempted i op st st'.
Proof. intros [[-> _] | (_ & _ & H)]; auto. Qed.

(** *** What an attempt preserves *)

Lemma attempted_trace i op st st' :
  attempted i op st st' → ∃ r, trace st' = trace st ++ [(i, r)].
Proof. intros (r & w' & _ & _ & Ht & _). eauto. Qed.

Lemma attempted_failed_mono i op st st' :
  attempted i op st st' → failed st ⊆ failed st'.
Proof.
  intros (r & w' & _ & _ & _ & H).
  destruct r; [destruct H as (_ & -> & _) | destruct H as (_ & -> & _)];
    set_solver.
Qed.

Lemma attempted_executed_mono i op st st' :
  attempted i op st st' → executed st ⊆ executed st'.
Proof.
  intros (r & w' & _ & _ & _ & H).
  destruct r; [destruct H as (_ & _ & -> & _) | destruct H as (_ & _ & -> & _)];
    set_solver.
Qed.

Lemma attempted_lastInv init i op st st' :
  attempted i op st st' → lastInv init st → lastInv init st'.
Proof.
  unfold lastInv. intros (r & w' & _ & _ & _ & H) Hinv.
  destruct r.
  - destruct H as (-> & _ & _ & ->). by rewrite last_snoc.
  - destruct H as (-> & _ & _ & ->). done.
Qed.

Lemma attempted_errors_prefix i op st st' :
  attempted i op st st' → errors st `prefix_of` errors st'.
Proof.
  intros (r & w' & _ & _ & _ & H).
  destruct r; [destruct H as (-> & _) | destruct H as (-> & _)].
  - by apply prefix_app_r.
  - done.
Qed.

(** *** The phase loops as [descend] *)

Lemma phase1_default_descend ops n st :
  (n ≤ length ops)%nat →
  ∃ st', phase1_loop false ops n st = Continue st'
         ∧ descend ops inPhase1 n st st'.
Proof.
  revert st. induction n as [|i IH]; intros st Hn; simpl.
  - eexists; split; [done | constructor].
  - destruct (lookup_lt_is_Some_2 ops i) as [op Hop]; [lia |].
    rewrite Hop.
    destruct (phase1_body_visit i op st) as (st1 & -> & Hv).
    destruct (IH st1) as (st' & -> & Hd); [lia |].
    eexists; split; [done |]. econstructor; eauto.
Qed.

Lemma phase2_descend ops n st :
  (n ≤ length ops)%nat →
  descend ops inPhase2 n st (phase2_loop ops n st).
Proof.
  revert st. induction n as [|i IH]; intros st Hn; simpl.
  - constructor.
  - destruct (lookup_lt_is_Some_2 ops i) as [op Hop]; [lia |].
    rewrite Hop. econstructor; eauto using phase2_body_visit.
    apply IH. lia.
Qed.

Lemma descend_preserves (I : ExecState (W:=W) → Prop) ops g n st st' :
  (∀ i op s s', ops !! i = Some op → attempted i op s s' → I s → I s') →
  descend ops g n st st' → I st → I st'.
Proof.
  intros Hatt. induction 1 as [|i op st st1 st' Hop Hv Hd IH]; [done |].
  intros HI. apply IH.
  destruct (visit_cases _ _ _ _ _ Hv) as [-> | Ha]; eauto.
Qed.

(** *** One pass of the dependency loop *)

Lemma pass_body_cases ops ps i :
  (pass_body ops ps i = ps
   ∧ (ops !! i = None
      ∨ ∃ op, ops !! i = Some op
              ∧ shouldSkipOperation op (failed (ps_state ps)) = true))
  ∨ (∃ op, ops !! i = Some op
       ∧ shouldSkipOperation op (failed (ps_state ps)) = false
       ∧ canExecute op (ps_state ps) = true
       ∧ attempted i op (ps_state ps) (ps_state (pass_body ops ps i))
       ∧ ps_progress (pass_body ops ps i) = true
       ∧ ps_newRemaining (pass_body ops ps i) = ps_newRemaining ps)
  ∨ (∃ op, ops !! i = Some op
       ∧ shouldSkipOperation op (failed (ps_state ps)) = false
       ∧ canExecute op (ps_state ps) = false
       ∧ ps_state (pass_body ops ps i) = ps_state ps
       ∧ ps_progress (pass_body ops ps i) = ps_progress ps
       ∧ ps_newRemaining (pass_body ops ps i) = ps_newRemaining ps ++ [i]).
Proof.
  unfold pass_body. destruct (ops !! i) as [op|] eqn:Hop; [| by left; auto].
  destruct (shouldSkipOperation op (failed (ps_state ps))) eqn:Hskip;
    [left; eauto |].
  destruct (canExecute op (ps_state ps)) eqn:Hcan.
  - right; left. exists op. repeat split; try done. simpl.
    unfold callAction.
    destruct (Action op (world (ps_state ps))) as [[err|] w'] eqn:Hact.
    + exists (Some err), w'. simpl. auto 10.
    + exists None, w'. simpl. auto 10.
  - right; right. exists op. by repeat split.
Qed.

Lemma fold_pass_preserves (I : ExecState (W:=W) → Prop) ops remaining ps :
  (∀ i op s s', ops !! i = Some op → attempted i op s s' → I s → I s') →
  I (ps_state ps) →
  I (ps_state (fold_left (pass_body ops) remaining ps)).
Proof.
  intros Hatt. revert ps.
  induction remaining as [|i rest IH]; intros ps HI; simpl; [done |].
  apply IH.
  destruct (pass_body_cases ops ps i)
    as [[-> _] | [(op & ? & _ & _ & Ha & _) | (op & _ & _ & _ & -> & _)]];
    eauto.
Qed.

Lemma fold_pass_length ops remaining ps :
  let ps' := fold_left (pass_body ops) remaining ps in
  (length (ps_newRemaining ps')
     ≤ length (ps_newRemaining ps) + length remaining)%nat
  ∧ (ps_progress ps' = true →
     ps_progress ps = false →
     length (ps_newRemaining ps')
       < length (ps_newRemaining ps) + length remaining)%nat.
Proof.
  revert ps. induction remaining as [|i rest IH]; intros ps; simpl.
  - split; [lia | congruence].
  - destruct (IH (pass_body ops ps i)) as [IH1 IH2].
    destruct (pass_body_cases ops ps i)
      as [[Heq _] | [(op & _ & _ & _ & _ & Hp & Hr)
                   | (op & _ & _ & _ & _ & Hp & Hr)]].
    + rewrite Heq in *. split; [lia |]. intros. lia.
    + rewrite Hr in *. split; [lia |]. intros. lia.
    + rewrite Hr, Hp, length_app in *. simpl in *.
      split; [lia |]. intros H1 H2. specialize (IH2 H1 H2). lia.
Qed.

Lemma dependency_loop_total fuel ops remaining st :
  (length remaining < fuel)%nat →
  ∃ st', dependency_loop fuel ops remaining st = Some st'.
Proof.
  revert remaining st. induction fuel as [|fuel IH]; intros remaining st Hlt;
    [lia |].
  destruct remaining as [|i rest]; [by eexists |].
  cbn [dependency_loop].
  set (ps := pass ops (i :: rest) st).
  destruct (negb (ps_progress ps) && (0 <? length (ps_newRemaining ps))%nat)
    eqn:Hstop; [by eexists |].
  apply IH.
  destruct (fold_pass_length ops (i :: rest)
              {| ps_state := st; ps_progress := false;
                 ps_newRemaining := [] |}) as [Hle Hprog].
  fold (pass ops (i :: rest) st) in Hle, Hprog. fold ps in Hle, Hprog.
  simpl in Hle, Hprog, Hlt.
  apply andb_false_iff in Hstop as [Hp | Hz].
  - apply negb_false_iff in Hp. specialize (Hprog Hp eq_refl). lia.
  - apply Nat.ltb_ge in Hz. lia.
Qed.

(** [Execute] always returns. *)
Lemma Execute_total rm (w : W) : ∃ r, Execute rm w = Some r.
Proof.
  unfold Execute.
  destruct (length (operations rm) =? 0)%nat; [by eexists |].
  destruct (failFast rm).
  - destruct (phase1_loop _ _ _ _); [| by eexists].
    destruct (negb _ || _); by eexists.
  - destruct (dependency_loop_total (S (length (operations rm)))
                (operations rm) (seq 0 (length (operations rm)))
                (initState rm w)) as [st' ->]; [| by eexists].
    rewrite length_seq. lia.
Qed.

(** *** Phase 1 when the caller has set fail-fast *)

Lemma phase1_body_explicit i op st :
  phase1_body true i op st = Continue st
  ∨ (∃ st', phase1_body true i op st = Continue st'
       ∧ Critical op = true
       ∧ trace st' = trace st ++ [(i, None)]
       ∧ errors st' = errors st ∧ failed st' = failed st
       ∧ lastErr st' = lastErr st)
  ∨ (∃ st' err, phase1_body true i op st = Return (criticalFailure op err) st'
       ∧ Critical op = true
       ∧ trace st' = trace st ++ [(i, Some err)]
       ∧ errors st' = errors st
       ∧ lastErr st' = Some (Errorf_wrap (Description op) err)).
Proof.
  unfold phase1_body.
  destruct (Critical op); simpl; [| by left].
  destruct (shouldSkipOperation op (failed st)); [by left |].
  unfold callAction. destruct (Action op (world st)) as [[err|] w'].
  - right; right. eexists _, err. by repeat split.
  - right; left. eexists. by repeat split.
Qed.

Lemma phase1_explicit_spec ops n st :
  (n ≤ length ops)%nat →
  match phase1_loop true ops n st with
  | Continue st' =>
      errors st' = errors st ∧ failed st' = failed st
      ∧ lastErr st' = lastErr st
      ∧ ∃ tr, trace st' = trace st ++ tr
              ∧ Forall (λ ev, ev.2 = None ∧ (ev.1 < n)%nat
                              ∧ criticalAt ops ev.1) tr
  | Return e st' =>
      ∃ i op err tr,
        (i < n)%nat ∧ ops !! i = Some op ∧ Critical op = true
        ∧ e = criticalFailure op err
        ∧ errors st' = errors st
        ∧ lastErr st' = Some (Errorf_wrap (Description op) err)
        ∧ trace st' = trace st ++ tr ++ [(i, Some err)]
        ∧ Forall (λ ev, ev.2 = None ∧ (i < ev.1 < n)%nat
                        ∧ criticalAt ops ev.1) tr
  end.
Proof.
  revert st. induction n as [|i IH]; intros st Hn; simpl.
  - repeat split. exists []. by rewrite app_nil_r.
  - destruct (lookup_lt_is_Some_2 ops i) as [op Hop]; [lia |].
    rewrite Hop.
    destruct (phase1_body_explicit i op st)
      as [-> | [(st1 & -> & Hc & Ht & He & Hf & Hl)
              | (st1 & err & -> & Hc & Ht & He & Hl)]].
    + specialize (IH st ltac:(lia)).
      destruct (phase1_loop true ops i st) as [st'|e st'].
      * destruct IH as (? & ? & ? & tr & ? & Htr). repeat split; try done.
        exists tr. split; [done |].
        eapply Forall_impl; [exact Htr |]. intros ev (? & ? & ?).
        repeat split; try done; lia.
      * destruct IH as (j & opj & err & tr & ? & ? & ? & ? & ? & ? & ? & Htr).
        exists j, opj, err, tr. repeat split; try done; [lia |].
        eapply Forall_impl; [exact Htr |]. intros ev (? & ? & ?).
        repeat split; try done; lia.
    + specialize (IH st1 ltac:(lia)).
      destruct (phase1_loop true ops i st1) as [st'|e st'].
      * destruct IH as (He' & Hf' & Hl' & tr & Ht' & Htr).
        repeat split; try congruence.
        exists ((i, None) :: tr). split.
        { rewrite Ht', Ht, <- app_assoc. done. }
        constructor.
        { repeat split; simpl; [lia | by exists op]. }
        eapply Forall_impl; [exact Htr |]. intros ev (? & ? & ?).
        repeat split; try done; lia.
      * destruct IH
          as (j & opj & err & tr & ? & ? & ? & ? & He' & ? & Ht' & Htr).
        exists j, opj, err, ((i, None) :: tr).
        repeat split; try done; try congruence; [lia | |].
        { rewrite Ht', Ht, <- !app_assoc. done. }
        constructor.
        { repeat split; simpl; [lia | lia | by exists op]. }
        eapply Forall_impl; [exact Htr |]. intros ev (? & ? & ?).
        repeat split; try done; lia.
    + exists i, op, err, []. repeat split; try done. lia.
Qed.

(** *** The events a phase adds *)

Lemma descend_trace ops g n st st' :
  descend ops g n st st' →
  ∃ tr, trace st' = trace st ++ tr
        ∧ Forall (λ ev, (ev.1 < n)%nat
                        ∧ ∃ op s, ops !! ev.1 = Some op ∧ g op s = true) tr.
Proof.
  induction 1 as [st|i op st st1 st' Hop Hv Hd IH].
  - exists []. by rewrite app_nil_r.
  - destruct IH as (tr & Ht & Htr).
    assert (Forall (λ ev, (ev.1 < S i)%nat
              ∧ ∃ op s, ops !! ev.1 = Some op ∧ g op s = true) tr) as Htr'.
    { eapply Forall_impl; [exact Htr |]. intros ev [? ?]. split; [lia | done]. }
    destruct Hv as [[-> _] | (Hg & _ & r & w' & _ & _ & Ht1 & _)].
    + by exists tr.
    + exists ((i, r) :: tr). split.
      { rewrite Ht, Ht1, <- app_assoc. done. }
      constructor; [| done]. simpl. split; [lia |]. by exists op, st.
Qed.

(** *** The locals as functions of the calls made *)

Lemma shouldSkip_true op (failed : gset Z) :
  shouldSkipOperation op failed = true
  ↔ ∃ d, d ∈ DependsOn op ∧ d ∈ failed.
Proof.
  unfold shouldSkipOperation. rewrite existsb_exists. split.
  - intros (d & Hin & Hd). exists d. split; [by apply list_elem_of_In |].
    by apply bool_decide_eq_true in Hd.
  - intros (d & Hin & Hd). exists d. split; [by apply list_elem_of_In |].
    by apply bool_decide_eq_true.
Qed.

Lemma shouldSkip_empty op (failed : gset Z) :
  failed = ∅ → shouldSkipOperation op failed = false.
Proof.
  intros ->. apply not_true_is_false. rewrite shouldSkip_true.
  intros (d & _ & Hd). set_solver.
Qed.

Lemma attempted_failedInv ops i op st st' :
  wf_ledger ops → ops !! i = Some op →
  attempted i op st st' → failedInv st → failedInv st'.
Proof.
  unfold failedInv.
  intros Hwf Hop (r & w' & _ & _ & Ht & H) Hinv d. rewrite Ht.
  setoid_rewrite elem_of_app. setoid_rewrite list_elem_of_singleton.
  rewrite (Hwf _ _ Hop) in H.
  destruct r as [err|].
  - destruct H as (_ & -> & _).
    rewrite elem_of_union, elem_of_singleton, Hinv. split.
    + intros [-> | (j & e & Hin & ->)]; [exists i, err | exists j, e]; auto.
    + intros (j & e & [Hin | [= -> ->]] & ->); [right; eauto | by left].
  - destruct H as (_ & -> & _). rewrite Hinv. split.
    + intros (j & e & Hin & ->). eauto.
    + intros (j & e & [Hin | [=]] & ->). eauto.
Qed.

Lemma attempted_executedInv ops i op st st' :
  wf_ledger ops → ops !! i = Some op →
  attempted i op st st' → executedInv st → executedInv st'.
Proof.
  unfold executedInv.
  intros Hwf Hop (r & w' & _ & _ & Ht & H) Hinv d. rewrite Ht.
  setoid_rewrite elem_of_app. setoid_rewrite list_elem_of_singleton.
  rewrite (Hwf _ _ Hop) in H.
  destruct r as [err|].
  - destruct H as (_ & _ & -> & _). rewrite Hinv. split.
    + intros (j & Hin & ->). eauto.
    + intros (j & [Hin | [=]] & ->). eauto.
  - destruct H as (_ & _ & -> & _).
    rewrite elem_of_union, elem_of_singleton, Hinv. split.
    + intros [-> | (j & Hin & ->)]; [exists i | exists j]; auto.
    + intros (j & [Hin | [= ->]] & ->); [right; eauto | by left].
Qed.

Lemma trace_errors_app ops tr1 tr2 :
  trace_errors ops (tr1 ++ tr2) = trace_errors ops tr1 ++ trace_errors ops tr2.
Proof. apply omap_app. Qed.

Lemma attempted_errorsInv ops i op st st' :
  ops !! i = Some op → attempted i op st st' →
  errors st = trace_errors ops (trace st) →
  errors st' = trace_errors ops (trace st').
Proof.
  intros Hop (r & w' & _ & _ & Ht & H) Hinv.
  rewrite Ht, trace_errors_app. unfold trace_errors at 2. simpl. rewrite Hop.
  destruct r as [err|].
  - destruct H as (-> & _). by rewrite Hinv.
  - destruct H as (-> & _). by rewrite Hinv, app_nil_r.
Qed.

Lemma attempted_errors_failed i op st st' :
  attempted i op st st' →
  (errors st = [] → failed st = ∅) → errors st' = [] → failed st' = ∅.
Proof.
  intros (r & w' & _ & _ & _ & H) Hinv.
  destruct r as [err|].
  - destruct H as (-> & _). intros [_ ?]%app_eq_nil. done.
  - destruct H as (-> & -> & _). done.
Qed.

(** *** Monotonicity along a phase *)

Lemma descend_failed_mono ops g n st st' :
  descend ops g n st st' → failed st ⊆ failed st'.
Proof.
  intros Hd.
  apply (descend_preserves (λ s, failed st ⊆ failed s) _ _ _ _ _
           ltac:(intros ? ? ? ? _ ?%attempted_failed_mono; set_solver) Hd).
  done.
Qed.

Lemma descend_trace_mono ops g n st st' ev :
  descend ops g n st st' → ev ∈ trace st → ev ∈ trace st'.
Proof.
  intros (tr & -> & _)%descend_trace Hin. apply elem_of_app. by left.
Qed.

Lemma descend_new_events ops g n st st' j r :
  descend ops g n st st' → (j, r) ∈ trace st' →
  (j, r) ∈ trace st
  ∨ ((j < n)%nat ∧ ∃ op s, ops !! j = Some op ∧ g op s = true).
Proof.
  intros (tr & -> & Htr)%descend_trace [Hin | Hin]%elem_of_app; [by left |].
  right. rewrite Forall_forall in Htr. apply (Htr _ Hin).
Qed.

(** An operation one of whose dependencies has already failed is not
    called by the phase. *)
Lemma descend_not_invoked ops g n st st' x (opx : RollbackOperation (W:=W)) d :
  descend ops g n st st' →
  ops !! x = Some opx → d ∈ DependsOn opx → d ∈ failed st →
  (∀ r, (x, r) ∉ trace st) → ∀ r, (x, r) ∉ trace st'.
Proof.
  intros Hd Hx Hdep. induction Hd as [|i op st st1 st' Hop Hv Hd IH];
    [done |].
  intros Hf Hno. apply IH.
  - destruct (visit_cases _ _ _ _ _ Hv) as [-> | Ha]; [done |].
    by apply (attempted_failed_mono _ _ _ _ Ha).
  - destruct Hv as [[-> _] | (_ & Hskip & r0 & w' & _ & _ & Ht & _)];
      [done |].
    intros r. rewrite Ht. intros [Hin | Hin]%elem_of_app; [by eapply Hno |].
    apply list_elem_of_singleton in Hin. injection Hin as -> ->.
    rewrite Hop in Hx. injection Hx as ->.
    apply not_true_iff_false in Hskip. apply Hskip, shouldSkip_true. eauto.
Qed.

(** Every operation of the phase's class is called, unless one of its
    dependencies has failed. *)
Lemma descend_attempts_all ops c n st st' i op :
  descend ops (ofClass c) n st st' →
  (i < n)%nat → ops !! i = Some op → Critical op = c →
  (∃ r, (i, r) ∈ trace st')
  ∨ (∃ d, d ∈ DependsOn op ∧ d ∈ failed st').
Proof.
  intros Hd. revert i op.
  induction Hd as [|i0 op0 st st1 st' Hop0 Hv Hd IH]; intros i op Hlt Hop Hc;
    [lia |].
  destruct (decide (i = i0)) as [-> |]; [| apply IH; [lia | done..]].
  rewrite Hop0 in Hop. injection Hop as ->.
  destruct Hv as [[-> [Hg | Hskip]] | (_ & _ & r & w' & _ & _ & Ht & _)].
  - unfold ofClass in Hg. rewrite Hc in Hg. by destruct c.
  - right. apply shouldSkip_true in Hskip as (d & ? & ?).
    exists d. split; [done |]. by apply (descend_failed_mono _ _ _ _ _ Hd).
  - left. exists r. apply (descend_trace_mono _ _ _ _ _ _ Hd).
    rewrite Ht. apply elem_of_app. right. by apply list_elem_of_singleton.
Qed.

(** When nothing fails, the phase calls the operations of its class, all of
    them, highest index first. *)
Lemma descend_order ops c n st st' :
  descend ops (ofClass c) n st st' →
  failed st' = ∅ →
  trace st' = trace st ++ map (λ i, (i, None)) (indices_desc ops c n).
Proof.
  induction 1 as [st|i op st st1 st' Hop Hv Hd IH]; intros Hempty.
  - by rewrite app_nil_r.
  - pose proof (descend_failed_mono _ _ _ _ _ Hd) as Hmono.
    assert (failed st1 = ∅) as Hst1 by set_solver.
    rewrite (IH Hempty). simpl. rewrite Hop.
    destruct Hv as [[-> [Hg | Hskip]] | (Hg & _ & r & w' & _ & _ & Ht & H)].
    + unfold ofClass in Hg. by rewrite Hg.
    + by rewrite shouldSkip_empty in Hskip.
    + unfold ofClass in Hg. rewrite Hg, Ht, <- app_assoc. simpl.
      destruct r as [err|]; [| done].
      destruct H as (_ & Hf & _). exfalso.
      apply (not_elem_of_empty (C:=gset Z) (ID op)).
      rewrite <- Hst1, Hf. by apply elem_of_union_l, elem_of_singleton.
Qed.

(** If [x] depends on [y], both are visited by the phase and [y] comes
    first, then the phase does not both see [y]'s call fail and call [x]. *)
Lemma descend_dependency ops g n st st' x y
  (opx opy : RollbackOperation (W:=W)) :
  wf_ledger ops →
  descend ops g n st st' →
  ops !! x = Some opx → ops !! y = Some opy →
  Z.of_nat y ∈ DependsOn opx →
  (x < y < n)%nat →
  (∀ r, (x, r) ∉ trace st) → (∀ e, (y, Some e) ∉ trace st) →
  (∀ e, (y, Some e) ∉ trace st') ∨ (∀ r, (x, r) ∉ trace st').
Proof.
  intros Hwf Hd Hx Hy Hdep.
  induction Hd as [|i op st st1 st' Hop Hv Hd IH]; intros Hlt Hnox Hnoy;
    [lia |].
  destruct (decide (i = y)) as [-> |].
  - rewrite Hy in Hop. injection Hop as <-.
    assert ((∀ e, (y, Some e) ∉ trace st1)
            ∨ Z.of_nat y ∈ failed st1 ∧ ∀ r, (x, r) ∉ trace st1)
      as [Hok | [Hfailed Hnox1]].
    { destruct Hv as [[-> _] | (_ & _ & r & w' & _ & _ & Ht & H)];
        [by left |].
      destruct r as [err|].
      - right. destruct H as (_ & -> & _). rewrite (Hwf _ _ Hy).
        split; [by apply elem_of_union_l, elem_of_singleton |].
        intros r. rewrite Ht.
        intros [Hin | Hin]%elem_of_app; [by eapply Hnox |].
        apply list_elem_of_singleton in Hin. injection Hin as -> ->. lia.
      - left. intros e. rewrite Ht.
        intros [Hin | Hin]%elem_of_app; [by eapply Hnoy |].
        by apply list_elem_of_singleton in Hin. }
    + left. intros e Hin.
      destruct (descend_new_events _ _ _ _ _ _ _ Hd Hin) as [? | [? _]];
        [by eapply Hok | lia].
    + right. eapply descend_not_invoked; eauto.
  - apply IH; [lia | |].
    + destruct Hv as [[-> _] | (_ & _ & r & w' & _ & _ & Ht & _)]; [done |].
      intros r0. rewrite Ht. intros [Hin | Hin]%elem_of_app;
        [by eapply Hnox |].
      apply list_elem_of_singleton in Hin. injection Hin as -> ->. lia.
    + destruct Hv as [[-> _] | (_ & _ & r & w' & _ & _ & Ht & _)]; [done |].
      intros e. rewrite Ht. intros [Hin | Hin]%elem_of_app;
        [by eapply Hnoy |].
      apply list_elem_of_singleton in Hin. injection Hin as ? ?. lia.
Qed.

(** *** The two phases by class *)

Lemma descend_ext ops g g' n st st' :
  (∀ op s, g op s = g' op s) →
  descend ops g n st st' → descend ops g' n st st'.
Proof.
  intros Hext. induction 1; econstructor; eauto. by rewrite <- Hext.
Qed.

Lemma phase1_ofClass ops n st st' :
  descend ops inPhase1 n st st' → descend ops (ofClass true) n st st'.
Proof.
  apply descend_ext. intros op s. unfold inPhase1, ofClass.
  by destruct (Critical op).
Qed.

(** In a ledger whose IDs are positions, the test [executed[op.ID]] of
    phase 2 never fires: phase 2 visits the non-critical operations. *)
Lemma phase2_ofClass ops n st st' :
  wf_ledger ops →
  executedInv st →
  (∀ j r, (j, r) ∈ trace st → criticalAt ops j ∨ (n ≤ j)%nat) →
  descend ops inPhase2 n st st' → descend ops (ofClass false) n st st'.
Proof.
  intros Hwf Hinv Htr Hd. induction Hd as [|i op st st1 st' Hop Hv Hd IH];
    [constructor |].
  assert (inPhase2 op st = ofClass false op st) as Hg.
  { unfold inPhase2, ofClass. destruct (Critical op) eqn:Hc; [done |].
    simpl. rewrite bool_decide_eq_false_2; [done |].
    rewrite (Hwf _ _ Hop). intros (j & Hin & Hj)%Hinv.
    apply Nat2Z.inj in Hj as <-.
    destruct (Htr _ _ Hin) as [(op' & Hop' & Hc') | ?]; [| lia].
    congruence. }
  econstructor; [done | by rewrite <- Hg |].
  apply IH.
  - destruct (visit_cases _ _ _ _ _ Hv) as [-> | Ha]; [done |].
    eapply attempted_executedInv; eauto.
  - destruct Hv as [[-> _] | (_ & _ & r & w' & _ & _ & Ht & _)].
    + intros j r Hin. destruct (Htr _ _ Hin); [by left | right; lia].
    + intros j r0. rewrite Ht. intros [Hin | Hin]%elem_of_app.
      * destruct (Htr _ _ Hin); [by left | right; lia].
      * apply list_elem_of_singleton in Hin. injection Hin as -> ->.
        right. lia.
Qed.

Lemma finish_lastError rm st ret rm' st' :
  finish rm st = (ret, rm', st') →
  st' = st ∧ operations rm' = [] ∧ dependencies rm' = ∅
  ∧ lastError rm' = lastErr st
  ∧ (errors st = [] → ret = None)
  ∧ (errors st ≠ [] → ret = Some (aggregateError (errors st))).
Proof.
  unfold finish. destruct (errors st) as [|e es] eqn:He; simpl;
    intros [= <- <- <-]; by repeat split.
Qed.

(** *** [Execute] in the default mode *)

Lemma initState_coherent ops rm (w : W) : coherent ops (initState rm w).
Proof.
  split; [| split; [| split]]; try done.
  - intros d. simpl. split; [set_solver |].
    intros (j & e & ?%elem_of_nil & _). done.
  - intros d. simpl. split; [set_solver |].
    intros (j & ?%elem_of_nil & _). done.
Qed.

Lemma attempted_coherent ops i op st st' :
  wf_ledger ops → ops !! i = Some op →
  attempted i op st st' → coherent ops st → coherent ops st'.
Proof.
  intros Hwf Hop Ha (H1 & H2 & H3 & H4). split; [| split; [| split]].
  - eapply attempted_failedInv; eauto.
  - eapply attempted_executedInv; eauto.
  - eapply attempted_errorsInv; eauto.
  - eapply attempted_errors_failed; eauto.
Qed.

Lemma descend_coherent ops g n st st' :
  wf_ledger ops →
  descend ops g n st st' → coherent ops st → coherent ops st'.
Proof.
  intros Hwf. apply descend_preserves. intros i op s s' Hop.
  by apply attempted_coherent.
Qed.

Lemma Execute_default rm (w : W) :
  failFast rm = true → failFastExplicitlySet rm = false →
  wf_ledger (operations rm) → operations rm ≠ [] →
  ∃ st1 st2,
    descend (operations rm) (ofClass true) (length (operations rm))
            (initState rm w) st1
    ∧ descend (operations rm) (ofClass false) (length (operations rm))
              st1 st2
    ∧ coherent (operations rm) st1 ∧ coherent (operations rm) st2
    ∧ Execute rm w = Some (finish rm st2).
Proof.
  intros Hff Hexp Hwf Hne. unfold Execute. rewrite Hff, Hexp.
  destruct (length (operations rm) =? 0)%nat eqn:Hlen.
  { by apply Nat.eqb_eq, nil_length_inv in Hlen. }
  destruct (phase1_default_descend (operations rm) (length (operations rm))
              (initState rm w) (le_n _)) as (st1 & -> & Hd1).
  simpl.
  pose proof (phase2_descend (operations rm) (length (operations rm)) st1
                (le_n _)) as Hd2.
  assert (coherent (operations rm) st1) as Hc1.
  { eapply descend_coherent; eauto using initState_coherent. }
  exists st1, (phase2_loop (operations rm) (length (operations rm)) st1).
  split; [by apply phase1_ofClass |].
  split; [| split; [done | split; [| done]]].
  - apply phase2_ofClass; [done | apply Hc1 | | done].
    intros j r Hin.
    destruct (descend_new_events _ _ _ _ _ _ _ Hd1 Hin)
      as [?%elem_of_nil | (_ & op & s & Hop & Hg)]; [done |].
    left. by exists op.
  - eapply descend_coherent; eauto.
Qed.

Lemma ofClass_event ops c n st st' j r :
  descend ops (ofClass c) n st st' → (j, r) ∈ trace st' →
  (j, r) ∈ trace st ∨ ∃ op, ops !! j = Some op ∧ Critical op = c.
Proof.
  intros Hd Hin.
  destruct (descend_new_events _ _ _ _ _ _ _ Hd Hin)
    as [? | (_ & op & s & Hop & Hg)]; [by left |].
  right. exists op. split; [done |]. unfold ofClass in Hg.
  by apply eqb_prop in Hg.
Qed.

(** A call of the default mode that reports no error has called every
    operation once: the critical ones from the last appended to the first,
    then the others in the same way. *)
Lemma default_success_order rm (w : W) rm' st :
  failFast rm = true → failFastExplicitlySet rm = false →
  wf_ledger (operations rm) →
  Execute rm w = Some (None, rm', st) →
  trace st
  = map (λ i, (i, None))
        (indices_desc (operations rm) true (length (operations rm))
         ++ indices_desc (operations rm) false (length (operations rm))).
Proof.
  intros Hff Hexp Hwf Hex.
  destruct (decide (operations rm = [])) as [Hnil | Hne].
  { unfold Execute in Hex. rewrite Hnil in *. simpl in Hex.
    by injection Hex as <- <-. }
  destruct (Execute_default rm w Hff Hexp Hwf Hne)
    as (st1 & st2 & Hd1 & Hd2 & Hc1 & Hc2 & Heq).
  rewrite Heq in Hex. injection Hex as Hfin.
  apply finish_lastError in Hfin as (-> & _ & _ & _ & _ & Hcons).
  assert (errors st2 = []) as Herr.
  { destruct (errors st2) eqn:He; [done |]. by specialize (Hcons ltac:(done)). }
  assert (failed st2 = ∅) as Hf2 by by apply Hc2.
  assert (failed st1 = ∅) as Hf1.
  { pose proof (descend_failed_mono _ _ _ _ _ Hd2). set_solver. }
  rewrite (descend_order _ _ _ _ _ Hd2 Hf2), (descend_order _ _ _ _ _ Hd1 Hf1).
  by rewrite map_app.
Qed.

End Proofs.

(** *** Claims on the retained error, the dependency guard and the explicit
    fail-fast mode *)

Section Claims.

Context {W : Type}.

Implicit Types (rm : RollbackManager (W:=W)) (st : ExecState (W:=W)).
Implicit Types (op : RollbackOperation (W:=W)).

Lemma initState_lastInv rm (w : W) : lastInv (lastError rm) (initState rm w).
Proof. done. Qed.

Lemma constraint_body_lastInv init ops st i :
  lastInv init st → lastInv init (constraint_body ops st i).
Proof.
  unfold constraint_body, lastInv. destruct (ops !! i); [| done].
  simpl. intros _. by rewrite last_snoc.
Qed.

Lemma fold_constraint_lastInv init ops l st :
  lastInv init st → lastInv init (fold_left (constraint_body ops) l st).
Proof.
  revert st. induction l as [|i l IH]; intros st H; simpl; [done |].
  by apply IH, constraint_body_lastInv.
Qed.

Lemma dependency_loop_lastInv init fuel ops remaining st st' :
  dependency_loop fuel ops remaining st = Some st' →
  lastInv init st → lastInv init st'.
Proof.
  revert remaining st. induction fuel as [|fuel IH]; intros remaining st.
  - destruct remaining; simpl; [by intros [= ->] | done].
  - destruct remaining as [|i rest]; [by intros [= ->] |].
    cbn [dependency_loop].
    set (ps := pass ops (i :: rest) st).
    assert (lastInv init st → lastInv init (ps_state ps)) as Hps.
    { intros H. unfold ps, pass. apply fold_pass_preserves; [| done].
      intros ? ? ? ? _. apply attempted_lastInv. }
    destruct (negb (ps_progress ps) && _).
    + intros [= <-] H. by apply fold_constraint_lastInv, Hps.
    + intros Hloop H. eapply IH; [exact Hloop |]. by apply Hps.
Qed.


(** C8: clearing the ledger resets the operation list and the dependency
    index only.  After [Clear], and after [Execute] (which always returns and
    leaves the ledger empty), [GetLastError] gives the error recorded last:
    what it was before when the call recorded none, the last of the
    aggregated errors, or the wrapped error of the critical operation whose
    failure ended the call. *)
Theorem lastError_survives_clear rm (w : W) :
  (operations (clearOperations rm) = []
   ∧ dependencies (clearOperations rm) = ∅
   ∧ failFast (clearOperations rm) = failFast rm
   ∧ failFastExplicitlySet (clearOperations rm) = failFastExplicitlySet rm
   ∧ GetLastError (clearOperations rm) = GetLastError rm)
  ∧ GetLastError (Clear rm) = GetLastError rm
  ∧ ∃ ret rm' st,
      Execute rm w = Some (ret, rm', st)
      ∧ operations rm' = []
      ∧ GetLastError rm' = lastErr st
      ∧ GetLastError (Clear rm') = lastErr st
      ∧ match ret with
        | None => lastErr st = GetLastError rm
        | Some e =>
            (e = aggregateError (errors st)
             ∧ is_Some (lastErr st) ∧ lastErr st = last (errors st))
            ∨ (∃ op err, op ∈ operations rm
                 ∧ e = criticalFailure op err
                 ∧ lastErr st = Some (Errorf_wrap (Description op) err))
        end.
Proof.
  split; [done |]. split; [done |].
  assert (∀ st, lastInv (lastError rm) st →
            ∃ ret rm' st',
              finish rm st = (ret, rm', st')
              ∧ operations rm' = []
              ∧ GetLastError rm' = lastErr st'
              ∧ GetLastError (Clear rm') = lastErr st'
              ∧ match ret with
                | None => lastErr st' = GetLastError rm
                | Some e =>
                    (e = aggregateError (errors st')
                     ∧ is_Some (lastErr st')
                     ∧ lastErr st' = last (errors st'))
                    ∨ (∃ op err, op ∈ operations rm
                         ∧ e = criticalFailure op err
                         ∧ lastErr st'
                           = Some (Errorf_wrap (Description op) err))
                end) as Hfinish.
  { intros st Hinv. destruct (finish rm st) as [[ret rm'] st'] eqn:Hfin.
    apply finish_lastError in Hfin as (-> & Hops & _ & Hl & Hnil & Hcons).
    exists ret, rm', st. repeat split; try done.
    unfold lastInv in Hinv.
    destruct (errors st) as [|e es] eqn:He.
    - rewrite Hnil by done. by rewrite Hinv.
    - rewrite Hcons by done. left. split; [done |].
      rewrite Hinv. destruct (last (e :: es)) eqn:Hlast; [eauto |].
      by apply last_None in Hlast. }
  unfold Execute.
  destruct (length (operations rm) =? 0)%nat eqn:Hlen.
  { apply Nat.eqb_eq, nil_length_inv in Hlen.
    exists None, rm, (initState rm w). by repeat split. }
  destruct (failFast rm).
  - destruct (failFastExplicitlySet rm).
    + pose proof (phase1_explicit_spec (operations rm)
                    (length (operations rm)) (initState rm w) (le_n _)) as Hp1.
      destruct (phase1_loop true _ _ _) as [st1|e st1].
      * destruct Hp1 as (He & _ & Hl & _). simpl. rewrite He. simpl.
        destruct (Hfinish (phase2_loop (operations rm)
                             (length (operations rm)) st1))
          as (ret & rm' & st' & -> & ?); [| by eauto 10].
        eapply descend_preserves;
          [intros ? ? ? ? _; apply attempted_lastInv
          | apply phase2_descend; lia |].
        unfold lastInv. by rewrite He, Hl.
      * destruct Hp1 as (i & op & err & tr & _ & Hop & _ & -> & _ & Hl & _).
        eexists _, _, st1. split; [done |]. repeat split; try done.
        right. exists op, err. repeat split; try done.
        eapply list_elem_of_lookup_2, Hop.
    + destruct (phase1_default_descend (operations rm)
                  (length (operations rm)) (initState rm w) (le_n _))
        as (st1 & -> & Hd1). simpl.
      destruct (Hfinish (phase2_loop (operations rm)
                           (length (operations rm)) st1))
        as (ret & rm' & st' & -> & ?); [| by eauto 10].
      eapply descend_preserves;
        [intros ? ? ? ? _; apply attempted_lastInv
        | apply phase2_descend; lia |].
      eapply descend_preserves;
        [intros ? ? ? ? _; apply attempted_lastInv | exact Hd1
        | apply initState_lastInv].
  - destruct (dependency_loop_total (S (length (operations rm)))
                (operations rm) (seq 0 (length (operations rm)))
                (initState rm w)) as [st' Hloop].
    { rewrite length_seq. lia. }
    rewrite Hloop.
    destruct (Hfinish st') as (ret & rm' & st'' & -> & ?); [| by eauto 10].
    eapply dependency_loop_lastInv; [exact Hloop | apply initState_lastInv].
Qed.

(** C10: [AddDependency] with a dependent ID at or beyond the end of the
    ledger changes nothing and reports nothing, whatever the other ID is;
    and for a dependent ID inside the ledger the edge is recorded for every
    value of the other ID, which no guard restricts. *)
Theorem AddDependency_out_of_range rm (dependentID dependsOnID : Z) :
  Z.of_nat (length (operations rm)) ≤ dependentID →
  AddDependency dependentID dependsOnID rm = Some rm
  ∧ ∀ inRange : Z,
      0 ≤ inRange < Z.of_nat (length (operations rm)) →
      ∃ rm' op op',
        AddDependency inRange dependsOnID rm = Some rm'
        ∧ operations rm !! Z.to_nat inRange = Some op
        ∧ operations rm' !! Z.to_nat inRange = Some op'
        ∧ DependsOn op' = DependsOn op ++ [dependsOnID]
        ∧ ∃ dependents, dependencies rm' !! dependsOnID
                        = Some (dependents ++ [inRange]).
Proof.
  intros Hge. unfold AddDependency. split.
  - destruct (dependentID <? _) eqn:Hlt; [| done].
    apply Z.ltb_lt in Hlt. lia.
  - intros k [Hk0 Hk].
    destruct (k <? _) eqn:Hlt; [| apply Z.ltb_ge in Hlt; lia].
    destruct (k <? 0) eqn:Hneg; [apply Z.ltb_lt in Hneg; lia |].
    destruct (lookup_lt_is_Some_2 (operations rm) (Z.to_nat k)) as [op Hop];
      [lia |].
    eexists _, op, (addDependsOn dependsOnID op).
    split; [done |]. simpl. repeat split; [done | |].
    + by rewrite list_lookup_alter_eq, Hop.
    + eexists. by rewrite lookup_insert_eq.
Qed.



(** C4 (as amended): three operations appended in the order [A, B, C], a
    call of the default mode that reports no error.  The critical ones are
    called first, from the last appended to the first, then the others in
    the same way, each once and with success.  The calls are in the order
    [C, B, A] exactly when no critical operation was appended before a
    non-critical one. *)
Theorem lifo_order_within_classes rm (w : W) (A B C : RollbackOperation (W:=W))
  rm' st :
  operations rm = [A; B; C] →
  failFast rm = true →
  failFastExplicitlySet rm = false →
  wf_ledger (operations rm) →
  Execute rm w = Some (None, rm', st) →
  trace st
  = map (λ i, (i, None))
        (((if Critical C then [2] else [])
          ++ (if Critical B then [1] else [])
          ++ (if Critical A then [0] else []))
         ++ ((if Critical C then [] else [2])
             ++ (if Critical B then [] else [1])
             ++ (if Critical A then [] else [0])))%nat
  ∧ ((trace st).*1 = [2; 1; 0]%nat
     ↔ (Critical A = true → Critical B = true)
       ∧ (Critical B = true → Critical C = true)).
Proof.
  intros Hops Hff Hexp Hwf Hex.
  rewrite (default_success_order rm w rm' st Hff Hexp Hwf Hex), Hops.
  simpl.
  destruct (Critical A), (Critical B), (Critical C); simpl;
    (split; [done |]); split; try done.
  all: try (intros _; split; congruence).
  all: intros [H1 H2]; try specialize (H1 eq_refl);
    try specialize (H2 eq_refl); congruence.
Qed.


End Claims.

End RollbackProofs.

Module DependencyProofs.

Import Rollback RollbackSpec RollbackProofs.

Section Proofs.

Context {W : Type}.

Implicit Types (rm : RollbackManager (W:=W)) (st : ExecState (W:=W)).
Implicit Types (op : RollbackOperation (W:=W)).
Implicit Types (ops : list (RollbackOperation (W:=W))).
Implicit Types (ps : PassState (W:=W)).

Lemma canExecute_deps op st d :
  shouldSkipOperation op (failed st) = false →
  canExecute op st = true →
  d ∈ DependsOn op → d ∈ executed st.
Proof.
  intros Hskip Hcan Hd. unfold canExecute in Hcan.
  rewrite forallb_forall in Hcan.
  specialize (Hcan d ltac:(by apply list_elem_of_In)).
  apply orb_true_iff in Hcan as [He | Hf].
  { by apply bool_decide_eq_true in He. }
  apply bool_decide_eq_true in Hf.
  apply not_true_iff_false in Hskip. exfalso. apply Hskip, shouldSkip_true.
  eauto.
Qed.

Lemma canExecute_false op st :
  canExecute op st = false →
  ∃ d, d ∈ DependsOn op ∧ (d ∉ executed st) ∧ (d ∉ failed st).
Proof.
  unfold canExecute. induction (DependsOn op) as [|d l IH]; simpl; [done |].
  intros [Hd | Hl]%andb_false_iff.
  - exists d. split; [by left |].
    apply orb_false_iff in Hd as [He Hf].
    apply bool_decide_eq_false in He, Hf. done.
  - destruct (IH Hl) as (d' & ? & ?). exists d'. split; [by right | done].
Qed.

Lemma depInv_perm ops st pending pending' :
  pending ≡ₚ pending' → depInv ops st pending → depInv ops st pending'.
Proof.
  intros Hp [H1 H2 H3 H4 H5 H6 H7]. split; try done.
  - by rewrite <- Hp.
  - intros j r Hin. rewrite <- Hp. eauto.
  - intros i op Hop. rewrite <- Hp. eauto.
Qed.

Lemma depInv_skipped ops st i pending :
  depInv ops st (i :: pending) →
  (ops !! i = None
   ∨ ∃ op, ops !! i = Some op ∧ shouldSkipOperation op (failed st) = true) →
  depInv ops st pending.
Proof.
  intros [H1 H2 H3 H4 H5 H6 H7] Hwhy. split; try done.
  - by apply NoDup_cons in H3 as [_ ?].
  - intros j r Hin Hj. apply (H4 _ _ Hin). by right.
  - intros i0 op0 Hop0.
    destruct (H7 _ _ Hop0) as [[-> | ?]%elem_of_cons | ?]; auto.
    destruct Hwhy as [Hnone | (op & Hop & Hskip)]; [congruence |].
    right; right. assert (op = op0) as -> by congruence.
    by apply shouldSkip_true.
Qed.

Lemma depInv_attempted ops st st' i op pending :
  wf_ledger ops →
  depInv ops st (i :: pending) →
  ops !! i = Some op →
  shouldSkipOperation op (failed st) = false →
  canExecute op st = true →
  attempted i op st st' →
  depInv ops st' pending.
Proof.
  intros Hwf [H1 H2 H3 H4 H5 H6 H7] Hop Hskip Hcan Ha.
  pose proof (attempted_failed_mono _ _ _ _ Ha) as Hmono.
  destruct (attempted_trace _ _ _ _ Ha) as [r Ht].
  apply NoDup_cons in H3 as [Hi Hnd].
  split.
  - eapply attempted_failedInv; eauto.
  - eapply attempted_executedInv; eauto.
  - done.
  - intros j r0. rewrite Ht. intros [Hin | Hin]%elem_of_app.
    + intros Hj. apply (H4 _ _ Hin). by right.
    + apply list_elem_of_singleton in Hin. by injection Hin as -> ->.
  - rewrite Ht, fmap_app. simpl. apply NoDup_app. split; [done |].
    split; [| apply NoDup_singleton].
    intros j Hj ->%list_elem_of_singleton.
    apply list_elem_of_fmap in Hj as ([j r0] & -> & Hin). simpl in *.
    apply (H4 _ _ Hin). by left.
  - intros k x r0 op0 d. rewrite Ht.
    intros [Hk | [Hk Hlast]]%lookup_app_Some Hop0 Hd.
    + destruct (H6 _ _ _ _ _ Hk Hop0 Hd) as (k' & j & ? & Hk' & ?).
      exists k', j. split; [done |]. split; [| done].
      by apply lookup_app_l_Some.
    + apply list_lookup_singleton_Some in Hlast as [_ [= <- <-]].
      assert (op0 = op) as -> by congruence.
      pose proof (canExecute_deps _ _ _ Hskip Hcan Hd) as Hex.
      apply H2 in Hex as (j & Hin & ->).
      apply list_elem_of_lookup in Hin as [k' Hk'].
      exists k', j. pose proof (lookup_lt_Some _ _ _ Hk').
      split; [lia |]. split; [| done]. by apply lookup_app_l_Some.
  - intros i0 op0 Hop0. rewrite Ht.
    destruct (H7 _ _ Hop0) as [[-> | ?]%elem_of_cons | [[r0 ?] | (d & ? & ?)]].
    + right; left. exists r. apply elem_of_app. right.
      by apply list_elem_of_singleton.
    + by left.
    + right; left. exists r0. apply elem_of_app. by left.
    + right; right. exists d. split; [done |]. by apply Hmono.
Qed.

Lemma fold_pass_inv ops st0 todo ps :
  wf_ledger ops →
  depInv ops (ps_state ps) (todo ++ ps_newRemaining ps) →
  passInv ops st0 ps →
  depInv ops (ps_state (fold_left (pass_body ops) todo ps))
         (ps_newRemaining (fold_left (pass_body ops) todo ps))
  ∧ passInv ops st0 (fold_left (pass_body ops) todo ps).
Proof.
  intros Hwf. revert ps. induction todo as [|i rest IH]; intros ps Hinv Hpass;
    simpl; [done |].
  simpl in Hinv.
  destruct (pass_body_cases ops ps i)
    as [[Heq Hwhy] | [(op & Hop & Hskip & Hcan & Ha & Hp & Hr)
                     | (op & Hop & Hskip & Hcan & Hs & Hp & Hr)]].
  - rewrite Heq. apply IH; [| done]. by eapply depInv_skipped.
  - apply IH.
    + rewrite Hr. by eapply depInv_attempted.
    + intros Hfalse. congruence.
  - apply IH.
    + rewrite Hs, Hr. eapply depInv_perm; [| exact Hinv].
      rewrite (assoc_L (++)). by rewrite <- Permutation_cons_append.
    + unfold passInv. rewrite Hs, Hp, Hr. intros Hfalse.
      destruct (Hpass Hfalse) as [Hst Hnew]. split; [done |].
      intros j [Hj | ->%list_elem_of_singleton]%elem_of_app; [eauto |].
      exists op. rewrite <- Hst. done.
Qed.

(** *** Giving up on the operations that still wait *)

Lemma fold_constraint_spec ops l st :
  wf_ledger ops →
  (∀ i, i ∈ l → is_Some (ops !! i)) →
  let st' := fold_left (constraint_body ops) l st in
  trace st' = trace st ∧ executed st' = executed st ∧ world st' = world st
  ∧ (∀ d, d ∈ failed st' ↔ d ∈ failed st ∨ ∃ i : nat, i ∈ l ∧ d = Z.of_nat i)
  ∧ (∀ i op, i ∈ l → ops !! i = Some op →
       Errorf_constraint (Description op) ∈ errors st')
  ∧ errors st `prefix_of` errors st'.
Proof.
  intros Hwf. revert st. induction l as [|i l IH]; intros st Hl; simpl.
  - repeat split; try done.
    + by left.
    + intros [? | (i & ?%elem_of_nil & _)]; done.
    + by intros ? ? ?%elem_of_nil.
  - destruct (Hl i ltac:(by left)) as [op Hop].
    destruct (IH (constraint_body ops st i) ltac:(intros; apply Hl; by right))
      as (Ht & He & Hw & Hf & Herr & Hpre).
    unfold constraint_body in Ht, He, Hw, Hf, Herr, Hpre |- * at 2 4 6 8 10 12.
    rewrite Hop in *. simpl in *.
    split; [done |]. split; [done |]. split; [done |].
    split; [| split].
    + intros d. rewrite Hf, elem_of_union, elem_of_singleton, (Hwf _ _ Hop).
      split.
      * intros [[-> | ?] | (j & ? & ->)]; [right; exists i | by left
                                          | right; exists j];
          (split; [| done]); [by left | by right].
      * intros [? | (j & [-> | ?]%elem_of_cons & ->)];
          [by left; right | by left; left | right; eauto].
    + intros j opj [-> | Hj]%elem_of_cons Hopj; [| eauto].
      assert (opj = op) as -> by congruence.
      eapply elem_of_prefix; [| exact Hpre].
      apply elem_of_app. right. by apply list_elem_of_singleton.
    + etrans; [| exact Hpre]. by apply prefix_app_r.
Qed.

(** *** The dependency loop and [Execute] without fail-fast *)

Lemma dependency_loop_spec ops fuel remaining st st' :
  wf_ledger ops →
  depInv ops st remaining →
  dependency_loop fuel ops remaining st = Some st' →
  ∃ st_p rem_p,
    depInv ops st_p rem_p ∧ waiting ops st_p rem_p
    ∧ st' = fold_left (constraint_body ops) rem_p st_p.
Proof.
  intros Hwf. revert remaining st.
  induction fuel as [|fuel IH]; intros remaining st Hinv.
  - destruct remaining; simpl; [| done]. intros [= <-].
    exists st, []. split; [done |]. split; [| done].
    by intros j ?%elem_of_nil.
  - destruct remaining as [|i rest].
    { intros [= <-]. exists st, []. split; [done |]. split; [| done].
      by intros j ?%elem_of_nil. }
    cbn [dependency_loop].
    destruct (fold_pass_inv ops st (i :: rest)
                {| ps_state := st; ps_progress := false;
                   ps_newRemaining := [] |} Hwf) as [Hinv' Hpass].
    { simpl. by rewrite app_nil_r. }
    { intros _. simpl. split; [done |]. by intros j ?%elem_of_nil. }
    fold (pass ops (i :: rest) st) in Hinv', Hpass.
    set (ps := pass ops (i :: rest) st) in *.
    destruct (negb (ps_progress ps) && _) eqn:Hstop.
    + intros [= <-]. apply andb_true_iff in Hstop as [Hp _].
      apply negb_true_iff in Hp. destruct (Hpass Hp) as [Hst Hnew].
      exists (ps_state ps), (ps_newRemaining ps).
      split; [done |]. split; [| done]. unfold waiting. by rewrite Hst.
    + intros Hloop. eapply IH; eauto.
Qed.

Lemma initState_depInv ops rm (w : W) :
  depInv ops (initState rm w) (seq 0 (length ops)).
Proof.
  split; simpl.
  - apply (initState_coherent ops rm w).
  - apply (initState_coherent ops rm w).
  - apply NoDup_seq.
  - by intros j r ?%elem_of_nil.
  - constructor.
  - by intros k x r op d [=].
  - intros i op Hop. left. apply elem_of_seq.
    pose proof (lookup_lt_Some _ _ _ Hop). lia.
Qed.

Lemma Execute_dependency rm (w : W) :
  failFast rm = false →
  wf_ledger (operations rm) → operations rm ≠ [] →
  ∃ st_p rem_p,
    depInv (operations rm) st_p rem_p
    ∧ waiting (operations rm) st_p rem_p
    ∧ Execute rm w
      = Some (finish rm (fold_left (constraint_body (operations rm))
                                   rem_p st_p)).
Proof.
  intros Hff Hwf Hne. unfold Execute. rewrite Hff.
  destruct (length (operations rm) =? 0)%nat eqn:Hlen.
  { by apply Nat.eqb_eq, nil_length_inv in Hlen. }
  destruct (dependency_loop_total (S (length (operations rm)))
              (operations rm) (seq 0 (length (operations rm)))
              (initState rm w)) as [st' Hloop].
  { rewrite length_seq. lia. }
  rewrite Hloop.
  destruct (dependency_loop_spec _ _ _ _ _ Hwf
              (initState_depInv (operations rm) rm w) Hloop)
    as (st_p & rem_p & ? & ? & ->).
  by exists st_p, rem_p.
Qed.

Lemma NoDup_fst_functional {A B} (l : list (A * B)) x y1 y2 :
  NoDup l.*1 → (x, y1) ∈ l → (x, y2) ∈ l → y1 = y2.
Proof.
  induction l as [|[a b] l IH]; simpl; [by intros _ ?%elem_of_nil |].
  intros [Ha Hnd]%NoDup_cons H1 H2.
  apply elem_of_cons in H1 as [H1 | H1], H2 as [H2 | H2].
  - congruence.
  - exfalso. apply Ha. apply list_elem_of_fmap. exists (x, y2).
    split; [simpl; congruence | done].
  - exfalso. apply Ha. apply list_elem_of_fmap. exists (x, y1).
    split; [simpl; congruence | done].
  - eauto.
Qed.

(** What the final state of a call without fail-fast satisfies. *)
Lemma dependency_final ops st_p rem_p :
  wf_ledger ops →
  depInv ops st_p rem_p → waiting ops st_p rem_p →
  let st := fold_left (constraint_body ops) rem_p st_p in
  depsBefore ops (trace st)
  ∧ NoDup (trace st).*1
  ∧ (∀ y e, (y, Some e) ∈ trace st → Z.of_nat y ∈ failed st)
  ∧ (∀ x op d, ops !! x = Some op → d ∈ DependsOn op → d ∈ failed st →
       ∀ r, (x, r) ∉ trace st)
  ∧ (∀ x y op e, ops !! x = Some op → Z.of_nat y ∈ DependsOn op →
       (y, Some e) ∈ trace st → ID op ∉ failed st)
  ∧ (∀ i op, ops !! i = Some op →
       (∃ r, (i, r) ∈ trace st)
       ∨ (∃ d, d ∈ DependsOn op ∧ d ∈ failed st)
       ∨ (Errorf_constraint (Description op) ∈ errors st
          ∧ ID op ∈ failed st
          ∧ (∀ r, (i, r) ∉ trace st)
          ∧ ∃ d, d ∈ DependsOn op ∧ (d ∉ executed st))).
Proof.
  intros Hwf [H1 H2 H3 H4 H5 H6 H7] Hwait.
  destruct (fold_constraint_spec ops rem_p st_p Hwf)
    as (Ht & He & _ & Hf & Herr & _).
  { intros i Hi. destruct (Hwait _ Hi) as (op & -> & _). eauto. }
  simpl. rewrite Ht.
  assert (∀ x op d, ops !! x = Some op → d ∈ DependsOn op →
            d ∈ failed (fold_left (constraint_body ops) rem_p st_p) →
            ∀ r, (x, r) ∉ trace st_p) as Hnever.
  { intros x op d Hop Hd Hfailed r Hin.
    apply list_elem_of_lookup in Hin as [k Hk].
    destruct (H6 _ _ _ _ _ Hk Hop Hd) as (k' & j & _ & Hk' & ->).
    apply list_elem_of_lookup_2 in Hk'.
    apply Hf in Hfailed as [Hfailed | (i & Hi & Heq)].
    - apply H1 in Hfailed as (j' & e & Hin' & Heq).
      apply Nat2Z.inj in Heq as <-.
      by pose proof (NoDup_fst_functional _ _ _ _ H5 Hk' Hin').
    - apply Nat2Z.inj in Heq as <-. by apply (H4 _ _ Hk'). }
  split; [done |]. split; [done |]. split; [| split; [done | split]].
  - intros y e Hin. apply Hf. left. apply H1. eauto.
  - intros x y op e Hop Hdep Hin. rewrite (Hwf _ _ Hop).
    assert (Z.of_nat y ∈ failed st_p) as Hy by (apply H1; eauto).
    intros [Hfailed | (i & Hi & Heq)]%Hf.
    + apply H1 in Hfailed as (x' & e' & Hin' & Heq).
      apply Nat2Z.inj in Heq as <-.
      eapply Hnever; [exact Hop | exact Hdep | | exact Hin'].
      apply Hf. by left.
    + apply Nat2Z.inj in Heq as <-.
      destruct (Hwait _ Hi) as (op' & Hop' & Hskip & _).
      assert (op' = op) as -> by congruence.
      apply not_true_iff_false in Hskip. apply Hskip, shouldSkip_true. eauto.
  - intros i op Hop.
    destruct (H7 _ _ Hop) as [Hi | [? | (d & ? & ?)]]; [| by left |].
    + right; right. split; [by eapply Herr |]. split; [| split].
      * rewrite (Hwf _ _ Hop). apply Hf. right. eauto.
      * intros r Hin. by apply (H4 _ _ Hin).
      * destruct (Hwait _ Hi) as (op' & Hop' & _ & Hcan).
        assert (op' = op) as -> by congruence.
        rewrite He. apply canExecute_false in Hcan as (d & ? & ? & _). eauto.
    + right; left. exists d. split; [done |]. apply Hf. by left.
Qed.

End Proofs.

Section Claims.

Context {W : Type}.

Implicit Types (rm : RollbackManager (W:=W)) (st : ExecState (W:=W)).
Implicit Types (op : RollbackOperation (W:=W)).


(** C5 (as amended): an operation [x] that depends on [y] is not called in
    a call of [Execute] in which [y]'s action fails, without fail-fast
    always, and in the default mode when [y] is reached before [x]. *)
Theorem dependency_skipping rm (w : W) (x y : nat)
  (opx opy : RollbackOperation (W:=W)) (e : error) :
  wf_ledger (operations rm) →
  operations rm !! x = Some opx →
  operations rm !! y = Some opy →
  Z.of_nat y ∈ DependsOn opx →
  failFast rm = false
  ∨ (failFast rm = true ∧ failFastExplicitlySet rm = false
     ∧ reachedBefore opx opy x y) →
  (y, Some e) ∈ invocations rm w →
  ∀ r, (x, r) ∉ invocations rm w.
Proof.
  intros Hwf Hx Hy Hdep Hmode.
  assert (operations rm ≠ []) as Hne by (intros Hnil; by rewrite Hnil in Hx).
  unfold invocations.
  destruct Hmode as [Hff | (Hff & Hexp & Hbefore)].
  - destruct (Execute_dependency rm w Hff Hwf Hne)
      as (st_p & rem_p & Hinv & Hwait & ->).
    destruct (dependency_final _ _ _ Hwf Hinv Hwait)
      as (_ & _ & Hfailed & Hnever & _).
    destruct (finish rm _) as [[ret rm'] st'] eqn:Hfin.
    apply finish_lastError in Hfin as (-> & _).
    intros Hin. eapply Hnever; eauto.
  - destruct (Execute_default rm w Hff Hexp Hwf Hne)
      as (st1 & st2 & Hd1 & Hd2 & Hc1 & Hc2 & ->).
    destruct (finish rm st2) as [[ret rm'] st'] eqn:Hfin.
    apply finish_lastError in Hfin as (-> & _).
    pose proof (lookup_lt_Some _ _ _ Hy) as Hylt.
    assert (∀ c j r, (j, r) ∈ trace st1 →
              operations rm !! j = Some c → Critical c = true) as Hphase1.
    { intros c j r Hin Hj.
      destruct (ofClass_event _ _ _ _ _ _ _ Hd1 Hin)
        as [?%elem_of_nil | (op & Hop & Hc)]; [done | congruence]. }
    assert (∀ c j r, (j, r) ∈ trace st2 → operations rm !! j = Some c →
              Critical c = true → (j, r) ∈ trace st1) as Hphase2.
    { intros c j r Hin Hj Hcrit.
      destruct (ofClass_event _ _ _ _ _ _ _ Hd2 Hin)
        as [? | (op & Hop & Hc)]; [done | congruence]. }
    intros Hyfail r Hxin.
    destruct Hbefore as [[Hcy Hcx] | [Hclass Hlt]].
    + pose proof (Hphase2 _ _ _ Hyfail Hy Hcy) as Hy1.
      assert (Z.of_nat y ∈ failed st1) as Hf by (apply Hc1; eauto).
      eapply (descend_not_invoked _ _ _ _ _ _ _ _ Hd2 Hx Hdep Hf);
        [| exact Hxin].
      intros r0 Hin. pose proof (Hphase1 _ _ _ Hin Hx). congruence.
    + destruct (Critical opx) eqn:Hcx.
      * destruct (descend_dependency _ _ _ _ _ x y opx opy Hwf Hd1 Hx Hy Hdep)
          as [Hno | Hno]; [lia | by intros ? ?%elem_of_nil
                          | by intros ? ?%elem_of_nil | |].
        -- eapply Hno, Hphase2; eauto.
        -- eapply Hno, Hphase2; eauto.
      * destruct (descend_dependency _ _ _ _ _ x y opx opy Hwf Hd2 Hx Hy Hdep)
          as [Hno | Hno]; [lia | | | by eapply Hno | by eapply Hno].
        -- intros r0 Hin. pose proof (Hphase1 _ _ _ Hin Hx). congruence.
        -- intros e0 Hin. pose proof (Hphase1 _ _ _ Hin Hy). congruence.
Qed.

End Claims.

End DependencyProofs.

Module LockProofs.

Import Lock LockSpec.

(** *** Strings *)

Lemma append_nil (b : string) : "" +:+ b = b.
Proof. reflexivity. Qed.

Lemma append_cons (x : ascii) (a b : string) :
  String x a +:+ b = String x (a +:+ b).
Proof. reflexivity. Qed.

Lemma append_assoc (a b c : string) : (a +:+ b) +:+ c = a +:+ (b +:+ c).
Proof.
  induction a as [|x a IH]; [done |]. rewrite !append_cons. by f_equal.
Qed.

Lemma append_length (a b : string) :
  String.length (a +:+ b) = (String.length a + String.length b)%nat.
Proof.
  induction a as [|x a IH]; [done |]. rewrite append_cons. simpl. by f_equal.
Qed.

Lemma append_inj (a b c d : string) :
  String.length a = String.length c → a +:+ b = c +:+ d → a = c ∧ b = d.
Proof.
  revert c. induction a as [|x a IH]; intros [|y c]; try done.
  rewrite !append_cons. simpl.
  intros [= Hlen] [= -> Heq]. destruct (IH _ Hlen Heq) as [-> ->]. done.
Qed.

Lemma substring_all (s : string) : substring 0 (String.length s) s = s.
Proof. induction s as [|c s IH]; simpl; [done | by f_equal]. Qed.

Lemma fmt_x_cons (b : Z) (bs : list Z) :
  fmt_x (b :: bs)
  = String (hexdigit (b / 16)) (String (hexdigit (b mod 16)) (fmt_x bs)).
Proof. reflexivity. Qed.

Lemma fmt_x_length (bs : list Z) :
  String.length (fmt_x bs) = (2 * length bs)%nat.
Proof.
  induction bs as [|b bs IH]; [done |].
  rewrite fmt_x_cons. cbn [String.length length]. rewrite IH. lia.
Qed.

(** *** Test vectors of SHA-256 *)

Example round_constants_ends :
  head SHA256.K = Some 0x428a2f98 ∧ last SHA256.K = Some 0xc67178f2
  ∧ head SHA256.H0 = Some 0x6a09e667 ∧ last SHA256.H0 = Some 0x5be0cd19
  ∧ length SHA256.K = 64%nat.
Proof. repeat split; vm_compute; reflexivity. Qed.

Example Sum256_abc :
  fmt_x (SHA256.Sum256 (bytes_of_string "abc"))
  = "ba7816bf8f01cfea414140de5dae2223b00361a396177a9cb410ff61f20015ad".
Proof. vm_compute. reflexivity. Qed.

Example Sum256_empty :
  fmt_x (SHA256.Sum256 (bytes_of_string ""))
  = "e3b0c44298fc1c149afbf4c8996fb92427ae41e4649b934ca495991b7852b855".
Proof. vm_compute. reflexivity. Qed.

Example Sum256_two_blocks :
  fmt_x (SHA256.Sum256 (repeat 97 100))
  = "2816597888e4a0d3a36b82b83316ab32680eb8f00f8cd3b904d681246d285a0e".
Proof. vm_compute. reflexivity. Qed.

(** *** The digest has 32 bytes *)

Lemma be_bytes_length n x : length (SHA256.be_bytes n x) = n.
Proof.
  unfold SHA256.be_bytes. by rewrite length_map, length_rev, length_seq.
Qed.

Lemma compress_length hs block : length (SHA256.compress hs block) = 8%nat.
Proof.
  unfold SHA256.compress.
  destruct (fold_left _ _ _) as [[[[[[[a b] c] d] e] f] g] h].
  reflexivity.
Qed.

Lemma fold_left_length {A B} (f : list A → B → list A) (n : nat) bs hs :
  (∀ a b, length (f a b) = n) → length hs = n →
  length (fold_left f bs hs) = n.
Proof.
  intros Hf. revert hs. induction bs as [|b bs IH]; intros hs Hhs; [done |].
  simpl. apply IH, Hf.
Qed.

Lemma concat_be_bytes_length (hs : list Z) :
  length (concat (map (SHA256.be_bytes 4) hs)) = (4 * length hs)%nat.
Proof.
  induction hs as [|h hs IH]; [done |].
  cbn [map concat]. rewrite length_app, be_bytes_length, IH. simpl. lia.
Qed.

Lemma Sum256_length msg : length (SHA256.Sum256 msg) = 32%nat.
Proof.
  unfold SHA256.Sum256. rewrite concat_be_bytes_length.
  rewrite (fold_left_length SHA256.compress 8); [done | | done].
  apply compress_length.
Qed.

Lemma pathHash_length (targetPath : string) :
  String.length (fmt_x (take 8 (SHA256.Sum256 (bytes_of_string targetPath))))
  = 16%nat.
Proof. rewrite fmt_x_length, length_take, Sum256_length. reflexivity. Qed.

(** *** The lock key *)

(** C6 (as amended): the key is a function of the operation kind and of the
    target path as the caller spelled it, which is hashed without being
    normalized: the prefix, the kind, a dash and the 16 hexadecimal digits
    of the first 8 bytes of the SHA-256 digest of the path.  Calls of
    different kinds never share a key, whatever the paths; calls of one kind
    share a key exactly when the digests of the two spellings agree on
    those digits. *)
Theorem lock_key_of_kind_and_spelling (k1 k2 p1 p2 : string) :
  let pathHash p := fmt_x (take 8 (SHA256.Sum256 (bytes_of_string p))) in
  generateLockKey k1 p1 = "wtree-" +:+ k1 +:+ "-" +:+ pathHash p1
  ∧ String.length (pathHash p1) = 16%nat
  ∧ (k1 ≠ k2 → generateLockKey k1 p1 ≠ generateLockKey k2 p2)
  ∧ (generateLockKey k1 p1 = generateLockKey k1 p2
     ↔ pathHash p1 = pathHash p2).
Proof.
  intros pathHash. unfold generateLockKey. fold (pathHash p1) (pathHash p2).
  pose proof (pathHash_length p1) as Hl1.
  pose proof (pathHash_length p2) as Hl2.
  fold (pathHash p1) in Hl1. fold (pathHash p2) in Hl2.
  clearbody pathHash.
  split; [done |]. split; [done |]. split.
  - intros Hne Heq. apply (inj (String.app "wtree-")) in Heq.
    apply append_inj in Heq as [-> _]; [done |].
    apply (f_equal String.length) in Heq.
    rewrite !append_length, Hl1, Hl2 in Heq. lia.
  - split.
    + intros Heq. apply (inj (String.app "wtree-")) in Heq.
      apply (inj (String.app k1)) in Heq.
      by apply (inj (String.app "-")) in Heq.
    + by intros ->.
Qed.

(** *** Reading the PID of a lock file *)

Lemma pidOfLine_Some (line : string) (n : Z) :
  pidOfLine line = Some n → pidLine line n.
Proof.
  unfold pidOfLine, pidLine.
  destruct line as [|c1 [|c2 [|c3 [|c4 rest]]]]; try done.
  destruct (_ <? _)%nat; [| done]. rewrite andb_true_l.
  destruct (String.eqb _ _) eqn:Heq; [| done].
  apply String.eqb_eq in Heq. cbn [substring] in Heq.
  injection Heq as -> -> -> ->.
  cbn [String.length substring Nat.sub].
  rewrite Nat.sub_0_r, substring_all.
  intros Hatoi. by exists rest.
Qed.

Lemma firstPid_cases (lines : list string) :
  (firstPid lines = 0 ∧ ∀ line, line ∈ lines → pidOfLine line = None)
  ∨ ∃ line, line ∈ lines ∧ pidOfLine line = Some (firstPid lines).
Proof.
  induction lines as [|line lines IH]; simpl.
  - left. split; [done |]. by intros line ?%elem_of_nil.
  - destruct (pidOfLine line) as [n|] eqn:Hline.
    + right. exists line. split; [by left | done].
    + destruct IH as [[Hz Hnone] | (l & Hin & Hl)].
      * left. split; [done |].
        intros l [-> | Hin]%elem_of_cons; [done | by apply Hnone].
      * right. exists l. split; [by right | done].
Qed.

(** C9: a lock whose file cannot be read, or holds no line that parses as
    [pid=] followed by a positive integer, is stale, whatever the process
    table says; and the PID extracted from a content that holds no line
    parsing as [pid=<integer>] at all is 0. *)
Theorem stale_without_valid_pid (env : Env) (ol : OperationLock) (m : Machine) :
  (∀ content, (readLockInfo env ol m).1 = inl content →
     ∀ line n, line ∈ strings_Split "010" content →
               pidLine line n → n ≤ 0) →
  (isLockStale env ol m).1 = true
  ∧ ∀ lockInfo,
      (∀ line n, line ∈ strings_Split "010" lockInfo → ¬ pidLine line n) →
      extractPIDFromLockInfo lockInfo = 0.
Proof.
  intros Hno. split.
  - unfold isLockStale.
    destruct (readLockInfo env ol m) as [[content | err] m'] eqn:Hread;
      [| done].
    specialize (Hno content eq_refl). unfold extractPIDFromLockInfo.
    destruct (firstPid_cases (strings_Split "010" content))
      as [[-> _] | (line & Hin & Hline)]; [done |].
    apply pidOfLine_Some in Hline. specialize (Hno _ _ Hin Hline).
    destruct (0 <? _) eqn:Hpos; [| done]. apply Z.ltb_lt in Hpos. lia.
  - intros lockInfo Hnone. unfold extractPIDFromLockInfo.
    destruct (firstPid_cases (strings_Split "010" lockInfo))
      as [[-> _] | (line & Hin & Hline)]; [done |].
    apply pidOfLine_Some in Hline. by destruct (Hnone _ _ Hin Hline).
Qed.

(** *** Acquire, release, acquire again *)

Section Reacquire.

Variable env : Env.

Lemma frame_refl m : frame m m.
Proof. done. Qed.

Lemma frame_trans m1 m2 m3 : frame m1 m2 → frame m2 m3 → frame m1 m3.
Proof. intros [? ?] [? ?]. split; congruence. Qed.

Lemma open_frame path m r m' :
  os_OpenFile_excl env path m = (r, m') → frame m m'.
Proof.
  unfold os_OpenFile_excl.
  destruct (fault env OpCreate path); [by intros [= <- <-] |].
  destruct (files m !! path); by intros [= <- <-].
Qed.

Lemma open_ok path m m' :
  os_OpenFile_excl env path m = (None, m') →
  fault env OpCreate path = None ∧ files m !! path = None.
Proof.
  unfold os_OpenFile_excl.
  destruct (fault env OpCreate path); [done |].
  destruct (files m !! path); done.
Qed.

Lemma write_frame path data m r m' :
  file_WriteString env path data m = (r, m') → frame m m'.
Proof.
  unfold file_WriteString.
  destruct (fault env OpWrite path); by intros [= <- <-].
Qed.

Lemma write_ok path data m m' :
  file_WriteString env path data m = (None, m') →
  fault env OpWrite path = None.
Proof.
  unfold file_WriteString. by destruct (fault env OpWrite path).
Qed.

Lemma remove_frame path m r m' :
  os_Remove env path m = (r, m') → frame m m'.
Proof.
  unfold os_Remove.
  destruct (fault env OpRemove path); [by intros [= <- <-] |].
  destruct (files m !! path); by intros [= <- <-].
Qed.

Hypothesis Hio : faults_are_io env.

Lemma remove_gone path m r m' :
  os_Remove env path m = (r, m') →
  match r with
  | None => files m' !! path = None
  | Some err => os_IsNotExist err = true → files m' !! path = None
  end.
Proof.
  unfold os_Remove.
  destruct (fault env OpRemove path) as [e|] eqn:Hfault.
  - intros [= <- <-]. destruct (Hio _ _ _ Hfault) as [_ Hne]. congruence.
  - destruct (files m !! path) eqn:Hfile; intros [= <- <-]; simpl.
    + apply lookup_delete_eq.
    + done.
Qed.

Lemma close_frame path m r m' :
  file_Close env path m = (r, m') → frame m m' ∧ files m' = files m.
Proof. by intros [= <- <-]. Qed.

Lemma read_frame ol m r m' :
  readLockInfo env ol m = (r, m') → frame m m' ∧ files m' = files m.
Proof.
  unfold readLockInfo, os_ReadFile. destruct (fault env OpRead _);
    [by intros [= <- <-] |].
  destruct (files m !! _); by intros [= <- <-].
Qed.

Lemma stale_frame ol m r m' :
  isLockStale env ol m = (r, m') → frame m m'.
Proof.
  unfold isLockStale.
  destruct (readLockInfo env ol m) as [[info | err] m1] eqn:Hread.
  - destruct (read_frame _ _ _ _ Hread) as [Hf _].
    destruct (0 <? _); [destruct (windows env) |]; by intros [= <- <-].
  - destruct (read_frame _ _ _ _ Hread) as [Hf _]. by intros [= <- <-].
Qed.

Lemma sleep_frame d m : frame m (time_Sleep d m).
Proof. done. Qed.

(** A successful [acquire] created and wrote the lock file, and marked the
    object as acquired. *)
Lemma acquire_loop_success fuel start ol m ol' m' :
  acquire_loop env fuel start ol m = Some (None, ol', m') →
  ol' = setHandle true true ol
  ∧ fault env OpCreate (lockPath ol) = None
  ∧ fault env OpWrite (lockPath ol) = None
  ∧ frame m m'.
Proof.
  revert m. induction fuel as [|fuel IH]; intros m; [done |].
  cbn [acquire_loop].
  destruct (os_OpenFile_excl env (lockPath ol) m) as [[err|] m1] eqn:Hopen.
  - pose proof (open_frame _ _ _ _ Hopen) as Hf1.
    destruct (negb (os_IsExist err)); [done |].
    destruct (timeout ol <=? clock m1 - start).
    { destruct (readLockInfo env ol m1) as [[?|?] ?]; done. }
    destruct (isLockStale env ol m1) as [stale m2] eqn:Hstale.
    pose proof (stale_frame _ _ _ _ Hstale) as Hf2.
    destruct stale.
    + unfold cleanupStaleLock.
      destruct (os_Remove env (lockPath ol) m2) as [[e|] m3] eqn:Hrm;
        pose proof (remove_frame _ _ _ _ Hrm) as Hf3;
        intros (-> & ? & ? & Hf4)%IH; repeat split; try done;
        destruct Hf1, Hf2, Hf3, Hf4; simpl in *; congruence.
    + intros (-> & ? & ? & Hf4)%IH; repeat split; try done;
        destruct Hf1, Hf2, Hf4; simpl in *; congruence.
  - pose proof (open_frame _ _ _ _ Hopen) as Hf1.
    destruct (open_ok _ _ _ Hopen) as [Hc _].
    destruct (file_WriteString env (lockPath ol) _ m1) as [[werr|] m2]
      eqn:Hwrite.
    + destruct (file_Close env _ m2) as [? m3].
      destruct (os_Remove env _ m3) as [? m4]. done.
    + intros [= <- <-]. pose proof (write_frame _ _ _ _ _ Hwrite) as Hf2.
      pose proof (write_ok _ _ _ _ Hwrite).
      repeat split; try done; destruct Hf1, Hf2; simpl; congruence.
Qed.

(** With the lock file absent and no fault on its path, the first iteration
    of [acquire] succeeds. *)
Lemma acquire_loop_fresh fuel start ol m :
  fault env OpCreate (lockPath ol) = None →
  fault env OpWrite (lockPath ol) = None →
  files m !! lockPath ol = None →
  ∃ m', acquire_loop env (S fuel) start ol m
        = Some (None, setHandle true true ol, m')
        ∧ frame m m'.
Proof.
  intros Hc Hw Hfile. cbn [acquire_loop].
  unfold os_OpenFile_excl, file_WriteString. rewrite Hc, Hfile, Hw.
  eexists. split; [reflexivity | done].
Qed.

Lemma cleanup_ok ol m ol' m' :
  cleanup env ol m = (None, ol', m') →
  files m' !! lockPath ol = None ∧ frame m m'.
Proof.
  unfold cleanup.
  destruct (lockFile ol).
  - destruct (file_Close env (lockPath ol) m) as [[cerr|] m1] eqn:Hclose;
      destruct (close_frame _ _ _ _ Hclose) as [Hf1 _];
      destruct (os_Remove env (lockPath ol) m1) as [[rerr|] m2] eqn:Hrm;
      pose proof (remove_frame _ _ _ _ Hrm) as Hf2;
      pose proof (remove_gone _ _ _ _ Hrm) as Hgone;
      try destruct (negb (os_IsNotExist rerr)) eqn:Hne;
      simpl; try rewrite length_app; simpl;
      try (rewrite Nat.add_1_r; simpl); intros [= <- <-]; try done.
    + split; [| by eapply frame_trans].
      apply Hgone. by apply negb_false_iff.
    + split; [done | by eapply frame_trans].
  - destruct (os_Remove env (lockPath ol) m) as [[rerr|] m2] eqn:Hrm;
      pose proof (remove_frame _ _ _ _ Hrm) as Hf2;
      pose proof (remove_gone _ _ _ _ Hrm) as Hgone;
      try destruct (negb (os_IsNotExist rerr)) eqn:Hne;
      simpl; intros [= <- <-]; try done.
    split; [| done]. apply Hgone. by apply negb_false_iff.
Qed.

Lemma cleanup_no_fault ol m :
  fault env OpClose (lockPath ol) = None →
  fault env OpRemove (lockPath ol) = None →
  (cleanup env ol m).1.1 = None.
Proof.
  intros Hc Hr. unfold cleanup, file_Close, os_Remove. rewrite Hc, Hr.
  destruct (lockFile ol); simpl;
    match goal with |- context [files ?mm !! ?p] =>
      destruct (files mm !! p) end; done.
Qed.

Lemma trackedKey_unique (a : nat) (lm : LockManager) (key : string) :
  locks lm !! key = Some a →
  (∀ k, locks lm !! k = Some a → k = key) →
  trackedKey a lm = Some key.
Proof.
  intros Hkey Huniq. unfold trackedKey.
  assert ((key, a) ∈ filter (λ kv : string * nat, kv.2 = a)
                            (map_to_list (locks lm))) as Hin.
  { apply list_elem_of_filter. split; [done |].
    by apply elem_of_map_to_list. }
  destruct (filter _ _) as [|[k v] l] eqn:Hl; [by apply elem_of_nil in Hin |].
  simpl. f_equal.
  assert ((k, v) ∈ filter (λ kv : string * nat, kv.2 = a)
                          (map_to_list (locks lm))) as Hkv.
  { rewrite Hl. by left. }
  apply list_elem_of_filter in Hkv as [Hv Hkv]. simpl in Hv. subst v.
  apply elem_of_map_to_list in Hkv. by apply Huniq.
Qed.

(** What a successful [AcquireLock] leaves. *)
Lemma AcquireLock_success lockType targetPath t lm m h lm1 m1 :
  AcquireLock env lockType targetPath t lm m = Some (inl h, lm1, m1) →
  let key := generateLockKey lockType targetPath in
  let path := filepath_Join env (lockDir lm) (key +:+ ".lock") in
  h = next m
  ∧ lm1 = {| lockDir := lockDir lm; locks := <[key := h]> (locks lm) |}
  ∧ (∃ ol, heap m1 !! h = Some ol ∧ acquired ol = true
           ∧ lockFile ol = true ∧ lockPath ol = path)
  ∧ fault env OpCreate path = None
  ∧ fault env OpWrite path = None.
Proof.
  intros Hacq key path. unfold AcquireLock in Hacq. fold key in Hacq.
  destruct (match locks lm !! key with Some _ => _ | None => false end);
    [done |].
  unfold alloc, acquireAt in Hacq. cbn [heap] in Hacq.
  rewrite lookup_insert_eq in Hacq. unfold acquire in Hacq.
  cbn [acquired newOperationLock] in Hacq.
  destruct (acquire_loop env _ _ _ _) as [[[[err|] ol'] m']|] eqn:Hloop;
    [| | done].
  { destruct (cleanupAt env _ _). done. }
  injection Hacq as <- <- <-.
  apply acquire_loop_success in Hloop as (-> & Hc & Hw & _).
  split; [done |]. split; [done |]. split; [| done].
  eexists. split; [apply lookup_insert_eq | done].
Qed.

End Reacquire.




End LockProofs.

(** ** The properties on the ledgers of the test suite *)

Module RollbackExamples.

Import Rollback RollbackSpec Mock Scenarios RollbackProofs DependencyProofs.

Ltac ledger_wf :=
  let i := fresh "i" in let op := fresh "op" in let H := fresh "H" in
  intros i op H;
  repeat (destruct i as [|i]; [injection H as <-; reflexivity |]);
  discriminate H.

Lemma threeCleanups_wf : wf_ledger (operations threeCleanups).
Proof. ledger_wf. Qed.

Lemma worktreeThenBranch_wf : wf_ledger (operations worktreeThenBranch).
Proof. ledger_wf. Qed.

Lemma withDependencies_wf : wf_ledger (operations withDependencies).
Proof. ledger_wf. Qed.

Lemma filesNeedWorktree_wf : wf_ledger (operations filesNeedWorktree).
Proof. ledger_wf. Qed.

Lemma branchNeedsBranch_wf : wf_ledger (operations branchNeedsBranch).
Proof. ledger_wf. Qed.






(** C4 on [TestRollbackManager_Execute]. *)
Lemma lifo_order_within_classes_witness :
  Execute threeCleanups emptyRepo
  = Some (None, managerAfter threeCleanups emptyRepo,
          localsAfter threeCleanups emptyRepo)
  ∧ trace (localsAfter threeCleanups emptyRepo)
    = [(2%nat, None); (0%nat, None); (1%nat, None)].
Proof.
  assert (Execute threeCleanups emptyRepo
          = Some (None, managerAfter threeCleanups emptyRepo,
                  localsAfter threeCleanups emptyRepo)) as Hex
    by (vm_compute; reflexivity).
  split; [exact Hex |].
  exact (proj1 (lifo_order_within_classes threeCleanups emptyRepo
                  (removeWorktreeOp "/worktree1" 0 [])
                  (deleteBranchOp "branch1" 1 [])
                  (removeWorktreeOp "/worktree2" 2 [])
                  _ _ eq_refl eq_refl eq_refl threeCleanups_wf Hex)).
Defined.

(** C4 as stated fails: a worktree, a branch and a worktree appended in
    this order are undone without error in the order third, first,
    second. *)
Lemma mixed_flags_not_lifo :
  failFast threeCleanups = true
  ∧ failFastExplicitlySet threeCleanups = false
  ∧ map Critical (operations threeCleanups) = [true; false; true]
  ∧ returned threeCleanups emptyRepo = None
  ∧ (trace (localsAfter threeCleanups emptyRepo)).*1 = [2; 0; 1]%nat.
Proof. repeat split; vm_compute; reflexivity. Qed.

(** C5 on [TestRollbackManager_DependencySkipping]: the branch depends on
    the worktree, whose removal fails. *)
Lemma dependency_skipping_witness :
  (0%nat, Some AnError)
    ∈ invocations (SetFailFast false withDependencies) failingRemove
  ∧ ∀ r, (1%nat, r)
           ∉ invocations (SetFailFast false withDependencies) failingRemove.
Proof.
  assert ((0%nat, Some AnError)
            ∈ invocations (SetFailFast false withDependencies) failingRemove)
    as Hin by (vm_compute; left).
  split; [exact Hin |].
  apply (dependency_skipping (SetFailFast false withDependencies)
           failingRemove 1 0
           (deleteBranchOp "branch" 1 [0]) (removeWorktreeOp "/worktree" 0 [])
           AnError withDependencies_wf eq_refl eq_refl).
  - vm_compute. left.
  - left. reflexivity.
  - exact Hin.
Defined.

(** C5 as stated fails in the default mode.  On the ledger of
    [TestRollbackManager_DependencySkipping] the cleanup of the files
    depends on the removal of the worktree and was appended after it: it
    is called first, and then the removal of the worktree fails. *)
Lemma dependent_runs_before_failure :
  failFast withDependencies = true
  ∧ failFastExplicitlySet withDependencies = false
  ∧ operations withDependencies !! 2%nat
    = Some (removeFilesOp "/files" 2 [0])
  ∧ invocations withDependencies failingRemove
    = [(2%nat, None); (0%nat, Some AnError)].
Proof. repeat split; vm_compute; reflexivity. Qed.

(** C10 on a ledger of two operations. *)
Lemma AddDependency_out_of_range_witness :
  Z.of_nat (length (operations worktreeThenBranch)) ≤ 2
  ∧ AddDependency 2 0 worktreeThenBranch = Some worktreeThenBranch.
Proof.
  assert (Z.of_nat (length (operations worktreeThenBranch)) ≤ 2) as Hle
    by (vm_compute; discriminate).
  split; [exact Hle |].
  exact (proj1 (AddDependency_out_of_range worktreeThenBranch 2 0 Hle)).
Defined.

End RollbackExamples.

(** ** The properties of the lock manager on the concrete platform *)

Module LockExamples.

Import Lock LockSpec LockTest LockProofs.

(** C6 as stated fails: two spellings of one directory give two keys. *)
Lemma spellings_give_different_keys :
  generateLockKey "create" "/repo/A" = "wtree-create-85df1fea27272a1b"
  ∧ generateLockKey "create" "/repo/A/" = "wtree-create-9661f0aa2b3c8e98"
  ∧ generateLockKey "create" "/repo/A" ≠ generateLockKey "create" "/repo/A/".
Proof.
  split; [vm_compute; reflexivity |]. split; [vm_compute; reflexivity |].
  vm_compute. discriminate.
Qed.

Lemma env_faults_are_io : faults_are_io env.
Proof. intros op path e. discriminate. Qed.

Lemma manager0_wf : manager_wf manager0 machine0.
Proof. intros key a. vm_compute. discriminate. Qed.


(** C9 on a lock file whose PID line does not parse. *)
Lemma stale_without_valid_pid_witness :
  (readLockInfo env someLock garbled).1 = inl garbledRecord
  ∧ (isLockStale env someLock garbled).1 = true.
Proof.
  split; [vm_compute; reflexivity |].
  apply (stale_without_valid_pid env someLock garbled).
  intros content Hread line n Hin (digits & Heq & Hatoi).
  vm_compute in Hread. injection Hread as <-.
  vm_compute in Hin.
  repeat (apply elem_of_cons in Hin as [-> | Hin]);
    [| | | by apply elem_of_nil in Hin];
    vm_compute in Heq; try discriminate Heq.
  injection Heq as <-. vm_compute in Hatoi. discriminate Hatoi.
Defined.

End LockExamples.

(** ** Further properties of the rollback manager *)

Module RollbackMoreProofs.

Import Rollback RollbackSpec RollbackMore RollbackProofs DependencyProofs.

Section Invariants.

Context {W : Type} `{!Repository W} `{!OS W}.

Implicit Types (rm : RollbackManager (W:=W)) (st : ExecState (W:=W)).
Implicit Types (op : RollbackOperation (W:=W)).
Implicit Types (ops : list (RollbackOperation (W:=W))).

(** *** What [Execute] leaves of the manager *)

Lemma Execute_shape rm (w : W) ret rm' st :
  Execute rm w = Some (ret, rm', st) →
  (operations rm = [] ∧ rm' = rm ∧ ret = None ∧ st = initState rm w)
  ∨ (operations rm ≠ [] ∧ operations rm' = [] ∧ dependencies rm' = ∅
     ∧ failFast rm' = failFast rm
     ∧ failFastExplicitlySet rm' = failFastExplicitlySet rm
     ∧ lastError rm' = lastErr st).
Proof.
  unfold Execute.
  destruct (length (operations rm) =? 0)%nat eqn:Hlen.
  { apply Nat.eqb_eq, nil_length_inv in Hlen. intros [= <- <- <-]. by left. }
  assert (operations rm ≠ []) as Hne.
  { intros Hnil. rewrite Hnil in Hlen. done. }
  assert (∀ s, finish rm s = (ret, rm', st) →
            operations rm' = [] ∧ dependencies rm' = ∅
            ∧ failFast rm' = failFast rm
            ∧ failFastExplicitlySet rm' = failFastExplicitlySet rm
            ∧ lastError rm' = lastErr st) as Hfin.
  { intros s. unfold finish.
    destruct (0 <? length (errors s))%nat; intros [= <- <- <-]; done. }
  intros Hex. right. split; [done |].
  destruct (failFast rm) eqn:Hff.
  - destruct (phase1_loop _ _ _ _) as [st1|e st1].
    + destruct (negb _ || _); injection Hex as Hex; by apply Hfin in Hex.
    + injection Hex as <- <- <-. simpl. done.
  - destruct (dependency_loop _ _ _ _) as [s|]; [| done].
    injection Hex as Hex. by apply Hfin in Hex.
Qed.

(** *** The ledgers that the exported functions build *)

Lemma wf_ledger_nil : wf_ledger ([] : list (RollbackOperation (W:=W))).
Proof. by intros i op [=]. Qed.

Lemma wf_ledger_snoc ops op :
  wf_ledger ops → ID op = Z.of_nat (length ops) → wf_ledger (ops ++ [op]).
Proof.
  intros Hwf Hid i op' [Hi | [Hlen Hi]]%lookup_app_Some; [by apply Hwf |].
  apply list_lookup_singleton_Some in Hi as [Hi ->].
  rewrite Hid. f_equal. lia.
Qed.

Lemma wf_ledger_alter ops d (i : nat) :
  wf_ledger ops → wf_ledger (alter (addDependsOn d) i ops).
Proof.
  intros Hwf j op. destruct (decide (j = i)) as [-> |].
  - rewrite list_lookup_alter_eq.
    destruct (ops !! i) as [op0|] eqn:Hop; [| done].
    intros [= <-]. simpl. by apply Hwf.
  - rewrite list_lookup_alter_ne by done. apply Hwf.
Qed.

Lemma AddDependency_cases dependentID dependsOnID rm rm' :
  AddDependency dependentID dependsOnID rm = Some rm' →
  (Z.of_nat (length (operations rm)) ≤ dependentID ∧ rm' = rm)
  ∨ (0 ≤ dependentID < Z.of_nat (length (operations rm))
     ∧ operations rm'
       = alter (addDependsOn dependsOnID) (Z.to_nat dependentID)
               (operations rm)
     ∧ dependencies rm'
       = <[dependsOnID :=
             default [] (dependencies rm !! dependsOnID) ++ [dependentID]]>
           (dependencies rm)
     ∧ failFast rm' = failFast rm
     ∧ failFastExplicitlySet rm' = failFastExplicitlySet rm
     ∧ lastError rm' = lastError rm).
Proof.
  unfold AddDependency.
  destruct (dependentID <? _) eqn:Hlt.
  - apply Z.ltb_lt in Hlt. destruct (dependentID <? 0) eqn:Hneg; [done |].
    apply Z.ltb_ge in Hneg. intros [= <-]. right. simpl.
    repeat split; try done; lia.
  - apply Z.ltb_ge in Hlt. intros [= <-]. by left.
Qed.

Lemma indexInv_snoc rm op :
  DependsOn op = [] → indexInv rm → indexInv (appendOperation op rm).
Proof.
  intros Hdeps Hinv x d. unfold appendOperation. cbn [operations dependencies].
  rewrite <- (Hinv x d). split.
  - intros (op' & [Hx | [_ Hx]]%lookup_app_Some & Hd); [eauto |].
    apply list_lookup_singleton_Some in Hx as [_ <-].
    rewrite Hdeps in Hd. by apply elem_of_nil in Hd.
  - intros (op' & Hx & Hd). exists op'. split; [| done].
    by apply lookup_app_l_Some.
Qed.

Lemma indexInv_dependency dependentID dependsOnID rm rm' :
  AddDependency dependentID dependsOnID rm = Some rm' →
  indexInv rm → indexInv rm'.
Proof.
  intros [[_ ->] | (Hrange & Hops & Hdeps & _)]%AddDependency_cases Hinv;
    [done |].
  intros x d. rewrite Hops, Hdeps. split.
  - intros (op' & Hx & Hd).
    destruct (decide (x = Z.to_nat dependentID)) as [-> | Hne].
    + rewrite list_lookup_alter_eq in Hx.
      destruct (operations rm !! Z.to_nat dependentID) as [op|] eqn:Hop;
        [| done].
      injection Hx as <-. simpl in Hd.
      apply elem_of_app in Hd as [Hd | ->%list_elem_of_singleton].
      * destruct (proj1 (Hinv _ d) ltac:(eauto)) as (l & Hl & Hin).
        destruct (decide (d = dependsOnID)) as [-> |].
        -- eexists. rewrite lookup_insert_eq. split; [done |].
           rewrite Hl. simpl. apply elem_of_app. by left.
        -- exists l. by rewrite lookup_insert_ne.
      * eexists. rewrite lookup_insert_eq. split; [done |].
        apply elem_of_app. right. apply list_elem_of_singleton. lia.
    + rewrite list_lookup_alter_ne in Hx by done.
      destruct (proj1 (Hinv _ d) ltac:(eauto)) as (l & Hl & Hin).
      destruct (decide (d = dependsOnID)) as [-> |].
      * eexists. rewrite lookup_insert_eq. split; [done |].
        rewrite Hl. simpl. apply elem_of_app. by left.
      * exists l. by rewrite lookup_insert_ne.
  - intros (l & Hl & Hin).
    assert ((∃ op, operations rm !! x = Some op ∧ d ∈ DependsOn op)
            ∨ (x = Z.to_nat dependentID ∧ d = dependsOnID)) as Hcases.
    { destruct (decide (d = dependsOnID)) as [-> |].
      - rewrite lookup_insert_eq in Hl. injection Hl as <-.
        apply elem_of_app in Hin as [Hin | Hin%list_elem_of_singleton].
        + left. apply Hinv.
          destruct (dependencies rm !! dependsOnID) as [l0|] eqn:Hl0;
            [eauto | by apply elem_of_nil in Hin].
        + right. split; [lia | done].
      - rewrite lookup_insert_ne in Hl by done. left. apply Hinv. eauto. }
    destruct Hcases as [(op & Hop & Hd) | [-> ->]].
    + destruct (decide (x = Z.to_nat dependentID)) as [-> |].
      * exists (addDependsOn dependsOnID op).
        rewrite list_lookup_alter_eq, Hop. split; [done |].
        simpl. apply elem_of_app. by left.
      * exists op. by rewrite list_lookup_alter_ne.
    + destruct (lookup_lt_is_Some_2 (operations rm) (Z.to_nat dependentID))
        as [op Hop]; [lia |].
      exists (addDependsOn dependsOnID op).
      rewrite list_lookup_alter_eq, Hop. split; [done |].
      simpl. apply elem_of_app. right. by apply list_elem_of_singleton.
Qed.

Lemma indexInv_empty rm :
  operations rm = [] → dependencies rm = ∅ → indexInv rm.
Proof.
  intros Hops Hdeps x d. rewrite Hops, Hdeps. split.
  - by intros (op & [=] & _).
  - intros (l & Hl & _). by rewrite lookup_empty in Hl.
Qed.

(** X1: in every manager built with the exported functions the ID of an
    operation is its position in the ledger, so the IDs that the
    [Add...Cleanup] functions return name the operations they appended. *)
Theorem reachable_ids_are_positions rm :
  reachable rm → wf_ledger (operations rm).
Proof.
  induction 1 as [| path rm _ IH | branch rm _ IH | path rm _ IH
                 | links rm _ IH | x y rm rm' _ IH Hdep | b rm _ IH
                 | rm _ IH | rm w ret rm' st _ IH Hex];
    [ apply wf_ledger_nil
    | by apply wf_ledger_snoc | by apply wf_ledger_snoc
    | by apply wf_ledger_snoc | by apply wf_ledger_snoc
    | | exact IH | apply wf_ledger_nil | ].
  - apply AddDependency_cases in Hdep as [[_ ->] | (_ & -> & _)]; [done |].
    by apply wf_ledger_alter.
  - apply Execute_shape in Hex as [(_ & -> & _) | (_ & -> & _)]; [done |].
    apply wf_ledger_nil.
Qed.

(** X2: in every manager built with the exported functions the reverse
    index [dependencies] mirrors the [DependsOn] lists: an operation is
    listed as a dependent of [d] exactly when it depends on [d]. *)
Theorem reachable_index_mirrors_dependencies rm :
  reachable rm → indexInv rm.
Proof.
  induction 1 as [| path rm _ IH | branch rm _ IH | path rm _ IH
                 | links rm _ IH | x y rm rm' _ IH Hdep | b rm _ IH
                 | rm _ IH | rm w ret rm' st _ IH Hex];
    [ by apply indexInv_empty
    | by apply indexInv_snoc | by apply indexInv_snoc
    | by apply indexInv_snoc | by apply indexInv_snoc
    | by eapply indexInv_dependency | exact IH | by apply indexInv_empty | ].
  apply Execute_shape in Hex as [(_ & -> & _) | (_ & Hops & Hdeps & _)];
    [done |].
  by apply indexInv_empty.
Qed.

(** X3: [Execute] consumes the ledger: whatever a call of [Execute]
    returned, the manager has no operation left, and a further call returns
    no error, calls no action and leaves the manager, with its last error,
    as it is. *)
Theorem Execute_consumes_ledger rm (w w' : W) ret rm' st :
  Execute rm w = Some (ret, rm', st) →
  HasOperations rm' = false
  ∧ GetOperations rm' = []
  ∧ Execute rm' w' = Some (None, rm', initState rm' w')
  ∧ invocations rm' w' = [].
Proof.
  intros Hex.
  assert (operations rm' = []) as Hnil.
  { apply Execute_shape in Hex as [(? & -> & _) | (_ & ? & _)]; done. }
  unfold HasOperations, GetOperations, invocations, Execute.
  rewrite Hnil. done.
Qed.

(** *** Explicit fail-fast against the default mode *)

Lemma phase1_body_explicit_default i op st :
  match phase1_body true i op st with
  | Continue st' => phase1_body false i op st = Continue st'
  | Return e st' =>
      ∃ st1, phase1_body false i op st = Continue st1
             ∧ trace st1 = trace st'
  end.
Proof.
  unfold phase1_body. destruct (negb (Critical op)); [done |].
  destruct (shouldSkipOperation op (failed st)); [done |].
  destruct (callAction i op st) as [[err|] st1]; [| done].
  simpl. eexists. split; done.
Qed.

Lemma phase1_explicit_default ops n st :
  (n ≤ length ops)%nat →
  match phase1_loop true ops n st with
  | Continue st' => phase1_loop false ops n st = Continue st'
  | Return e st' =>
      ∃ st'', phase1_loop false ops n st = Continue st''
              ∧ trace st' `prefix_of` trace st''
  end.
Proof.
  revert st. induction n as [|i IH]; intros st Hn; simpl; [done |].
  destruct (lookup_lt_is_Some_2 ops i) as [op Hop]; [lia |].
  rewrite Hop.
  pose proof (phase1_body_explicit_default i op st) as Hbody.
  destruct (phase1_body true i op st) as [st1|e st1].
  - rewrite Hbody. apply IH. lia.
  - destruct Hbody as (st2 & -> & Ht).
    destruct (phase1_default_descend ops i st2) as (st'' & -> & Hd); [lia |].
    exists st''. split; [done |].
    apply descend_trace in Hd as (tr & -> & _).
    rewrite Ht. by apply prefix_app_r.
Qed.

Lemma finish_asDefault rm st ret rm' st' :
  finish rm st = (ret, rm', st') →
  finish (asDefault rm) st = (ret, asDefault rm', st').
Proof.
  unfold finish. destruct (0 <? length (errors st))%nat;
    by intros [= <- <- <-].
Qed.

(** A call with an explicit fail-fast either is the call of the default
    mode, or stops at the failed call of a critical operation, having made
    the calls that the default mode makes first. *)
Lemma Execute_explicit_cases rm (w : W) ret rm' st :
  failFast rm = true →
  Execute rm w = Some (ret, rm', st) →
  Execute (asDefault rm) w = Some (ret, asDefault rm', st)
  ∨ (failFastExplicitlySet rm = true
     ∧ (∃ i op err,
          operations rm !! i = Some op ∧ Critical op = true
          ∧ ret = Some (criticalFailure op err)
          ∧ (i, Some err) ∈ trace st)
     ∧ ∃ ret' rm'' st',
         Execute (asDefault rm) w = Some (ret', rm'', st')
         ∧ trace st `prefix_of` trace st').
Proof.
  intros Hff. unfold Execute. cbn [asDefault operations failFast
    failFastExplicitlySet]. rewrite Hff.
  destruct (length (operations rm) =? 0)%nat eqn:Hlen.
  { intros [= <- <- <-]. by left. }
  destruct (failFastExplicitlySet rm) eqn:Hexp.
  - pose proof (phase1_explicit_default (operations rm)
                  (length (operations rm)) (initState rm w) (le_n _)) as Hdef.
    pose proof (phase1_explicit_spec (operations rm)
                  (length (operations rm)) (initState rm w) (le_n _)) as Hspec.
    change (initState (asDefault rm) w) with (initState rm w).
    destruct (phase1_loop true _ _ _) as [st1|e st1].
    + rewrite Hdef. destruct Hspec as (Herr & _). simpl in Herr.
      rewrite Herr. simpl. intros [= Hfin]. left. f_equal.
      by apply finish_asDefault.
    + intros [= <- <- <-]. right. split; [done |].
      destruct Hspec as (i & op & err & tr & _ & Hop & Hc & -> & _ & _
                         & Ht & _).
      destruct Hdef as (st'' & -> & Hpre). split.
      * exists i, op, err. repeat split; try done.
        rewrite Ht. simpl. apply elem_of_app. right.
        by apply list_elem_of_singleton.
      * simpl. destruct (finish _ _) as [[r m] s] eqn:Hfin.
        exists r, m, s. split; [done |].
        apply finish_lastError in Hfin as (-> & _).
        etrans; [exact Hpre |].
        pose proof (phase2_descend (operations rm) (length (operations rm))
                      st'' (le_n _)) as Hd.
        apply descend_trace in Hd as (tr2 & -> & _). by apply prefix_app_r.
  - destruct (phase1_loop false _ _ _) as [st1|e st1].
    + simpl. intros [= Hfin]. left. f_equal. by apply finish_asDefault.
    + intros [= <- <- <-]. by left.
Qed.

(** X4: the mark of an explicit [SetFailFast(true)] matters only when the
    call of a critical operation fails: a call of [Execute] in which no
    critical operation's action fails returns the error, leaves the manager
    and makes the calls of the default mode. *)
Theorem explicit_equals_default_without_critical_failure
  rm (w : W) ret rm' st :
  failFast rm = true →
  Execute rm w = Some (ret, rm', st) →
  (∀ i e op, (i, Some e) ∈ trace st → operations rm !! i = Some op →
             Critical op = false) →
  Execute (asDefault rm) w = Some (ret, asDefault rm', st).
Proof.
  intros Hff Hex Hnone.
  destruct (Execute_explicit_cases _ _ _ _ _ Hff Hex)
    as [? | (_ & (i & op & err & Hop & Hc & _ & Hin) & _)]; [done |].
  rewrite (Hnone _ _ _ Hin Hop) in Hc. done.
Qed.

(** *** Without fail-fast and without dependencies *)

Lemma no_dependency_guards op st :
  DependsOn op = [] →
  shouldSkipOperation op (failed st) = false ∧ canExecute op st = true.
Proof.
  unfold shouldSkipOperation, canExecute. by intros ->.
Qed.

Lemma fold_pass_independent ops l ps :
  (∀ op, op ∈ ops → DependsOn op = []) →
  Forall (λ i, (i < length ops)%nat) l →
  let ps' := fold_left (pass_body ops) l ps in
  (trace (ps_state ps')).*1 = (trace (ps_state ps)).*1 ++ l
  ∧ ps_newRemaining ps' = ps_newRemaining ps
  ∧ (l = [] ∨ ps_progress ps' = true).
Proof.
  intros Hnone. revert ps.
  induction l as [|i rest IH]; intros ps Hl; simpl.
  { rewrite app_nil_r. auto. }
  apply Forall_cons in Hl as [Hi Hrest].
  destruct (lookup_lt_is_Some_2 ops i Hi) as [op Hop].
  destruct (no_dependency_guards op (ps_state ps)) as [Hskip Hcan].
  { apply Hnone. by eapply list_elem_of_lookup_2. }
  destruct (pass_body_cases ops ps i)
    as [[_ [Hno | (op' & Hop' & Hskip')]]
       | [(op' & Hop' & _ & _ & Ha & Hp & Hr)
         | (op' & Hop' & _ & Hcan' & _)]];
    try congruence.
  destruct (IH (pass_body ops ps i) Hrest) as (Ht & Hnew & Hprog).
  apply attempted_trace in Ha as [r Hr'].
  split; [| split].
  - rewrite Ht, Hr', fmap_app, <- app_assoc. done.
  - congruence.
  - right. destruct Hprog as [-> | ?]; [by simpl | done].
Qed.

(** X5: without fail-fast, operations that declare no dependency are
    called in the order in which they were appended, first to last, each
    one once, whatever the calls return. *)
Theorem independent_operations_run_in_insertion_order rm (w : W) :
  failFast rm = false →
  (∀ op, op ∈ operations rm → DependsOn op = []) →
  ∃ ret rm' st,
    Execute rm w = Some (ret, rm', st)
    ∧ (trace st).*1 = seq 0 (length (operations rm)).
Proof.
  intros Hff Hnone. unfold Execute. rewrite Hff.
  destruct (operations rm) as [|op0 ops0] eqn:Hops.
  { simpl. eexists _, _, _. split; [reflexivity | done]. }
  rewrite <- Hops in *.
  assert ((length (operations rm) =? 0)%nat = false) as ->.
  { rewrite Hops. done. }
  destruct (fold_pass_independent (operations rm)
              (seq 0 (length (operations rm)))
              {| ps_state := initState rm w; ps_progress := false;
                 ps_newRemaining := [] |} Hnone)
    as (Ht & Hnew & Hprog).
  { apply Forall_forall. intros i Hi%elem_of_seq. lia. }
  fold (pass (operations rm) (seq 0 (length (operations rm)))
             (initState rm w)) in Ht, Hnew, Hprog.
  simpl in Ht, Hnew.
  assert (dependency_loop (S (length (operations rm))) (operations rm)
            (seq 0 (length (operations rm))) (initState rm w)
          = Some (ps_state (pass (operations rm)
                              (seq 0 (length (operations rm)))
                              (initState rm w)))) as ->.
  { destruct (seq 0 (length (operations rm))) as [|i rest] eqn:Hseq.
    { rewrite Hops in Hseq. done. }
    cbn [dependency_loop]. rewrite Hnew. simpl. rewrite andb_false_r.
    by destruct (length (operations rm)). }
  destruct (finish rm _) as [[ret rm'] st] eqn:Hfin.
  exists ret, rm', st. split; [done |].
  apply finish_lastError in Hfin as (-> & _). done.
Qed.

(** *** Every operation is called at most once *)

Lemma descend_trace_nodup ops g n st st' :
  descend ops g n st st' →
  ∃ tr, trace st' = trace st ++ tr
        ∧ NoDup tr.*1
        ∧ Forall (λ ev, (ev.1 < n)%nat
                        ∧ ∃ op s, ops !! ev.1 = Some op ∧ g op s = true) tr.
Proof.
  induction 1 as [st|i op st st1 st' Hop Hv Hd IH].
  - exists []. rewrite app_nil_r. split; [done |]. split; constructor.
  - destruct IH as (tr & Ht & Hnd & Htr).
    assert (Forall (λ ev, (ev.1 < S i)%nat
              ∧ ∃ op s, ops !! ev.1 = Some op ∧ g op s = true) tr) as Htr'.
    { eapply Forall_impl; [exact Htr |]. intros ev [? ?]. split; [lia | done]. }
    destruct Hv as [[-> _] | (Hg & _ & r & w' & _ & _ & Ht1 & _)].
    + by exists tr.
    + exists ((i, r) :: tr). split; [| split].
      * rewrite Ht, Ht1, <- app_assoc. done.
      * simpl. constructor; [| done].
        intros (ev & Hev & Hin)%list_elem_of_fmap.
        rewrite Forall_forall in Htr. destruct (Htr _ Hin) as [Hlt _].
        simpl in Hev. lia.
      * constructor; [| done]. simpl. split; [lia |]. by exists op, st.
Qed.

Lemma NoDup_fst_prefix (tr tr' : list (nat * option error)) :
  tr `prefix_of` tr' → NoDup tr'.*1 → NoDup tr.*1.
Proof.
  intros [k ->]. rewrite fmap_app. by intros [? _]%NoDup_app.
Qed.

Lemma default_calls_once rm (w : W) ret rm' st :
  failFast rm = true → failFastExplicitlySet rm = false →
  Execute rm w = Some (ret, rm', st) →
  NoDup (trace st).*1.
Proof.
  intros Hff Hexp. unfold Execute. rewrite Hff, Hexp.
  destruct (length (operations rm) =? 0)%nat.
  { intros [= <- <- <-]. simpl. constructor. }
  destruct (phase1_default_descend (operations rm) (length (operations rm))
              (initState rm w) (le_n _)) as (st1 & -> & Hd1).
  simpl. intros [= Hfin].
  apply finish_lastError in Hfin as (-> & _).
  pose proof (phase2_descend (operations rm) (length (operations rm)) st1
                (le_n _)) as Hd2.
  apply descend_trace_nodup in Hd1 as (tr1 & Ht1 & Hnd1 & Htr1).
  apply descend_trace_nodup in Hd2 as (tr2 & Ht2 & Hnd2 & Htr2).
  rewrite Ht2, Ht1. simpl. rewrite fmap_app.
  apply NoDup_app. split; [done |]. split; [| done].
  intros j (ev1 & -> & Hin1)%list_elem_of_fmap
           (ev2 & Heq & Hin2)%list_elem_of_fmap.
  rewrite Forall_forall in Htr1, Htr2.
  destruct (Htr1 _ Hin1) as (_ & op1 & s1 & Hop1 & Hg1).
  destruct (Htr2 _ Hin2) as (_ & op2 & s2 & Hop2 & Hg2).
  rewrite Heq, Hop2 in Hop1. injection Hop1 as ->.
  unfold inPhase1 in Hg1. unfold inPhase2 in Hg2. rewrite Hg1 in Hg2. done.
Qed.

Lemma asDefault_mode rm :
  failFast rm = true →
  failFast (asDefault rm) = true
  ∧ failFastExplicitlySet (asDefault rm) = false.
Proof. done. Qed.

(** *** The world is what the recorded calls made of it *)

Lemma replay_snoc ops tr i r (w : W) op :
  ops !! i = Some op →
  replay ops (tr ++ [(i, r)]) w = (Action op (replay ops tr w)).2.
Proof.
  intros Hop. revert w. induction tr as [|ev tr IH]; intros w; simpl.
  - by rewrite Hop.
  - destruct (ops !! ev.1); apply IH.
Qed.

Lemma faithful_snoc ops tr i r (w : W) op :
  ops !! i = Some op →
  faithful ops tr w →
  (Action op (replay ops tr w)).1 = r →
  faithful ops (tr ++ [(i, r)]) w.
Proof.
  intros Hop. revert w. induction tr as [|ev tr IH]; intros w; simpl.
  - rewrite Hop. done.
  - destruct (ops !! ev.1); [| done]. intros [? ?] ?. split; [done |].
    by apply IH.
Qed.

Lemma call_replay ops (w : W) i op r w0 w' tr :
  ops !! i = Some op →
  Action op w0 = (r, w') →
  faithful ops tr w ∧ w0 = replay ops tr w →
  faithful ops (tr ++ [(i, r)]) w ∧ w' = replay ops (tr ++ [(i, r)]) w.
Proof.
  intros Hop Hact [Hf Hr]. split.
  - apply (faithful_snoc _ _ _ _ _ _ Hop Hf). by rewrite <- Hr, Hact.
  - rewrite (replay_snoc _ _ _ _ _ _ Hop), <- Hr, Hact. done.
Qed.

(** *** Induction over the calls of an [Execute]

    A property of the calls made so far and of the world they left, that
    holds at the start and is kept by each call of an operation of the
    ledger, holds when [Execute] returns. *)

Section Calls.

Variable ops : list (RollbackOperation (W:=W)).
Variable I : list (nat * option error) → W → Prop.
Hypothesis I_call :
  ∀ i op r w0 w' tr,
    ops !! i = Some op → Action op w0 = (r, w') →
    I tr w0 → I (tr ++ [(i, r)]) w'.

Lemma attempted_calls i op st st' :
  ops !! i = Some op → attempted i op st st' →
  I (trace st) (world st) → I (trace st') (world st').
Proof.
  intros Hop (r & w' & Hact & -> & -> & _). by eapply I_call.
Qed.

Lemma phase1_loop_calls explicit n st :
  (n ≤ length ops)%nat →
  I (trace st) (world st) →
  match phase1_loop explicit ops n st with
  | Continue st' | Return _ st' => I (trace st') (world st')
  end.
Proof.
  revert st. induction n as [|i IH]; intros st Hn Hinv; simpl; [done |].
  destruct (lookup_lt_is_Some_2 ops i) as [op Hop]; [lia |].
  rewrite Hop.
  assert (match phase1_body explicit i op st with
          | Continue st1 | Return _ st1 => I (trace st1) (world st1)
          end) as Hbody.
  { unfold phase1_body. destruct (negb (Critical op)); [done |].
    destruct (shouldSkipOperation op (failed st)); [done |].
    unfold callAction.
    destruct (Action op (world st)) as [[err|] w'] eqn:Hact.
    - destruct explicit; simpl; by eapply I_call.
    - simpl. by eapply I_call. }
  destruct (phase1_body explicit i op st) as [st1|e st1]; [| done].
  apply IH; [lia | done].
Qed.

Lemma fold_constraint_frame l st :
  let st' := fold_left (constraint_body ops) l st in
  trace st' = trace st ∧ world st' = world st.
Proof.
  revert st. induction l as [|i l IH]; intros st; simpl; [done |].
  destruct (IH (constraint_body ops st i)) as [-> ->].
  unfold constraint_body. by destruct (ops !! i).
Qed.

Lemma dependency_loop_calls fuel remaining st st' :
  dependency_loop fuel ops remaining st = Some st' →
  I (trace st) (world st) → I (trace st') (world st').
Proof.
  revert remaining st.
  induction fuel as [|fuel IH]; intros remaining st.
  - destruct remaining; simpl; [by intros [= ->] | done].
  - destruct remaining as [|i rest]; [by intros [= ->] |].
    cbn [dependency_loop].
    set (ps := pass ops (i :: rest) st).
    assert (I (trace st) (world st)
            → I (trace (ps_state ps)) (world (ps_state ps))) as Hps.
    { intros H. unfold ps, pass.
      apply (fold_pass_preserves (λ s, I (trace s) (world s)));
        [| done].
      intros j op s s'. apply attempted_calls. }
    destruct (negb (ps_progress ps) && _).
    + intros [= <-] H.
      destruct (fold_constraint_frame (ps_newRemaining ps) (ps_state ps))
        as [-> ->].
      by apply Hps.
    + intros Hloop H. eapply IH; [exact Hloop |]. by apply Hps.
Qed.

End Calls.

Lemma Execute_calls (I : list (nat * option error) → W → Prop)
  rm (w : W) ret rm' st :
  (∀ i op r w0 w' tr,
     operations rm !! i = Some op → Action op w0 = (r, w') →
     I tr w0 → I (tr ++ [(i, r)]) w') →
  I [] w →
  Execute rm w = Some (ret, rm', st) →
  I (trace st) (world st).
Proof.
  intros Hcall Hinit. unfold Execute.
  destruct (length (operations rm) =? 0)%nat.
  { by intros [= <- <- <-]. }
  destruct (failFast rm).
  - pose proof (phase1_loop_calls (operations rm) I Hcall
                  (failFastExplicitlySet rm) (length (operations rm))
                  (initState rm w) (le_n _) Hinit) as H1.
    destruct (phase1_loop _ _ _ _) as [st1|e st1].
    + assert (∀ s, finish rm s = (ret, rm', st) → s = st) as Hfin.
      { intros s Hs. by apply finish_lastError in Hs as (-> & _). }
      destruct (negb _ || _); intros [= Hs]; apply Hfin in Hs as <-;
        [| done].
      pose proof (phase2_descend (operations rm) (length (operations rm))
                    st1 (le_n _)) as Hd.
      eapply (descend_preserves (λ s, I (trace s) (world s)));
        [| exact Hd | exact H1].
      intros i op s s'. by apply attempted_calls.
    + by intros [= <- <- <-].
  - destruct (dependency_loop _ _ _ _) as [s|] eqn:Hloop; [| done].
    intros [= Hfin]. apply finish_lastError in Hfin as (-> & _).
    by eapply dependency_loop_calls.
Qed.

(** X7: in every mode the actions are called one after the other, each in
    the world the calls before it left: the recorded results are the
    results of the actions replayed in call order from the initial world,
    and the final world is the world after this replay. *)
Theorem world_is_replay_of_calls rm (w : W) ret rm' st :
  Execute rm w = Some (ret, rm', st) →
  faithful (operations rm) (trace st) w
  ∧ world st = replay (operations rm) (trace st) w.
Proof.
  apply (Execute_calls
           (λ tr w', faithful (operations rm) tr w
                     ∧ w' = replay (operations rm) tr w)); [| done].
  intros i op r w0 w' tr. apply call_replay.
Qed.

Lemma Execute_calls_valid rm (w : W) ret rm' st j r :
  Execute rm w = Some (ret, rm', st) →
  (j, r) ∈ trace st → is_Some (operations rm !! j).
Proof.
  intros Hex Hin.
  eapply (Execute_calls
            (λ tr _, ∀ j r, (j, r) ∈ tr → is_Some (operations rm !! j))
            rm w ret rm' st); [| | exact Hex | exact Hin].
  - intros i op r0 w0 w' tr Hop _ Hinv j' r'.
    intros [? | [= -> ->]%list_elem_of_singleton]%elem_of_app; eauto.
  - by intros j' r' ?%elem_of_nil.
Qed.

Lemma Execute_calls_once rm (w : W) ret rm' st :
  wf_ledger (operations rm) →
  Execute rm w = Some (ret, rm', st) →
  NoDup (trace st).*1.
Proof.
  intros Hwf Hex.
  destruct (failFast rm) eqn:Hff.
  - destruct (Execute_explicit_cases _ _ _ _ _ Hff Hex)
      as [Hdef | (_ & _ & ret' & rm'' & st' & Hdef & Hpre)].
    + by eapply (default_calls_once (asDefault rm)).
    + eapply NoDup_fst_prefix; [exact Hpre |].
      by eapply (default_calls_once (asDefault rm)).
  - destruct (decide (operations rm = [])) as [Hnil | Hne].
    { unfold Execute in Hex. rewrite Hnil in Hex. simpl in Hex.
      injection Hex as <- <- <-. constructor. }
    destruct (Execute_dependency rm w Hff Hwf Hne)
      as (st_p & rem_p & Hinv & Hwait & Heq).
    rewrite Heq in Hex. injection Hex as Hfin.
    apply finish_lastError in Hfin as (-> & _).
    by apply (dependency_final _ _ _ Hwf Hinv Hwait).
Qed.

(** X6: in every mode, a call of [Execute] calls the action of no operation
    twice, and calls only actions of operations of the ledger. *)
Theorem every_operation_called_at_most_once rm (w : W) :
  wf_ledger (operations rm) →
  NoDup (invocations rm w).*1
  ∧ ∀ j r, (j, r) ∈ invocations rm w → (j < length (operations rm))%nat.
Proof.
  intros Hwf. unfold invocations.
  destruct (Execute rm w) as [[[ret rm'] st]|] eqn:Hex.
  - split; [by eapply Execute_calls_once |].
    intros j r Hin. apply lookup_lt_is_Some.
    by eapply Execute_calls_valid.
  - split; [constructor | by intros j r ?%elem_of_nil].
Qed.

(** *** No call after the failure of a dependency *)

Lemma neverAfterFailure_prefix ops (tr tr' : list (nat * option error)) :
  tr `prefix_of` tr' → neverAfterFailure ops tr' → neverAfterFailure ops tr.
Proof.
  intros Hpre Hnever k k' x y r e op Hk Hop Hk' Hlt.
  apply (Hnever k k' x y r e op); [| done | | done];
    by eapply prefix_lookup_Some.
Qed.

Lemma depsBefore_never ops (tr : list (nat * option error)) :
  depsBefore ops tr → NoDup tr.*1 → neverAfterFailure ops tr.
Proof.
  intros Hdeps Hnd k k' x y r e op Hk Hop Hk' Hlt Hin.
  destruct (Hdeps _ _ _ _ _ Hk Hop Hin) as (k'' & j & _ & Hk'' & Hj).
  apply Nat2Z.inj in Hj as <-.
  assert (k' = k'') as <-.
  { eapply NoDup_lookup; [exact Hnd | |]; rewrite list_lookup_fmap.
    - by rewrite Hk'.
    - by rewrite Hk''. }
  congruence.
Qed.

Lemma visit_never ops g i op st st' :
  wf_ledger ops → ops !! i = Some op →
  visit g i op st st' →
  neverAfterFailure ops (trace st) ∧ failedInv st →
  neverAfterFailure ops (trace st') ∧ failedInv st'.
Proof.
  intros Hwf Hop [[-> _] | (_ & Hskip & Ha)] [Hnever Hf]; [done |].
  split; [| by eapply attempted_failedInv].
  destruct Ha as (r & w' & _ & _ & Ht & _). rewrite Ht.
  intros k k' x y r0 e op0 Hk Hop0 Hk' Hlt Hin.
  apply lookup_app_Some in Hk as [Hk | [Hlen Hk]].
  - pose proof (lookup_lt_Some _ _ _ Hk).
    rewrite lookup_app_l in Hk' by lia.
    exact (Hnever _ _ _ _ _ _ _ Hk Hop0 Hk' Hlt Hin).
  - apply list_lookup_singleton_Some in Hk as [Hk [= <- <-]].
    rewrite lookup_app_l in Hk' by lia.
    rewrite Hop in Hop0. injection Hop0 as <-.
    apply not_true_iff_false in Hskip. apply Hskip, shouldSkip_true.
    exists (Z.of_nat y). split; [done |]. apply Hf.
    exists y, e. split; [| done]. by eapply list_elem_of_lookup_2.
Qed.

Lemma descend_never ops g n st st' :
  wf_ledger ops →
  descend ops g n st st' →
  neverAfterFailure ops (trace st) ∧ failedInv st →
  neverAfterFailure ops (trace st') ∧ failedInv st'.
Proof.
  intros Hwf. induction 1 as [|i op st st1 st' Hop Hv Hd IH]; [done |].
  intros Hinv. apply IH. by eapply visit_never.
Qed.

Lemma default_never rm (w : W) ret rm' st :
  failFast rm = true → failFastExplicitlySet rm = false →
  wf_ledger (operations rm) →
  Execute rm w = Some (ret, rm', st) →
  neverAfterFailure (operations rm) (trace st).
Proof.
  intros Hff Hexp Hwf. unfold Execute. rewrite Hff, Hexp.
  destruct (length (operations rm) =? 0)%nat.
  { intros [= <- <- <-]. by intros k k' x y r e op [=]. }
  destruct (phase1_default_descend (operations rm) (length (operations rm))
              (initState rm w) (le_n _)) as (st1 & -> & Hd1).
  simpl. intros [= Hfin].
  apply finish_lastError in Hfin as (-> & _).
  pose proof (phase2_descend (operations rm) (length (operations rm)) st1
                (le_n _)) as Hd2.
  eapply descend_never; [done | exact Hd2 |].
  eapply descend_never; [done | exact Hd1 |].
  split; [by intros k k' x y r e op [=] |].
  apply (initState_coherent (operations rm) rm w).
Qed.

(** X8: in every mode, once the call of an operation has failed, no
    operation that depends on it is called in the rest of the [Execute]. *)
Theorem no_call_after_failed_dependency rm (w : W) :
  wf_ledger (operations rm) →
  neverAfterFailure (operations rm) (invocations rm w).
Proof.
  intros Hwf. unfold invocations.
  destruct (Execute rm w) as [[[ret rm'] st]|] eqn:Hex;
    [| by intros k k' x y r e op [=]].
  destruct (failFast rm) eqn:Hff.
  - destruct (Execute_explicit_cases _ _ _ _ _ Hff Hex)
      as [Hdef | (_ & _ & ret' & rm'' & st' & Hdef & Hpre)].
    + by eapply (default_never (asDefault rm)).
    + eapply neverAfterFailure_prefix; [exact Hpre |].
      by eapply (default_never (asDefault rm)).
  - destruct (decide (operations rm = [])) as [Hnil | Hne].
    { unfold Execute in Hex. rewrite Hnil in Hex. simpl in Hex.
      injection Hex as <- <- <-. by intros k k' x y r e op [=]. }
    destruct (Execute_dependency rm w Hff Hwf Hne)
      as (st_p & rem_p & Hinv & Hwait & Heq).
    rewrite Heq in Hex. injection Hex as Hfin.
    apply finish_lastError in Hfin as (-> & _).
    destruct (dependency_final _ _ _ Hwf Hinv Hwait) as (Hdeps & Hnd & _).
    by apply depsBefore_never.
Qed.

(** *** When [Execute] reports no error *)

Lemma finish_None rm st ret rm' st' :
  finish rm st = (ret, rm', st') → ret = None ↔ errors st = [].
Proof.
  intros (_ & _ & _ & _ & Hnone & Hsome)%finish_lastError.
  destruct (errors st) as [|e es] eqn:He.
  - split; [done |]. intros _. by apply Hnone.
  - split; [| done]. intros ->. by specialize (Hsome ltac:(done)).
Qed.

Lemma trace_errors_nonempty ops (tr : list (nat * option error)) :
  trace_errors ops tr ≠ [] → ∃ j e, (j, Some e) ∈ tr.
Proof.
  destruct (trace_errors ops tr) as [|e0 es] eqn:He; [done |]. intros _.
  assert (e0 ∈ trace_errors ops tr) as Hin by (rewrite He; by left).
  apply list_elem_of_omap in Hin as ([j [e|]] & Hin & Hf); [| done].
  eauto.
Qed.

Lemma dependency_loop_spec_with (I : ExecState (W:=W) → Prop)
  ops fuel remaining st st' :
  wf_ledger ops →
  (∀ i op s s', ops !! i = Some op → attempted i op s s' → I s → I s') →
  depInv ops st remaining → I st →
  dependency_loop fuel ops remaining st = Some st' →
  ∃ st_p rem_p,
    depInv ops st_p rem_p ∧ waiting ops st_p rem_p ∧ I st_p
    ∧ st' = fold_left (constraint_body ops) rem_p st_p.
Proof.
  intros Hwf Hatt. revert remaining st.
  induction fuel as [|fuel IH]; intros remaining st Hinv HI.
  - destruct remaining; simpl; [| done]. intros [= <-].
    exists st, []. split; [done |]. split; [| done].
    by intros j ?%elem_of_nil.
  - destruct remaining as [|i rest].
    { intros [= <-]. exists st, []. split; [done |]. split; [| done].
      by intros j ?%elem_of_nil. }
    cbn [dependency_loop].
    destruct (fold_pass_inv ops st (i :: rest)
                {| ps_state := st; ps_progress := false;
                   ps_newRemaining := [] |} Hwf) as [Hinv' Hpass].
    { simpl. by rewrite app_nil_r. }
    { intros _. simpl. split; [done |]. by intros j ?%elem_of_nil. }
    pose proof (fold_pass_preserves I ops (i :: rest)
                  {| ps_state := st; ps_progress := false;
                     ps_newRemaining := [] |} Hatt HI) as HI'.
    fold (pass ops (i :: rest) st) in Hinv', Hpass, HI'.
    set (ps := pass ops (i :: rest) st) in *.
    destruct (negb (ps_progress ps) && _) eqn:Hstop.
    + intros [= <-]. apply andb_true_iff in Hstop as [Hp _].
      apply negb_true_iff in Hp. destruct (Hpass Hp) as [Hst Hnew].
      exists (ps_state ps), (ps_newRemaining ps).
      split; [done |]. split; [| done]. unfold waiting. by rewrite Hst.
    + intros Hloop. eapply IH; eauto.
Qed.

(** Without fail-fast: the state the passes left is coherent with the
    calls, and the operations given up on were not called. *)
Lemma Execute_dependency_coherent rm (w : W) ret rm' st :
  failFast rm = false →
  wf_ledger (operations rm) →
  Execute rm w = Some (ret, rm', st) →
  ∃ st_p rem_p,
    depInv (operations rm) st_p rem_p
    ∧ waiting (operations rm) st_p rem_p
    ∧ coherent (operations rm) st_p
    ∧ st = fold_left (constraint_body (operations rm)) rem_p st_p
    ∧ (ret = None ↔ errors st = []).
Proof.
  intros Hff Hwf. unfold Execute. rewrite Hff.
  destruct (length (operations rm) =? 0)%nat eqn:Hlen.
  { intros [= <- <- <-]. exists (initState rm w), [].
    split; [| split; [| split]].
    - apply Nat.eqb_eq in Hlen.
      pose proof (initState_depInv (operations rm) rm w) as Hinit.
      by rewrite Hlen in Hinit.
    - by intros j ?%elem_of_nil.
    - apply initState_coherent.
    - done. }
  destruct (dependency_loop _ _ _ _) as [s|] eqn:Hloop; [| done].
  intros [= Hfin].
  destruct (dependency_loop_spec_with (coherent (operations rm)) _ _ _ _ _
              Hwf ltac:(intros i op s0 s'; by apply attempted_coherent)
              (initState_depInv (operations rm) rm w)
              (initState_coherent (operations rm) rm w) Hloop)
    as (st_p & rem_p & ? & ? & ? & ->).
  exists st_p, rem_p. pose proof (finish_None _ _ _ _ _ Hfin) as Hnone.
  apply finish_lastError in Hfin as (-> & _). done.
Qed.

Lemma default_success_calls_all rm (w : W) rm' st i :
  failFast rm = true → failFastExplicitlySet rm = false →
  wf_ledger (operations rm) →
  Execute rm w = Some (None, rm', st) →
  (i < length (operations rm))%nat → (i, None) ∈ trace st.
Proof.
  intros Hff Hexp Hwf Hex Hi.
  destruct (lookup_lt_is_Some_2 _ _ Hi) as [op Hop].
  assert (operations rm ≠ []) as Hne.
  { intros Hnil. by rewrite Hnil in Hop. }
  destruct (Execute_default rm w Hff Hexp Hwf Hne)
    as (st1 & st2 & Hd1 & Hd2 & Hc1 & Hc2 & Heq).
  rewrite Heq in Hex. injection Hex as Hfin.
  pose proof (proj1 (finish_None _ _ _ _ _ Hfin) eq_refl) as Herr.
  apply finish_lastError in Hfin as (-> & _).
  destruct Hc2 as (Hf2 & _ & _ & Hempty). specialize (Hempty Herr).
  assert (∃ r, (i, r) ∈ trace st2) as [r Hin].
  { destruct (Critical op) eqn:Hc.
    - destruct (descend_attempts_all _ _ _ _ _ _ _ Hd1 Hi Hop Hc)
        as [[r Hr] | (d & _ & Hd)].
      + exists r. by eapply descend_trace_mono.
      + apply (descend_failed_mono _ _ _ _ _ Hd2) in Hd.
        rewrite Hempty in Hd. by apply not_elem_of_empty in Hd.
    - destruct (descend_attempts_all _ _ _ _ _ _ _ Hd2 Hi Hop Hc)
        as [? | (d & _ & Hd)]; [done |].
      rewrite Hempty in Hd. by apply not_elem_of_empty in Hd. }
  destruct r as [e|]; [| done].
  assert (Z.of_nat i ∈ failed st2) as Hbad by (apply Hf2; eauto).
  rewrite Hempty in Hbad. by apply not_elem_of_empty in Hbad.
Qed.

Lemma success_calls_all rm (w : W) rm' st i :
  wf_ledger (operations rm) →
  Execute rm w = Some (None, rm', st) →
  (i < length (operations rm))%nat → (i, None) ∈ trace st.
Proof.
  intros Hwf Hex Hi.
  destruct (failFast rm) eqn:Hff.
  - destruct (Execute_explicit_cases _ _ _ _ _ Hff Hex)
      as [Hdef | (_ & (? & ? & ? & _ & _ & [=] & _) & _)].
    by eapply (default_success_calls_all (asDefault rm)).
  - destruct (Execute_dependency_coherent _ _ _ _ _ Hff Hwf Hex)
      as (st_p & rem_p & Hinv & Hwait & Hcoh & -> & Hnone).
    pose proof (proj1 Hnone eq_refl) as Herr.
    destruct (lookup_lt_is_Some_2 _ _ Hi) as [op Hop].
    assert (∀ j, j ∈ rem_p → is_Some (operations rm !! j)) as Hvalid.
    { intros j Hj. destruct (Hwait j Hj) as (opj & ? & _). eauto. }
    destruct (fold_constraint_spec (operations rm) rem_p st_p Hwf Hvalid)
      as (Ht & _ & _ & _ & Hcon & Hpre).
    assert (rem_p = []) as ->.
    { destruct rem_p as [|j l]; [done |].
      destruct (Hvalid j ltac:(by left)) as [opj Hopj].
      specialize (Hcon j opj ltac:(by left) Hopj).
      rewrite Herr in Hcon. by apply elem_of_nil in Hcon. }
    simpl in *.
    destruct Hcoh as (Hf & _ & _ & Hempty). specialize (Hempty Herr).
    destruct (dep_covered _ _ _ Hinv i op Hop)
      as [?%elem_of_nil | [[r Hin] | (d & _ & Hd)]]; [done | |].
    + destruct r as [e|]; [| done].
      assert (Z.of_nat i ∈ failed st_p) as Hbad by (apply Hf; eauto).
      rewrite Hempty in Hbad. by apply not_elem_of_empty in Hbad.
    + rewrite Hempty in Hd. by apply not_elem_of_empty in Hd.
Qed.

(** X9: in every mode [Execute] returns no error exactly when it has
    called every operation of the ledger and every call has succeeded: a
    nil result is a complete rollback. *)
Theorem success_iff_every_call_succeeded rm (w : W) ret rm' st :
  wf_ledger (operations rm) →
  Execute rm w = Some (ret, rm', st) →
  ret = None
  ↔ ∀ i, (i < length (operations rm))%nat → (i, None) ∈ trace st.
Proof.
  intros Hwf Hex. split.
  { intros ->. intros i. by eapply success_calls_all. }
  intros Hall.
  assert (∀ j e, (j, Some e) ∉ trace st) as Hnofail.
  { intros j e Hin.
    pose proof (Execute_calls_valid _ _ _ _ _ _ _ Hex Hin) as Hj.
    apply lookup_lt_is_Some in Hj.
    pose proof (NoDup_fst_functional _ _ _ _
                  (Execute_calls_once _ _ _ _ _ Hwf Hex) Hin (Hall j Hj)).
    done. }
  assert (trace_errors (operations rm) (trace st) = []) as Hnoerr.
  { destruct (decide (trace_errors (operations rm) (trace st) = []))
      as [? | (j & e & Hin)%trace_errors_nonempty]; [done |].
    by apply Hnofail in Hin. }
  destruct (failFast rm) eqn:Hff.
  - destruct (Execute_explicit_cases _ _ _ _ _ Hff Hex)
      as [Hdef | (_ & (j & ? & e & _ & _ & _ & Hin) & _)];
      [| by apply Hnofail in Hin].
    destruct (decide (operations rm = [])) as [Hnil | Hne].
    { unfold Execute in Hex. rewrite Hnil in Hex. simpl in Hex.
      by injection Hex as <- <- <-. }
    destruct (Execute_default (asDefault rm) w Hff eq_refl Hwf Hne)
      as (st1 & st2 & _ & _ & _ & Hc2 & Heq).
    rewrite Heq in Hdef. injection Hdef as Hfin.
    apply (finish_None _ _ _ _ _ Hfin).
    apply finish_lastError in Hfin as (-> & _).
    destruct Hc2 as (_ & _ & -> & _). done.
  - destruct (Execute_dependency_coherent _ _ _ _ _ Hff Hwf Hex)
      as (st_p & rem_p & Hinv & Hwait & Hcoh & -> & Hnone).
    apply Hnone.
    destruct (fold_constraint_frame (operations rm) rem_p st_p)
      as [Ht _].
    assert (rem_p = []) as ->.
    { destruct rem_p as [|j l]; [done |].
      destruct (Hwait j ltac:(by left)) as (opj & Hopj & _).
      apply lookup_lt_Some in Hopj. specialize (Hall j Hopj).
      rewrite Ht in Hall.
      destruct (dep_trace_pending _ _ _ Hinv _ _ Hall). by left. }
    simpl in *. destruct Hcoh as (_ & _ & -> & _). done.
Qed.

(** X10: [AddDependency] does not check the operation depended on.
    Without fail-fast, an operation with a dependency that is not the ID of
    an operation of the ledger, or that is its own ID, is never called, and
    [Execute] returns an error. *)
Theorem unsatisfiable_dependency_blocks rm (w : W) (x : nat) op (d : Z) :
  failFast rm = false →
  wf_ledger (operations rm) →
  operations rm !! x = Some op →
  d ∈ DependsOn op →
  d < 0 ∨ Z.of_nat (length (operations rm)) ≤ d ∨ d = Z.of_nat x →
  ∃ ret rm' st,
    Execute rm w = Some (ret, rm', st)
    ∧ ret ≠ None
    ∧ ∀ r, (x, r) ∉ trace st.
Proof.
  intros Hff Hwf Hop Hd Hbad.
  destruct (Execute_total rm w) as [[[ret rm'] st] Hex].
  exists ret, rm', st. split; [done |].
  assert (∀ r, (x, r) ∉ trace st) as Hnot.
  { intros r Hin.
    destruct (Execute_dependency_coherent _ _ _ _ _ Hff Hwf Hex)
      as (st_p & rem_p & Hinv & Hwait & _ & Hst & _).
    destruct (fold_constraint_frame (operations rm) rem_p st_p)
      as [Ht _].
    rewrite <- Hst in Ht.
    apply list_elem_of_lookup in Hin as [k Hk].
    rewrite Ht in Hk.
    destruct (dep_before _ _ _ Hinv _ _ _ _ _ Hk Hop Hd)
      as (k' & j & Hlt & Hk' & ->).
    assert ((j, None) ∈ trace st) as Hj.
    { rewrite Ht. by eapply list_elem_of_lookup_2. }
    apply (Execute_calls_valid _ _ _ _ _ _ _ Hex), lookup_lt_is_Some in Hj.
    destruct Hbad as [? | [? | Heq]]; [lia | lia |].
    apply Nat2Z.inj in Heq as ->.
    assert (k' = k); [| lia].
    eapply NoDup_lookup; [exact (dep_trace_nodup _ _ _ Hinv) | |];
      rewrite list_lookup_fmap.
    - by rewrite Hk'.
    - by rewrite Hk. }
  split; [| done]. intros ->.
  apply (Hnot None). eapply success_calls_all; eauto.
  by eapply lookup_lt_Some.
Qed.

End Invariants.

End RollbackMoreProofs.

(** ** Further properties of the lock manager *)

Module LockMoreProofs.

Import Lock LockSpec LockMore LockProofs.

(** *** The record of a lock file read back *)

Ltac eval_digit :=
  match goal with
  | |- context [digit ?c] =>
      let v := eval vm_compute in (digit c) in change (digit c) with v
  end; cbv iota beta.

Lemma parseDigits_uint_acc (d : Decimal.uint) (acc : positive) :
  parseDigits (Z.pos acc) (NilEmpty.string_of_uint d)
  = Some (Z.pos (Pos.of_uint_acc d acc)).
Proof.
  revert acc.
  induction d; intros acc;
    cbn [NilEmpty.string_of_uint parseDigits Pos.of_uint_acc]; [done | ..];
    eval_digit;
    match goal with
    | |- parseDigits ?z _ = Some (Z.pos (Pos.of_uint_acc _ ?p)) =>
        replace z with (Z.pos p) by lia
    end; apply IHd.
Qed.

Lemma parseDigits_uint (d : Decimal.uint) :
  parseDigits 0 (NilEmpty.string_of_uint d) = Some (Z.of_N (Pos.of_uint d)).
Proof.
  induction d; cbn [NilEmpty.string_of_uint parseDigits Pos.of_uint];
    [done | ..]; eval_digit; [exact IHd | ..];
    cbn [Z.mul Z.add Z.of_N]; apply parseDigits_uint_acc.
Qed.

Lemma parseDigits_pos (p : positive) :
  parseDigits 0 (NilEmpty.string_of_uint (Pos.to_uint p)) = Some (Z.pos p).
Proof. by rewrite parseDigits_uint, DecimalPos.Unsigned.of_to. Qed.

(** A string of decimal digits holds no line break. *)
Lemma Split_digits (acc : Z) (a rest : string) (n : Z) :
  parseDigits acc a = Some n →
  strings_Split "010" (a +:+ String "010" rest)
  = a :: strings_Split "010" rest.
Proof.
  revert acc. induction a as [|c a IH]; intros acc; [done |].
  cbn [parseDigits]. destruct (digit c) as [d|] eqn:Hd; [| done].
  intros Hparse. rewrite append_cons. cbn [strings_Split].
  destruct (Ascii.eqb c "010") eqn:Hc.
  { apply Ascii.eqb_eq in Hc as ->. done. }
  by rewrite (IH _ Hparse).
Qed.

Lemma string_of_uint_nonempty (d : Decimal.uint) :
  d ≠ Decimal.Nil →
  ∃ c s, NilEmpty.string_of_uint d = String c s
         ∧ c ≠ "-"%char ∧ c ≠ "+"%char.
Proof. destruct d; [done | ..]; intros _; eexists _, _; by repeat split. Qed.

Lemma fmt_dZ_cases (n : Z) :
  ∃ body c s,
    body = String c s ∧ c ≠ "-"%char ∧ c ≠ "+"%char
    ∧ parseDigits 0 body = Some (Z.abs n)
    ∧ fmt_dZ n = (if n <? 0 then String "-" body else body).
Proof.
  unfold fmt_dZ. destruct n as [|p|p]; cbn [Z.to_int NilZero.string_of_int].
  - exists "0", "0"%char, "". by repeat split.
  - destruct (string_of_uint_nonempty (Pos.to_uint p))
      as (c & s & Heq & ? & ?); [apply DecimalPos.Unsigned.to_uint_nonnil |].
    exists (NilEmpty.string_of_uint (Pos.to_uint p)), c, s.
    split; [done |]. split; [done |]. split; [done |].
    split; [apply parseDigits_pos |].
    unfold NilZero.string_of_uint.
    by destruct (Pos.to_uint p).
  - destruct (string_of_uint_nonempty (Pos.to_uint p))
      as (c & s & Heq & ? & ?); [apply DecimalPos.Unsigned.to_uint_nonnil |].
    exists (NilEmpty.string_of_uint (Pos.to_uint p)), c, s.
    split; [done |]. split; [done |]. split; [done |].
    split; [apply parseDigits_pos |].
    unfold NilZero.string_of_uint.
    by destruct (Pos.to_uint p).
Qed.

Lemma Atoi_fmt_dZ (n : Z) :
  - 2 ^ 63 ≤ n ≤ 2 ^ 63 - 1 → strconv_Atoi (fmt_dZ n) = Some n.
Proof.
  intros Hn. destruct (fmt_dZ_cases n) as (body & c & s & -> & Hm & Hp & Hparse & ->).
  unfold strconv_Atoi.
  destruct (n <? 0) eqn:Hneg.
  - apply Z.ltb_lt in Hneg. rewrite Hparse.
    assert ((- 2 ^ 63 <=? - Z.abs n) && (- Z.abs n <=? 2 ^ 63 - 1) = true) as ->.
    { apply andb_true_iff. split; apply Z.leb_le; lia. }
    f_equal. lia.
  - apply Z.ltb_ge in Hneg.
    assert (match String c s with
            | String "-" rest => (true, rest)
            | String "+" rest => (false, rest)
            | _ => (false, String c s)
            end = (false, String c s)) as ->.
    { destruct c as [[] [] [] [] [] [] [] []]; try done. }
    rewrite Hparse.
    assert ((- 2 ^ 63 <=? Z.abs n) && (Z.abs n <=? 2 ^ 63 - 1) = true) as ->.
    { apply andb_true_iff. split; apply Z.leb_le; lia. }
    f_equal. lia.
Qed.

Lemma pidOfLine_pid (digits : string) :
  digits ≠ "" → pidOfLine ("pid=" +:+ digits) = strconv_Atoi digits.
Proof.
  intros Hne. unfold pidOfLine.
  rewrite !append_cons, append_nil.
  destruct digits as [|c s]; [done |].
  cbn [String.length substring Nat.sub].
  rewrite substring_all. done.
Qed.

Lemma Split_cons (c : ascii) (s first : string) (others : list string) :
  c ≠ "010"%char →
  strings_Split "010" s = first :: others →
  strings_Split "010" (String c s) = String c first :: others.
Proof.
  intros Hc Hs. cbn [strings_Split]. rewrite Hs.
  destruct (Ascii.eqb c "010") eqn:Heq; [| done].
  by apply Ascii.eqb_eq in Heq.
Qed.

Lemma Split_fmt_dZ (n : Z) (rest : string) :
  strings_Split "010" (fmt_dZ n +:+ String "010" rest)
  = fmt_dZ n :: strings_Split "010" rest.
Proof.
  destruct (fmt_dZ_cases n) as (body & c & s & _ & _ & _ & Hparse & ->).
  destruct (n <? 0).
  - rewrite append_cons. apply Split_cons; [done |].
    by eapply Split_digits.
  - by eapply Split_digits.
Qed.

Lemma fmt_dZ_nonempty (n : Z) : fmt_dZ n ≠ "".
Proof.
  destruct (fmt_dZ_cases n) as (body & c & s & -> & _ & _ & _ & ->).
  by destruct (n <? 0).
Qed.

Section Acquire.

Variable env : Env.

Lemma extractPID_record (ol : OperationLock) (now : Z) :
  - 2 ^ 63 ≤ pid ol ≤ 2 ^ 63 - 1 →
  extractPIDFromLockInfo (lockRecord env ol now) = pid ol.
Proof.
  intros Hpid. unfold extractPIDFromLockInfo, lockRecord, newline.
  rewrite !append_cons, !append_nil.
  rewrite (Split_cons "p" _ (String "i" (String "d" (String "="
             (fmt_dZ (pid ol))))) (strings_Split "010"
             ("operation=" +:+ operation ol
              +:+ String "010" ("time=" +:+ time_RFC3339 env now
                                 +:+ String "010" "")))).
  - cbn [firstPid].
    change (String "p" (String "i" (String "d" (String "=" (fmt_dZ (pid ol))))))
      with ("pid=" +:+ fmt_dZ (pid ol)).
    rewrite pidOfLine_pid by apply fmt_dZ_nonempty.
    by rewrite Atoi_fmt_dZ.
  - done.
  - do 3 (apply Split_cons; [done |]).
    rewrite !append_cons, !append_nil. apply Split_fmt_dZ.
Qed.


(** X11: the record that [acquire] writes into a lock file names its
    writer.  [extractPIDFromLockInfo] reads back the PID of the lock,
    whatever the operation and the time in the record are; so a lock file
    that holds the record of a process is stale exactly when the probe of
    the platform does not find this process. *)
Theorem record_names_its_writer (holder : OperationLock) (now : Z) :
  0 < pid holder ≤ 2 ^ 63 - 1 →
  extractPIDFromLockInfo (lockRecord env holder now) = pid holder
  ∧ ∀ ol m,
      files m !! lockPath ol = Some (lockRecord env holder now) →
      fault env OpRead (lockPath ol) = None →
      (isLockStale env ol m).1 = negb (alive env (pid holder)).
Proof.
  intros Hpid. split; [apply extractPID_record; lia |].
  intros ol m Hfile Hread.
  unfold isLockStale, readLockInfo, os_ReadFile, alive.
  rewrite Hread, Hfile, extractPID_record by lia.
  destruct (0 <? pid holder) eqn:Hpos; [| apply Z.ltb_ge in Hpos; lia].
  by destruct (windows env).
Qed.

(** *** One iteration of the loop of [acquire] *)

Lemma open_result path m :
  ∃ r m', os_OpenFile_excl env path m = (r, m')
    ∧ clock m' = clock m ∧ frame m m'
    ∧ match r with
      | None =>
          fault env OpCreate path = None ∧ files m !! path = None
          ∧ files m' = <[path := ""]> (files m)
      | Some e =>
          files m' = files m
          ∧ (fault env OpCreate path = Some e
             ∨ (fault env OpCreate path = None ∧ e = ErrExist path
                ∧ is_Some (files m !! path)))
      end.
Proof.
  unfold os_OpenFile_excl.
  destruct (fault env OpCreate path) as [e|] eqn:Hf.
  { eexists _, _. split; [done |]. repeat split. by left. }
  destruct (files m !! path) as [c|] eqn:Hp.
  - eexists _, _. split; [done |]. repeat split. right. eauto.
  - eexists _, _. split; [done |]. by repeat split.
Qed.

Lemma write_result path data m :
  ∃ r m', file_WriteString env path data m = (r, m')
    ∧ clock m' = clock m ∧ frame m m'
    ∧ match r with
      | None =>
          fault env OpWrite path = None
          ∧ files m'
            = <[path := default "" (files m !! path) +:+ data]> (files m)
      | Some e => files m' = files m
      end.
Proof.
  unfold file_WriteString.
  destruct (fault env OpWrite path) as [e|] eqn:Hf;
    eexists _, _; (split; [done |]); by repeat split.
Qed.

Lemma remove_result path m :
  ∃ r m', os_Remove env path m = (r, m')
    ∧ clock m' = clock m ∧ frame m m'
    ∧ match r with
      | None =>
          fault env OpRemove path = None
          ∧ is_Some (files m !! path)
          ∧ files m' = delete path (files m)
      | Some e =>
          files m' = files m
          ∧ (fault env OpRemove path = Some e
             ∨ (fault env OpRemove path = None ∧ files m !! path = None
                ∧ e = ErrNotExist path))
      end.
Proof.
  unfold os_Remove.
  destruct (fault env OpRemove path) as [e|] eqn:Hf.
  { eexists _, _. split; [done |]. repeat split. by left. }
  destruct (files m !! path) as [c|] eqn:Hp.
  - eexists _, _. split; [done |]. repeat split. eauto.
  - eexists _, _. split; [done |]. split; [done |]. split; [done |].
    split; [done |]. by right.
Qed.

Lemma close_result path m :
  ∃ r m', file_Close env path m = (r, m')
    ∧ r = fault env OpClose path
    ∧ clock m' = clock m ∧ frame m m' ∧ files m' = files m.
Proof. eexists _, _. by repeat split. Qed.

Lemma read_result ol m :
  ∃ r m', readLockInfo env ol m = (r, m')
    ∧ clock m' = clock m ∧ frame m m' ∧ files m' = files m
    ∧ (fault env OpRead (lockPath ol) = None →
       r = match files m !! lockPath ol with
           | Some c => inl c
           | None => inr (ErrNotExist (lockPath ol))
           end).
Proof.
  unfold readLockInfo, os_ReadFile.
  destruct (fault env OpRead (lockPath ol)) as [e|] eqn:Hf.
  { eexists _, _. split; [done |]. by repeat split. }
  destruct (files m !! lockPath ol) as [c|];
    eexists _, _; (split; [done |]); by repeat split.
Qed.

Lemma stale_result ol m :
  ∃ r m', isLockStale env ol m = (r, m')
    ∧ clock m' = clock m ∧ frame m m' ∧ files m' = files m
    ∧ (fault env OpRead (lockPath ol) = None →
       r = match files m !! lockPath ol with
           | Some c =>
               negb (0 <? extractPIDFromLockInfo c)
               || negb (alive env (extractPIDFromLockInfo c))
           | None => true
           end).
Proof.
  unfold isLockStale.
  destruct (read_result ol m) as (r & m' & -> & Hc & Hfr & Hfs & Hr).
  destruct r as [c | e].
  - destruct (0 <? extractPIDFromLockInfo c) eqn:Hpos;
      [destruct (windows env) eqn:Hwin |];
      (eexists _, _; split; [done |]; repeat split; try done;
       try apply Hfr);
      intros Hf; specialize (Hr Hf);
      destruct (files m !! lockPath ol); simplify_eq;
      rewrite ?Hpos; unfold alive; rewrite ?Hwin; done.
  - eexists _, _. split; [done |]. repeat split; try done; try apply Hfr.
    intros Hf. specialize (Hr Hf).
    by destruct (files m !! lockPath ol).
Qed.

(** An iteration returns, or sleeps and goes on, or removes a stale lock
    file and goes on at once. *)
Lemma acquire_step fuel start ol m :
  (∃ r ol' m',
     acquire_loop env (S fuel) start ol m = Some (r, ol', m')
     ∧ clock m' = clock m ∧ frame m m' ∧ lockPath ol' = lockPath ol)
  ∨ (∃ m',
       acquire_loop env (S fuel) start ol m
       = acquire_loop env fuel start ol m'
       ∧ clock m' = clock m + retryDelay ol
       ∧ clock m - start < timeout ol
       ∧ frame m m' ∧ files m' = files m)
  ∨ (∃ m',
       acquire_loop env (S fuel) start ol m
       = acquire_loop env fuel start ol m'
       ∧ clock m' = clock m
       ∧ clock m - start < timeout ol
       ∧ frame m m'
       ∧ is_Some (files m !! lockPath ol)
       ∧ files m' !! lockPath ol = None).
Proof.
  cbn [acquire_loop].
  destruct (open_result (lockPath ol) m) as (r & m1 & -> & Hc1 & Hf1 & Hr1).
  destruct r as [err|].
  - destruct Hr1 as [Hfs1 Hwhy].
    destruct (negb (os_IsExist err)).
    { left. eexists _, _, _. split; [done |]. split; [done |].
      split; done. }
    destruct (timeout ol <=? clock m1 - start) eqn:Htime.
    { destruct (read_result ol m1) as (r & m2 & -> & Hc2 & Hf2 & _).
      left. destruct r; eexists _, _, _; (split; [done |]);
        (split; [congruence |]); (split; [| done]);
        by eapply frame_trans. }
    apply Z.leb_gt in Htime. rewrite Hc1 in Htime.
    destruct (stale_result ol m1) as (st & m2 & -> & Hc2 & Hf2 & Hfs2 & _).
    destruct st.
    + unfold cleanupStaleLock.
      destruct (remove_result (lockPath ol) m2)
        as (r & m3 & -> & Hc3 & Hf3 & Hr3).
      destruct r as [e|].
      * right; left. eexists. split; [done |]. simpl.
        split; [lia |]. split; [lia |]. destruct Hr3 as [Hfs3 _].
        split; [| simpl; congruence].
        eapply frame_trans; [| apply sleep_frame].
        eauto using frame_trans.
      * right; right. destruct Hr3 as (_ & Hsome & Hfs3).
        eexists. split; [done |]. split; [lia |]. split; [lia |].
        split; [eauto using frame_trans |].
        split; [by rewrite <- Hfs1, <- Hfs2 |].
        rewrite Hfs3. apply lookup_delete_eq.
    + right; left. eexists. split; [done |]. simpl.
      split; [lia |]. split; [lia |].
      split; [| simpl; congruence].
      eapply frame_trans; [| apply sleep_frame]. eauto using frame_trans.
  - destruct (write_result (lockPath ol)
                (lockRecord env ol (clock m1)) m1)
      as (r & m2 & -> & Hc2 & Hf2 & Hr2).
    left. destruct r as [e|].
    + destruct (close_result (lockPath ol) m2)
        as (r3 & m3 & -> & _ & Hc3 & Hf3 & _).
      destruct (remove_result (lockPath ol) m3)
        as (r4 & m4 & -> & Hc4 & Hf4 & _).
      eexists _, _, _. split; [done |]. split; [lia |].
      split; [eauto using frame_trans | done].
    + eexists _, _, _. split; [done |]. split; [simpl; lia |].
      split; [| done]. eapply frame_trans; [exact Hf1 |].
      eapply frame_trans; [exact Hf2 |]. done.
Qed.

(** *** The loop of [acquire] returns *)

Lemma acquire_loop_returns (n : nat) :
  ∀ fuel start ol m,
    0 < retryDelay ol →
    timeout ol - (clock m - start) ≤ Z.of_nat n * retryDelay ol →
    (2 * n + 2 ≤ fuel)%nat →
    ∃ r ol' m',
      acquire_loop env fuel start ol m = Some (r, ol', m')
      ∧ clock m ≤ clock m' ≤ clock m + Z.of_nat n * retryDelay ol
      ∧ frame m m' ∧ lockPath ol' = lockPath ol.
Proof.
  induction n as [|n IH]; intros fuel start ol m Hd Hleft Hfuel.
  - destruct fuel as [|f]; [lia |].
    destruct (acquire_step f start ol m)
      as [(r & ol' & m' & Heq & Hc & Hfr & Hp)
         | [(m' & _ & _ & Hlt & _) | (m' & _ & _ & Hlt & _)]];
      [| lia | lia].
    exists r, ol', m'. split; [done |]. split; [lia | done].
  - destruct fuel as [|f]; [lia |].
    destruct (acquire_step f start ol m)
      as [(r & ol' & m' & Heq & Hc & Hfr & Hp)
         | [(m' & Heq & Hc & Hlt & Hfr & _)
           | (m' & Heq & Hc & Hlt & Hfr & _ & Hgone)]].
    + exists r, ol', m'. split; [done |]. split; [nia | done].
    + destruct (IH f start ol m' Hd ltac:(nia) ltac:(lia))
        as (r & ol' & m'' & Heq' & Hc' & Hfr' & Hp).
      exists r, ol', m''. rewrite Heq. split; [done |].
      split; [nia |]. split; [by eapply frame_trans | done].
    + destruct f as [|f']; [lia |].
      destruct (acquire_step f' start ol m')
        as [(r & ol' & m'' & Heq' & Hc' & Hfr' & Hp)
           | [(m'' & Heq' & Hc' & Hlt' & Hfr' & _)
             | (m'' & _ & _ & _ & _ & Hsome & _)]].
      * exists r, ol', m''. rewrite Heq. split; [done |].
        split; [nia |]. split; [by eapply frame_trans | done].
      * destruct (IH f' start ol m'' Hd ltac:(nia) ltac:(lia))
          as (r & ol' & m3 & Heq3 & Hc3 & Hfr3 & Hp).
        exists r, ol', m3. rewrite Heq, Heq'. split; [done |].
        split; [nia |]. split; [eauto using frame_trans | done].
      * rewrite Hgone in Hsome. by destruct Hsome.
Qed.

Lemma cleanup_result ol m :
  ∃ r ol' m',
    cleanup env ol m = (r, ol', m')
    ∧ clock m' = clock m ∧ frame m m'
    ∧ ol' = (if lockFile ol then setHandle false (acquired ol) ol else ol)
    ∧ (fault env OpRemove (lockPath ol) = None →
       files m' !! lockPath ol = None)
    ∧ (∀ p, p ≠ lockPath ol → files m' !! p = files m !! p)
    ∧ (fault env OpClose (lockPath ol) = None →
       fault env OpRemove (lockPath ol) = None → r = None).
Proof.
  unfold cleanup.
  set (first :=
         if lockFile ol
         then match file_Close env (lockPath ol) m with
              | (Some err, m') =>
                  ([Errorf_wrap "failed to close lock file" err],
                   setHandle false (acquired ol) ol, m')
              | (None, m') => ([], setHandle false (acquired ol) ol, m')
              end
         else ([], ol, m)).
  assert (∃ errs1 ol1 m1,
            first = (errs1, ol1, m1)
            ∧ clock m1 = clock m ∧ frame m m1 ∧ files m1 = files m
            ∧ ol1 = (if lockFile ol then setHandle false (acquired ol) ol
                     else ol)
            ∧ (fault env OpClose (lockPath ol) = None → errs1 = []))
    as (errs1 & ol1 & m1 & -> & Hc1 & Hf1 & Hfs1 & Hol1 & He1).
  { unfold first. destruct (lockFile ol).
    - unfold file_Close.
      destruct (fault env OpClose (lockPath ol)) as [e|];
        eexists _, _, _; (split; [done |]); by repeat split.
    - eexists _, _, _. split; [done |]. by repeat split. }
  destruct (remove_result (lockPath ol) m1)
    as (r & m2 & -> & Hc2 & Hf2 & Hr2).
  assert (∀ p, p ≠ lockPath ol → files m2 !! p = files m !! p) as Hother.
  { intros p Hp. destruct r as [e|].
    - destruct Hr2 as [-> _]. by rewrite Hfs1.
    - destruct Hr2 as (_ & _ & ->). by rewrite lookup_delete_ne, Hfs1. }
  assert (fault env OpRemove (lockPath ol) = None →
          files m2 !! lockPath ol = None) as Hgone.
  { intros Hfault. destruct r as [e|].
    - destruct Hr2 as [-> [? | (_ & ? & _)]]; congruence.
    - destruct Hr2 as (_ & _ & ->). apply lookup_delete_eq. }
  destruct r as [e|].
  - destruct Hr2 as [_ Hwhy].
    destruct (negb (os_IsNotExist e)) eqn:Hne.
    + rewrite length_app. simpl.
      replace (0 <? length errs1 + 1)%nat with true
        by (symmetry; apply Nat.ltb_lt; lia).
      eexists _, _, _. split; [done |]. split; [lia |].
      split; [by eapply frame_trans |]. split; [done |].
      split; [done |]. split; [done |].
      intros _ Hfault. destruct Hwhy as [? | (_ & _ & ->)]; [congruence |].
      done.
    + destruct (0 <? length errs1)%nat eqn:Hlen;
        eexists _, _, _; (split; [done |]); (split; [lia |]);
        (split; [by eapply frame_trans |]); (split; [done |]);
        (split; [done |]); (split; [done |]); [| done].
      intros Hclose _. rewrite (He1 Hclose) in Hlen. done.
  - destruct (0 <? length errs1)%nat eqn:Hlen;
      eexists _, _, _; (split; [done |]); (split; [lia |]);
      (split; [by eapply frame_trans |]); (split; [done |]);
      (split; [done |]); (split; [done |]); [| done].
    intros Hclose _. rewrite (He1 Hclose) in Hlen. done.
Qed.

(** *** [AcquireLock] *)

Lemma not_held_false lm m key :
  not_held lm m key →
  match locks lm !! key with
  | Some a =>
      match heap m !! a with
      | Some existingLock => acquired existingLock
      | None => false
      end
  | None => false
  end = false.
Proof.
  intros Hnot. destruct (locks lm !! key) as [a|] eqn:Ha; [| done].
  destruct (heap m !! a) as [ol|] eqn:Hol; [| done]. by eapply Hnot.
Qed.

(** [AcquireLock] on a key that is not held, in terms of the loop of
    [acquire] on the new object. *)
Lemma AcquireLock_unfold lockType targetPath t lm m :
  let key := generateLockKey lockType targetPath in
  let ol := newOperationLock env (lockDir lm) key lockType t in
  let m0 := (alloc ol m).2 in
  match locks lm !! key with
  | Some a =>
      match heap m !! a with
      | Some existingLock => acquired existingLock
      | None => false
      end
  | None => false
  end = false →
  AcquireLock env lockType targetPath t lm m
  = match acquire_loop env (acquire_fuel ol) (clock m) ol m0 with
    | None => None
    | Some (Some err, ol', m1) =>
        Some (inr (Errorf_wrap "failed to acquire lock" err), lm,
              (cleanupAt env (next m)
                 (setHeap (<[next m := ol']> (heap m1)) m1)).2)
    | Some (None, ol', m1) =>
        Some (inl (next m),
              {| lockDir := lockDir lm;
                 locks := <[key := next m]> (locks lm) |},
              setHeap (<[next m := ol']> (heap m1)) m1)
    end.
Proof.
  intros key ol m0 Hheld. unfold AcquireLock. fold key. rewrite Hheld.
  fold ol. unfold alloc, acquireAt. cbn [heap].
  rewrite lookup_insert_eq. unfold acquire.
  change (acquired ol) with false. cbv iota.
  change (clock {| heap := <[next m:=ol]> (heap m); next := S (next m);
                   files := files m; clock := clock m;
                   fs_calls := fs_calls m |}) with (clock m).
  fold (alloc ol m). change (alloc ol m).2 with m0.
  change {| heap := <[next m:=ol]> (heap m); next := S (next m);
            files := files m; clock := clock m; fs_calls := fs_calls m |}
    with m0.
  destruct (acquire_loop env (acquire_fuel ol) (clock m) ol m0)
    as [[[[err|] ol'] m1]|]; try done.
  by destruct (cleanupAt env (next m) _).
Qed.

Lemma new_lock_returns lockDir key lockType t (m : Machine) start :
  let ol := newOperationLock env lockDir key lockType t in
  start = clock m →
  ∃ r ol' m',
    acquire_loop env (acquire_fuel ol) start ol m = Some (r, ol', m')
    ∧ clock m ≤ clock m' ≤ clock m + Z.max 0 t + 100 * 1000000
    ∧ frame m m' ∧ lockPath ol' = lockPath ol.
Proof.
  intros ol ->.
  destruct (acquire_loop_returns (Z.to_nat (t / (100 * 1000000)) + 1)
              (acquire_fuel ol) (clock m) ol m)
    as (r & ol' & m' & Heq & Hc & Hfr & Hp).
  - done.
  - cbn [timeout retryDelay ol newOperationLock].
    destruct (Z.le_gt_cases 0 t) as [Hpos | Hneg].
    + pose proof (Z.mul_succ_div_gt t (100 * 1000000) ltac:(done)).
      pose proof (Z.div_pos t (100 * 1000000) Hpos ltac:(done)). lia.
    + lia.
  - unfold acquire_fuel. cbn [timeout retryDelay ol newOperationLock].
    change (Z.max 1 (100 * 1000000)) with (100 * 1000000). lia.
  - exists r, ol', m'. split; [done |]. split; [| done].
    cbn [timeout retryDelay ol newOperationLock] in Hc.
    destruct (Z.le_gt_cases 0 t) as [Hpos | Hneg].
    + pose proof (Z.mul_div_le t (100 * 1000000) ltac:(done)).
      pose proof (Z.div_pos t (100 * 1000000) Hpos ltac:(done)). lia.
    + assert (t / (100 * 1000000) < 0).
      { apply Z.div_lt_upper_bound; lia. }
      lia.
Qed.

Lemma cleanupAt_result a m :
  clock (cleanupAt env a m).2 = clock m.
Proof.
  unfold cleanupAt. destruct (heap m !! a) as [ol|]; [| done].
  destruct (cleanup_result ol m) as (r & ol' & m' & -> & Hc & _).
  done.
Qed.

(** X12: [AcquireLock] always returns, and by then has slept for no more
    than the timeout and one retry delay of 100 ms. *)
Theorem AcquireLock_returns_in_time lockType targetPath t lm m :
  ∃ r lm' m',
    AcquireLock env lockType targetPath t lm m = Some (r, lm', m')
    ∧ clock m ≤ clock m' ≤ clock m + Z.max 0 t + 100 * 1000000.
Proof.
  destruct (match locks lm !! generateLockKey lockType targetPath with
            | Some a =>
                match heap m !! a with
                | Some existingLock => acquired existingLock
                | None => false
                end
            | None => false
            end) eqn:Hheld.
  { unfold AcquireLock. rewrite Hheld. eexists _, _, _.
    split; [done |]. lia. }
  rewrite (AcquireLock_unfold _ _ _ _ _ Hheld).
  set (ol := newOperationLock env (lockDir lm)
               (generateLockKey lockType targetPath) lockType t).
  destruct (new_lock_returns (lockDir lm)
              (generateLockKey lockType targetPath) lockType t
              (alloc ol m).2 (clock m) eq_refl)
    as (r & ol' & m' & Heq & Hc & _).
  fold ol in Heq. rewrite Heq.
  destruct r as [err|]; eexists _, _, _; (split; [done |]).
  - rewrite cleanupAt_result. exact Hc.
  - exact Hc.
Qed.

(** *** A lock file that is absent, stale, or held *)

Lemma acquire_loop_eq fuel start ol m :
  acquire_loop env (S fuel) start ol m
  = match os_OpenFile_excl env (lockPath ol) m with
    | (None, m1) =>
        let ol1 := setHandle true true ol in
        let lockInfo := lockRecord env ol (clock m1) in
        match file_WriteString env (lockPath ol) lockInfo m1 with
        | (Some writeErr, m2) =>
            let '(_, m3) := file_Close env (lockPath ol) m2 in
            let '(_, m4) := os_Remove env (lockPath ol) m3 in
            Some (Some (Errorf_wrap "failed to write lock info" writeErr),
                  ol1, m4)
        | (None, m2) => Some (None, ol1, file_Sync m2)
        end
    | (Some err, m1) =>
        if negb (os_IsExist err) then
          Some (Some (Errorf_wrap "failed to create lock file" err), ol, m1)
        else if timeout ol <=? clock m1 - start then
          match readLockInfo env ol m1 with
          | (inl lockInfo, m2) =>
              Some (Some (ValidationError "acquire-lock-timeout"
                            ("timeout waiting for lock (held by "
                               +:+ lockInfo +:+ ")") (Some err)), ol, m2)
          | (inr _, m2) =>
              Some (Some (ValidationError "acquire-lock-timeout"
                            "timeout waiting for lock" (Some err)), ol, m2)
          end
        else
          let '(stale, m2) := isLockStale env ol m1 in
          if stale then
            match cleanupStaleLock env ol m2 with
            | (None, m3) => acquire_loop env fuel start ol m3
            | (Some _, m3) =>
                acquire_loop env fuel start ol
                             (time_Sleep (retryDelay ol) m3)
            end
          else
            acquire_loop env fuel start ol (time_Sleep (retryDelay ol) m2)
    end.
Proof. reflexivity. Qed.

Lemma acquire_loop_fresh_exact fuel start ol m :
  fault env OpCreate (lockPath ol) = None →
  fault env OpWrite (lockPath ol) = None →
  files m !! lockPath ol = None →
  ∃ m', acquire_loop env (S fuel) start ol m
        = Some (None, setHandle true true ol, m')
        ∧ clock m' = clock m ∧ frame m m'
        ∧ files m'
          = <[lockPath ol := lockRecord env ol (clock m)]> (files m).
Proof.
  intros Hcreate Hwrite Hfile. rewrite acquire_loop_eq.
  unfold os_OpenFile_excl. rewrite Hcreate, Hfile.
  unfold file_WriteString. rewrite Hwrite.
  eexists. split; [reflexivity |]. split; [done |]. split; [done |].
  cbn [files setFiles tick file_Sync clock].
  rewrite lookup_insert_eq. cbn [default]. rewrite append_nil.
  apply insert_insert_eq.
Qed.

Lemma acquire_loop_stale fuel start ol m c :
  files m !! lockPath ol = Some c →
  extractPIDFromLockInfo c ≤ 0 ∨ alive env (extractPIDFromLockInfo c) = false →
  fault_free env (lockPath ol) →
  clock m - start < timeout ol →
  ∃ m', acquire_loop env (S (S fuel)) start ol m
        = Some (None, setHandle true true ol, m')
        ∧ clock m' = clock m ∧ frame m m'
        ∧ files m'
          = <[lockPath ol := lockRecord env ol (clock m)]> (files m).
Proof.
  intros Hfile Hstale Hfree Htime. rewrite acquire_loop_eq.
  unfold os_OpenFile_excl. rewrite (Hfree OpCreate), Hfile.
  cbn [os_IsExist negb clock tick].
  replace (timeout ol <=? clock m - start) with false
    by (symmetry; apply Z.leb_gt; lia).
  destruct (stale_result ol (tick m))
    as (st & m2 & -> & Hc2 & Hf2 & Hfs2 & Hr).
  specialize (Hr (Hfree OpRead)). cbn [files tick] in Hr, Hfs2.
  rewrite Hfile in Hr.
  assert (st = true) as ->.
  { rewrite Hr. destruct Hstale as [Hle | ->]; [| apply orb_true_r].
    replace (0 <? extractPIDFromLockInfo c) with false
      by (symmetry; apply Z.ltb_ge; lia).
    done. }
  unfold cleanupStaleLock.
  destruct (remove_result (lockPath ol) m2)
    as (r & m3 & -> & Hc3 & Hf3 & Hr3).
  destruct r as [e|].
  { destruct Hr3 as [_ [Hbad | (_ & Hbad & _)]].
    - by rewrite (Hfree OpRemove) in Hbad.
    - by rewrite Hfs2, Hfile in Hbad. }
  destruct Hr3 as (_ & _ & Hfs3).
  destruct (acquire_loop_fresh_exact fuel start ol m3
              (Hfree OpCreate) (Hfree OpWrite))
    as (m' & -> & Hc' & Hf' & Hfs').
  { rewrite Hfs3. apply lookup_delete_eq. }
  exists m'. split; [done |]. cbn [clock tick] in Hc2.
  split; [lia |]. split.
  { eapply frame_trans; [| exact Hf'].
    eapply frame_trans; [| exact Hf3].
    eapply frame_trans; [| exact Hf2]. done. }
  rewrite Hfs', Hfs3, Hfs2, insert_delete_eq. do 2 f_equal. lia.
Qed.

Lemma acquire_loop_live c fuel :
  ∀ start ol m r ol' m',
    files m !! lockPath ol = Some c →
    fault env OpCreate (lockPath ol) = None →
    fault env OpRead (lockPath ol) = None →
    0 < extractPIDFromLockInfo c →
    alive env (extractPIDFromLockInfo c) = true →
    acquire_loop env fuel start ol m = Some (r, ol', m') →
    r = Some (ValidationError "acquire-lock-timeout"
                ("timeout waiting for lock (held by " +:+ c +:+ ")")
                (Some (ErrExist (lockPath ol))))
    ∧ ol' = ol ∧ files m' = files m
    ∧ timeout ol ≤ clock m' - start.
Proof.
  induction fuel as [|fuel IH];
    intros start ol m r ol' m' Hfile Hcreate Hread Hpos Halive; [done |].
  rewrite acquire_loop_eq.
  unfold os_OpenFile_excl. rewrite Hcreate, Hfile.
  cbn [os_IsExist negb clock tick].
  destruct (timeout ol <=? clock m - start) eqn:Htime.
  - apply Z.leb_le in Htime.
    unfold readLockInfo, os_ReadFile. rewrite Hread.
    cbn [files tick]. rewrite Hfile. intros [= <- <- <-].
    by repeat split.
  - destruct (stale_result ol (tick m))
      as (st & m2 & -> & Hc2 & Hf2 & Hfs2 & Hr).
    specialize (Hr Hread). cbn [files tick] in Hr, Hfs2.
    rewrite Hfile, Halive in Hr.
    replace (0 <? extractPIDFromLockInfo c) with true in Hr
      by (symmetry; apply Z.ltb_lt; lia).
    simpl in Hr. subst st. intros Hloop.
    apply IH in Hloop as (-> & -> & -> & Hwait); try done.
    cbn [files time_Sleep]. by rewrite Hfs2, Hfile.
Qed.

Lemma acquire_fuel_two ol : ∃ f, acquire_fuel ol = S (S f).
Proof. eexists. reflexivity. Qed.

Lemma new_lock_path lm lockType targetPath t :
  lockPath (newOperationLock env (lockDir lm)
              (generateLockKey lockType targetPath) lockType t)
  = lockFileOf env lm lockType targetPath.
Proof. reflexivity. Qed.

(** X13: when the lock file of the key does not exist and no I/O fault
    hits it, [AcquireLock] succeeds at once, without sleeping: the new
    handle is acquired and tracked under the key, and the lock file holds
    the record of this lock, from which the PID of the process is read
    back; no other file changes. *)
Theorem fresh_acquire_writes_record lockType targetPath t lm m :
  let key := generateLockKey lockType targetPath in
  let path := lockFileOf env lm lockType targetPath in
  let ol := newOperationLock env (lockDir lm) key lockType t in
  not_held lm m key →
  files m !! path = None →
  fault env OpCreate path = None →
  fault env OpWrite path = None →
  ∃ lm1 m1,
    AcquireLock env lockType targetPath t lm m = Some (inl (next m), lm1, m1)
    ∧ handle_acquired (next m) m1
    ∧ locks lm1 !! key = Some (next m)
    ∧ clock m1 = clock m
    ∧ files m1 = <[path := lockRecord env ol (clock m)]> (files m)
    ∧ (- 2 ^ 63 ≤ os_Getpid env ≤ 2 ^ 63 - 1 →
       ∃ content, files m1 !! path = Some content
                  ∧ extractPIDFromLockInfo content = os_Getpid env).
Proof.
  intros key path ol Hnot Hfile Hcreate Hwrite.
  rewrite (AcquireLock_unfold _ _ _ _ _ (not_held_false _ _ _ Hnot)).
  fold key ol.
  destruct (acquire_fuel_two ol) as [f ->].
  destruct (acquire_loop_fresh_exact (S f) (clock m) ol (alloc ol m).2)
    as (m' & -> & Hc & Hf & Hfs); try done.
  eexists _, _. split; [reflexivity |].
  split; [| split; [| split; [| split]]].
  - eexists. cbn [heap setHeap]. by rewrite lookup_insert_eq.
  - cbn [locks]. apply lookup_insert_eq.
  - done.
  - done.
  - intros Hpid. eexists. cbn [files setHeap]. rewrite Hfs.
    split; [apply lookup_insert_eq |].
    by apply extractPID_record.
Qed.


(** X15: an attempt that fails leaves no lock file.  When [AcquireLock]
    returns an error for a key that the manager does not hold, and
    removing the lock file raises no I/O fault, the lock file of the key
    does not exist afterwards, also when it was there before the call and
    belongs to another holder; the manager is unchanged. *)
Theorem failed_acquire_removes_lock_file
  lockType targetPath t lm m e lm' m' :
  let key := generateLockKey lockType targetPath in
  let path := lockFileOf env lm lockType targetPath in
  not_held lm m key →
  AcquireLock env lockType targetPath t lm m = Some (inr e, lm', m') →
  fault env OpRemove path = None →
  lm' = lm ∧ files m' !! path = None.
Proof.
  intros key path Hnot Hacq Hremove.
  rewrite (AcquireLock_unfold _ _ _ _ _ (not_held_false _ _ _ Hnot))
    in Hacq.
  fold key in Hacq.
  set (ol := newOperationLock env (lockDir lm) key lockType t) in *.
  destruct (new_lock_returns (lockDir lm) key lockType t
              (alloc ol m).2 (clock m) eq_refl)
    as (r & ol' & m1 & Heq & _ & _ & Hpath).
  fold ol in Heq, Hpath. rewrite Heq in Hacq.
  destruct r as [err|]; [| done].
  injection Hacq as <- <- <-. split; [done |].
  unfold cleanupAt. cbn [heap setHeap]. rewrite lookup_insert_eq.
  destruct (cleanup_result ol' (setHeap (<[next m:=ol']> (heap m1)) m1))
    as (r & ol'' & m2 & -> & _ & _ & _ & Hgone & _).
  cbn [snd files setHeap]. rewrite Hpath in Hgone. by apply Hgone.
Qed.

(** X16: a lock held by a live process is waited for and not taken.
    When the lock file of the key holds the PID of a process that the probe
    of the platform finds, and creating and reading the file raise no I/O
    fault, [AcquireLock] returns the timeout error that quotes the content
    of the lock file, after the timeout has elapsed; no handle is returned
    and the manager is unchanged. *)
Theorem live_holder_times_out lockType targetPath t lm m c :
  let key := generateLockKey lockType targetPath in
  let path := lockFileOf env lm lockType targetPath in
  not_held lm m key →
  files m !! path = Some c →
  0 < extractPIDFromLockInfo c →
  alive env (extractPIDFromLockInfo c) = true →
  fault env OpCreate path = None →
  fault env OpRead path = None →
  ∃ m',
    AcquireLock env lockType targetPath t lm m
    = Some (inr (Errorf_wrap "failed to acquire lock"
                   (ValidationError "acquire-lock-timeout"
                      ("timeout waiting for lock (held by " +:+ c +:+ ")")
                      (Some (ErrExist path)))), lm, m')
    ∧ clock m + t ≤ clock m' ≤ clock m + Z.max 0 t + 100 * 1000000.
Proof.
  intros key path Hnot Hfile Hpos Halive Hcreate Hread.
  rewrite (AcquireLock_unfold _ _ _ _ _ (not_held_false _ _ _ Hnot)).
  fold key.
  set (ol := newOperationLock env (lockDir lm) key lockType t) in *.
  destruct (new_lock_returns (lockDir lm) key lockType t
              (alloc ol m).2 (clock m) eq_refl)
    as (r & ol' & m1 & Heq & Hc & _ & _).
  fold ol in Heq. rewrite Heq.
  apply (acquire_loop_live c) in Heq as (-> & -> & _ & Hwait); try done.
  eexists. split; [reflexivity |].
  rewrite cleanupAt_result. cbn [clock setHeap].
  cbn [timeout ol newOperationLock clock alloc snd] in Hwait, Hc. lia.
Qed.

(** *** Releasing *)

Lemma cleanup_files ol m :
  files (cleanup env ol m).2 = delete (lockPath ol) (files m)
  ∨ files (cleanup env ol m).2 = files m.
Proof.
  unfold cleanup, file_Close, os_Remove.
  destruct (lockFile ol); [destruct (fault env OpClose (lockPath ol)) |];
    cbn [files tick];
    (destruct (fault env OpRemove (lockPath ol)) as [e'|];
     [destruct (negb (os_IsNotExist e')) |
      destruct (files m !! lockPath ol)]);
    repeat match goal with
           | |- context [if ?b then _ else _] => destruct b
           end; cbn; auto.
Qed.

Lemma cleanup_shrink ol m p :
  files m !! p = None → files (cleanup env ol m).2 !! p = None.
Proof.
  intros Hp. destruct (cleanup_files ol m) as [-> | ->]; [| done].
  destruct (decide (p = lockPath ol)) as [-> |].
  - apply lookup_delete_eq.
  - by rewrite lookup_delete_ne.
Qed.

Lemma Release_result ol m :
  ∃ r ol' m',
    Release env ol m = (r, ol', m')
    ∧ acquired ol' = false ∧ lockPath ol' = lockPath ol
    ∧ clock m' = clock m ∧ frame m m'
    ∧ (acquired ol = false → r = None ∧ ol' = ol ∧ m' = m)
    ∧ (acquired ol = true → fault env OpRemove (lockPath ol) = None →
       files m' !! lockPath ol = None)
    ∧ (∀ p, files m !! p = None → files m' !! p = None)
    ∧ (fault env OpClose (lockPath ol) = None →
       fault env OpRemove (lockPath ol) = None → r = None).
Proof.
  unfold Release. destruct (acquired ol) eqn:Hacq; cbn [negb].
  - pose proof (cleanup_shrink ol m) as Hshrink.
    destruct (cleanup_result ol m)
      as (r & ol' & m' & Heq & Hc & Hf & -> & Hgone & Hother & Hnone).
    rewrite Heq in Hshrink |- *.
    eexists _, _, _. split; [done |]. split; [done |].
    split; [by destruct (lockFile ol) |]. split; [done |].
    split; [done |]. split; [done |]. split; [done |].
    split; [exact Hshrink | done].
  - eexists _, _, _. split; [done |]. by repeat split.
Qed.

Lemma machine_eta (m : Machine) :
  {| heap := heap m; next := next m; files := files m; clock := clock m;
     fs_calls := fs_calls m |} = m.
Proof. by destruct m. Qed.

Lemma ReleaseAt_result a m :
  ∃ r m',
    ReleaseAt env a m = (r, m')
    ∧ next m' = next m ∧ clock m' = clock m
    ∧ (∀ b, b ≠ a → heap m' !! b = heap m !! b)
    ∧ (∀ ol, heap m !! a = Some ol →
         ∃ ol', heap m' !! a = Some ol'
                ∧ acquired ol' = false ∧ lockPath ol' = lockPath ol
                ∧ (acquired ol = true →
                   fault env OpRemove (lockPath ol) = None →
                   files m' !! lockPath ol = None)
                ∧ (fault env OpClose (lockPath ol) = None →
                   fault env OpRemove (lockPath ol) = None → r = None))
    ∧ (heap m !! a = None → heap m' !! a = None ∧ r = None)
    ∧ (∀ p, files m !! p = None → files m' !! p = None)
    ∧ ((∀ ol, heap m !! a = Some ol → acquired ol = false) →
       r = None ∧ m' = m).
Proof.
  unfold ReleaseAt. destruct (heap m !! a) as [ol|] eqn:Hol.
  - destruct (Release_result ol m)
      as (r & ol' & m' & -> & Hacq & Hpath & Hc & [Hh Hn] & Hsame & Hgone
          & Hshrink & Hnone).
    eexists _, _. split; [done |]. split; [done |]. split; [done |].
    split; [| split; [| split; [| split]]].
    + intros b Hb. cbn [heap setHeap]. by rewrite lookup_insert_ne, Hh.
    + intros ? [= <-]. exists ol'. cbn [heap setHeap files].
      rewrite lookup_insert_eq. by repeat split.
    + done.
    + done.
    + intros Hrel. destruct (Hsame (Hrel _ eq_refl)) as (-> & -> & ->).
      split; [done |]. unfold setHeap. rewrite insert_id by done.
      apply machine_eta.
  - eexists _, _. split; [done |]. by repeat split.
Qed.

(** *** Release twice *)

Lemma trackedKey_Some a lm key :
  trackedKey a lm = Some key → locks lm !! key = Some a.
Proof.
  unfold trackedKey.
  destruct (head _) as [[k v]|] eqn:Hhead; [| done]. intros [= <-].
  apply head_Some_elem_of, list_elem_of_filter in Hhead as [Hv Hin].
  simpl in Hv. subst v. by apply elem_of_map_to_list.
Qed.

Lemma trackedKey_None a lm :
  (∀ k, locks lm !! k ≠ Some a) → trackedKey a lm = None.
Proof.
  intros Hnone. unfold trackedKey.
  destruct (head _) as [[k v]|] eqn:Hhead; [| done].
  apply head_Some_elem_of, list_elem_of_filter in Hhead as [Hv Hin].
  simpl in Hv. subst v. apply elem_of_map_to_list in Hin.
  by destruct (Hnone k).
Qed.

(** X17: releasing is idempotent.  After [ReleaseLock] on a handle, a
    second [ReleaseLock] on the same handle returns no error and changes
    neither the manager nor the machine. *)
Theorem ReleaseLock_twice (h : nat) lm m err lm1 m1 :
  tracked_once lm →
  ReleaseLock env (Some h) lm m = (err, lm1, m1) →
  ReleaseLock env (Some h) lm1 m1 = (None, lm1, m1).
Proof.
  intros Honce. unfold ReleaseLock.
  destruct (ReleaseAt_result h m)
    as (r & m' & -> & _ & _ & _ & Hat & Hnone & _).
  intros [= <- <- <-].
  assert (trackedKey h
            match trackedKey h lm with
            | Some key =>
                {| lockDir := lockDir lm; locks := delete key (locks lm) |}
            | None => lm
            end = None) as ->.
  { destruct (trackedKey h lm) as [key|] eqn:Hkey.
    - apply trackedKey_None. intros k. cbn [locks].
      intros [Hne Hk]%lookup_delete_Some.
      apply trackedKey_Some in Hkey. by destruct (Honce _ _ _ Hkey Hk).
    - done. }
  destruct (ReleaseAt_result h m')
    as (r' & m'' & -> & _ & _ & _ & _ & _ & _ & Hsame).
  destruct Hsame as [-> ->]; [| done].
  intros ol' Hol'. destruct (heap m !! h) as [ol|] eqn:Hol.
  - destruct (Hat _ eq_refl) as (ol1 & Hol1 & ? & _). congruence.
  - destruct (Hnone eq_refl) as [Hno _]. congruence.
Qed.

(** *** What the manager keeps of its handles *)

Lemma invariants_weaken lm m lm' m' :
  manager_wf lm m ∧ tracked_once lm ∧ tracked_at_key env lm m →
  lockDir lm' = lockDir lm →
  (∀ k a, locks lm' !! k = Some a → locks lm !! k = Some a) →
  (next m ≤ next m')%nat →
  (∀ k a ol, locks lm !! k = Some a → heap m !! a = Some ol →
     ∃ ol', heap m' !! a = Some ol' ∧ lockPath ol' = lockPath ol) →
  manager_wf lm' m' ∧ tracked_once lm' ∧ tracked_at_key env lm' m'.
Proof.
  intros (Hwf & Honce & Hat) Hdir Hsub Hnext Hheap. split; [| split].
  - intros k a Hk. specialize (Hwf k a (Hsub _ _ Hk)). lia.
  - intros k1 k2 a H1 H2. eapply Honce; eauto.
  - intros k a Hk. destruct (Hat k a (Hsub _ _ Hk)) as (ol & Hol & Hp).
    destruct (Hheap k a ol (Hsub _ _ Hk) Hol) as (ol' & Hol' & Hp').
    exists ol'. split; [done |]. by rewrite Hp', Hp, Hdir.
Qed.

Lemma cleanupAt_heap a m :
  next (cleanupAt env a m).2 = next m
  ∧ ∀ b, b ≠ a → heap (cleanupAt env a m).2 !! b = heap m !! b.
Proof.
  unfold cleanupAt. destruct (heap m !! a) as [ol|]; [| done].
  destruct (cleanup_result ol m) as (r & ol' & m' & -> & _ & [Hh Hn] & _).
  split; [done |]. intros b Hb. cbn [snd heap setHeap].
  by rewrite lookup_insert_ne, Hh.
Qed.

Lemma AcquireLock_invariants lockType targetPath t lm m r lm' m' :
  manager_wf lm m ∧ tracked_once lm ∧ tracked_at_key env lm m →
  AcquireLock env lockType targetPath t lm m = Some (r, lm', m') →
  manager_wf lm' m' ∧ tracked_once lm' ∧ tracked_at_key env lm' m'.
Proof.
  intros Hinv.
  destruct (match locks lm !! generateLockKey lockType targetPath with
            | Some a =>
                match heap m !! a with
                | Some existingLock => acquired existingLock
                | None => false
                end
            | None => false
            end) eqn:Hheld.
  { unfold AcquireLock. rewrite Hheld. by intros [= <- <- <-]. }
  rewrite (AcquireLock_unfold _ _ _ _ _ Hheld).
  set (key := generateLockKey lockType targetPath).
  set (ol := newOperationLock env (lockDir lm) key lockType t).
  destruct (new_lock_returns (lockDir lm) key lockType t
              (alloc ol m).2 (clock m) eq_refl)
    as (r0 & ol' & m1 & Heq & _ & [Hh Hn] & Hpath).
  fold ol in Heq, Hpath. rewrite Heq.
  cbn [alloc snd heap next] in Hh, Hn.
  destruct Hinv as (Hwf & Honce & Hat).
  destruct r0 as [err|]; intros [= <- <- <-].
  - destruct (cleanupAt_heap (next m)
                (setHeap (<[next m:=ol']> (heap m1)) m1)) as [Hn' Hh'].
    apply (invariants_weaken lm m); try done.
    + rewrite Hn'. cbn [next setHeap]. lia.
    + intros k a ol0 Hk Hol0. exists ol0. split; [| done].
      pose proof (Hwf _ _ Hk).
      rewrite Hh' by lia. cbn [heap setHeap].
      rewrite lookup_insert_ne by lia. rewrite Hh.
      by rewrite lookup_insert_ne by lia.
  - split; [| split].
    + intros k a. cbn [locks next setHeap]. rewrite Hn.
      intros [[_ <-] | [_ Hk]]%lookup_insert_Some; [lia |].
      specialize (Hwf _ _ Hk). lia.
    + intros k1 k2 a. cbn [locks].
      intros [[<- <-] | [Hne1 H1]]%lookup_insert_Some
             [[<- Ha] | [Hne2 H2]]%lookup_insert_Some; try done.
      * specialize (Hwf _ _ H2). lia.
      * specialize (Hwf _ _ H1). lia.
      * by eapply Honce.
    + intros k a. cbn [locks lockDir heap setHeap].
      intros [[<- <-] | [Hne Hk]]%lookup_insert_Some.
      * exists ol'. rewrite lookup_insert_eq. split; [done |].
        by rewrite Hpath.
      * destruct (Hat _ _ Hk) as (ol0 & Hol0 & Hp0).
        pose proof (Hwf _ _ Hk).
        exists ol0. rewrite lookup_insert_ne by lia. rewrite Hh.
        by rewrite lookup_insert_ne by lia.
Qed.

(** X18: what the manager keeps of its handles.  In every state that the
    exported functions produce, whatever callers release directly and
    whatever happens to the files in between, every tracked handle has
    been allocated, is tracked under one key only, and points to an object
    whose lock file is the one of this key. *)
Theorem reachable_manager_invariants lm m :
  reachable env lm m →
  manager_wf lm m ∧ tracked_once lm ∧ tracked_at_key env lm m.
Proof.
  induction 1 as [m lm m' Hnew
                 | lockType targetPath t lm m r lm' m' _ IH Hacq
                 | lock lm m err lm' m' _ IH Hrel
                 | lm m err lm' m' _ IH Hall
                 | a lm m err m' _ IH Hrel
                 | lm m m' _ IH [Hh Hn]].
  - unfold NewLockManager in Hnew.
    destruct (getLockDirectory env m) as [[dir | e] m0]; [| done].
    injection Hnew as <- <-.
    split; [| split]; intros ? ?; cbn [locks];
      by rewrite ?lookup_empty.
  - by eapply AcquireLock_invariants.
  - unfold ReleaseLock in Hrel. destruct lock as [a|];
      [| by injection Hrel as <- <- <-].
    destruct (ReleaseAt_result a m)
      as (r & m0 & Heq & Hn & _ & Hother & Hat & _).
    rewrite Heq in Hrel. injection Hrel as <- <- <-.
    apply (invariants_weaken lm m); try done.
    + by destruct (trackedKey a lm).
    + intros k b. destruct (trackedKey a lm); [| done]. cbn [locks].
      by intros [_ ?]%lookup_delete_Some.
    + lia.
    + intros k b ol _ Hol. destruct (decide (b = a)) as [-> | Hne].
      * destruct (Hat _ Hol) as (ol' & ? & _ & ? & _). eauto.
      * exists ol. by rewrite Hother.
  - unfold ReleaseAll in Hall.
    destruct (fold_left _ _ _) as [errors m0].
    destruct (0 <? length errors)%nat; injection Hall as <- <- <-;
      (split; [| split]); intros ? ?; cbn [locks];
      by rewrite ?lookup_empty.
  - destruct (ReleaseAt_result a m)
      as (r & m0 & Heq & Hn & _ & Hother & Hat & _).
    rewrite Heq in Hrel. injection Hrel as <- <-.
    apply (invariants_weaken lm m); try done; [lia |].
    intros k b ol _ Hol. destruct (decide (b = a)) as [-> | Hne].
    + destruct (Hat _ Hol) as (ol' & ? & _ & ? & _). eauto.
    + exists ol. by rewrite Hother.
  - apply (invariants_weaken lm m); try done; [lia |].
    intros k b ol _ Hol. exists ol. by rewrite Hh.
Qed.

(** *** [ReleaseAll] *)

Lemma ReleaseAt_back a m r m' b ol' :
  ReleaseAt env a m = (r, m') →
  heap m' !! b = Some ol' →
  ∃ ol, heap m !! b = Some ol ∧ lockPath ol' = lockPath ol
        ∧ (acquired ol = false → acquired ol' = false)
        ∧ (acquired ol' = true → b ≠ a).
Proof.
  intros Heq Hol'.
  destruct (ReleaseAt_result a m)
    as (r0 & m0 & Heq0 & _ & _ & Hother & Hat & Hnone & _).
  rewrite Heq in Heq0. injection Heq0 as <- <-.
  destruct (decide (b = a)) as [-> | Hne].
  - destruct (heap m !! a) as [ol|] eqn:Hol.
    + destruct (Hat _ eq_refl) as (ol1 & Hol1 & Hacq & Hp & _).
      exists ol. rewrite Hol1 in Hol'. injection Hol' as <-.
      split; [done |]. split; [done |]. split; [done |]. congruence.
    + destruct (Hnone eq_refl) as [Hno _]. congruence.
  - exists ol'. rewrite <- Hother by done. by repeat split.
Qed.

Lemma fold_release l :
  ∀ errs m errs' m',
    fold_left (releaseAll_body env) l (errs, m) = (errs', m') →
    (∀ p, files m !! p = None → files m' !! p = None)
    ∧ (∀ b ol', heap m' !! b = Some ol' →
         ∃ ol, heap m !! b = Some ol ∧ lockPath ol' = lockPath ol
               ∧ (acquired ol = false → acquired ol' = false))
    ∧ (∀ kv ol', kv ∈ l → heap m' !! kv.2 = Some ol' →
         acquired ol' = false)
    ∧ (∀ kv ol, kv ∈ l → heap m !! kv.2 = Some ol →
         acquired ol = true →
         fault env OpRemove (lockPath ol) = None →
         files m' !! lockPath ol = None)
    ∧ ((∀ kv ol, kv ∈ l → heap m !! kv.2 = Some ol →
          fault env OpClose (lockPath ol) = None
          ∧ fault env OpRemove (lockPath ol) = None) →
       errs' = errs).
Proof.
  induction l as [|kv l IH]; intros errs m errs' m'; simpl.
  { intros [= <- <-]. split; [done |]. split; [eauto |].
    split; [by intros ? ? ?%elem_of_nil |].
    split; [by intros ? ? ?%elem_of_nil | done]. }
  destruct (ReleaseAt_result kv.2 m)
    as (r & m1 & Heq & _ & _ & Hother & Hat & Hnone & Hshrink & _).
  rewrite Heq.
  set (errs1 := match r with Some err => errs ++ [err] | None => errs end).
  assert ((let '(errors, m0) := (errs, m) in
           match (r, m1) with
           | (Some err, m'0) => (errors ++ [err], m'0)
           | (None, m'0) => (errors, m'0)
           end) = (errs1, m1)) as -> by by destruct r.
  intros Hfold.
  destruct (IH _ _ _ _ Hfold) as (Hshrink' & Hback' & Hrel' & Hgone' & Herr').
  split; [eauto |]. split; [| split; [| split]].
  - intros b ol' Hol'.
    destruct (Hback' _ _ Hol') as (ol1 & Hol1 & Hp1 & Ha1).
    destruct (ReleaseAt_back _ _ _ _ _ _ Heq Hol1) as (ol & Hol & Hp & Ha & _).
    exists ol. split; [done |]. split; [congruence | eauto].
  - intros kv' ol' [-> | Hin]%elem_of_cons Hol'; [| eauto].
    destruct (Hback' _ _ Hol') as (ol1 & Hol1 & _ & Ha1). apply Ha1.
    destruct (heap m !! kv.2) as [ol|] eqn:Hol.
    + destruct (Hat _ eq_refl) as (ol2 & Hol2 & ? & _). congruence.
    + destruct (Hnone eq_refl) as [Hno _]. congruence.
  - intros kv' ol Hin Hol Hacq Hfault.
    destruct (decide (kv'.2 = kv.2)) as [Hsame | Hne].
    + rewrite Hsame in Hol.
      destruct (Hat _ Hol) as (_ & _ & _ & _ & Hgone & _).
      apply Hshrink'. by apply Hgone.
    + apply elem_of_cons in Hin as [-> | Hin]; [done |].
      eapply Hgone'; eauto. by rewrite Hother.
  - intros Hnofault.
    assert (r = None) as Hr.
    { destruct (heap m !! kv.2) as [ol|] eqn:Hol.
      - destruct (Hat _ eq_refl) as (_ & _ & _ & _ & _ & Hn).
        destruct (Hnofault kv ol ltac:(by left) Hol). by apply Hn.
      - by destruct (Hnone eq_refl). }
    rewrite Herr'; [by subst errs1; rewrite Hr |].
    intros kv' ol1 Hin Hol1.
    destruct (ReleaseAt_back _ _ _ _ _ _ Heq Hol1) as (ol & Hol & -> & _).
    eapply Hnofault; [by right | done].
Qed.

(** X19: [ReleaseAll] releases every lock that the manager tracks and
    empties the table: no tracked lock is acquired afterwards, the lock
    file of every lock that was acquired is gone when removing it raises
    no I/O fault, and the result is nil when neither closing nor removing
    a lock file raises one. *)
Theorem ReleaseAll_releases_every_lock lm m err lm' m' :
  ReleaseAll env lm m = (err, lm', m') →
  locks lm' = ∅ ∧ lockDir lm' = lockDir lm
  ∧ all_released lm m'
  ∧ (∀ key a ol, locks lm !! key = Some a → heap m !! a = Some ol →
       acquired ol = true →
       fault env OpRemove (lockPath ol) = None →
       files m' !! lockPath ol = None)
  ∧ ((∀ key a ol, locks lm !! key = Some a → heap m !! a = Some ol →
        fault env OpClose (lockPath ol) = None
        ∧ fault env OpRemove (lockPath ol) = None) →
     err = None).
Proof.
  unfold ReleaseAll.
  destruct (fold_left _ _ _) as [errors m0] eqn:Hfold.
  apply fold_release in Hfold as (_ & _ & Hrel & Hgone & Herr).
  intros Hres.
  assert (lm' = {| lockDir := lockDir lm; locks := ∅ |} ∧ m' = m0
          ∧ (errors = [] → err = None)) as (-> & -> & Hnone).
  { destruct errors; simpl in Hres; injection Hres as <- <- <-; done. }
  split; [done |]. split; [done |]. split; [| split].
  - intros key a ol Hk Hol.
    apply (Hrel (key, a)); [by apply elem_of_map_to_list | done].
  - intros key a ol Hk Hol.
    apply (Hgone (key, a)); [by apply elem_of_map_to_list | done].
  - intros Hnofault. apply Hnone, Herr.
    intros [key a] ol Hin%elem_of_map_to_list Hol. by eapply Hnofault.
Qed.

Lemma AcquireLock_frame lockType targetPath t lm m r lm' m' b :
  AcquireLock env lockType targetPath t lm m = Some (r, lm', m') →
  (b < next m)%nat → heap m' !! b = heap m !! b.
Proof.
  destruct (match locks lm !! generateLockKey lockType targetPath with
            | Some a =>
                match heap m !! a with
                | Some existingLock => acquired existingLock
                | None => false
                end
            | None => false
            end) eqn:Hheld.
  { unfold AcquireLock. rewrite Hheld. by intros [= <- <- <-]. }
  rewrite (AcquireLock_unfold _ _ _ _ _ Hheld).
  set (key := generateLockKey lockType targetPath).
  set (ol := newOperationLock env (lockDir lm) key lockType t).
  destruct (new_lock_returns (lockDir lm) key lockType t
              (alloc ol m).2 (clock m) eq_refl)
    as (r0 & ol' & m1 & Heq & _ & [Hh Hn] & _).
  fold ol in Heq. rewrite Heq. cbn [alloc snd heap next] in Hh, Hn.
  intros Hres Hb.
  destruct r0 as [err|]; injection Hres as <- <- <-.
  - destruct (cleanupAt_heap (next m)
                (setHeap (<[next m:=ol']> (heap m1)) m1)) as [_ Hh'].
    rewrite Hh' by lia. cbn [heap setHeap].
    rewrite lookup_insert_ne by lia. rewrite Hh.
    by rewrite lookup_insert_ne by lia.
  - cbn [heap setHeap]. rewrite lookup_insert_ne by lia. rewrite Hh.
    by rewrite lookup_insert_ne by lia.
Qed.

Lemma live_holder_loop lockType targetPath t lm m c :
  let key := generateLockKey lockType targetPath in
  let path := lockFileOf env lm lockType targetPath in
  not_held lm m key →
  files m !! path = Some c →
  0 < extractPIDFromLockInfo c →
  alive env (extractPIDFromLockInfo c) = true →
  fault_free env path →
  ∃ e m1,
    AcquireLock env lockType targetPath t lm m = Some (inr e, lm, m1)
    ∧ (∀ b, (b < next m)%nat → heap m1 !! b = heap m !! b)
    ∧ files m1 !! path = None.
Proof.
  intros key path Hnot Hfile Hpos Halive Hfree.
  pose proof (AcquireLock_unfold lockType targetPath t lm m
                (not_held_false _ _ _ Hnot)) as Hunfold.
  cbv zeta in Hunfold. fold key in Hunfold.
  set (ol := newOperationLock env (lockDir lm) key lockType t) in *.
  destruct (new_lock_returns (lockDir lm) key lockType t
              (alloc ol m).2 (clock m) eq_refl)
    as (r & ol' & m1 & Heq & _ & _ & Hpath).
  fold ol in Heq, Hpath. rewrite Heq in Hunfold.
  pose proof Heq as Hlive.
  apply (acquire_loop_live c) in Hlive as (-> & -> & _ & _); try done;
    try apply Hfree.
  eexists _, _. split; [exact Hunfold |]. split.
  - intros b Hb. by eapply AcquireLock_frame.
  - unfold cleanupAt. cbn [heap setHeap]. rewrite lookup_insert_eq.
    destruct (cleanup_result ol (setHeap (<[next m:=ol]> (heap m1)) m1))
      as (r & ol'' & m2 & -> & _ & _ & _ & Hgone & _).
    cbn [snd files setHeap]. apply Hgone, Hfree.
Qed.

Lemma fresh_acquire lockType targetPath t lm m :
  let key := generateLockKey lockType targetPath in
  let path := lockFileOf env lm lockType targetPath in
  let ol := newOperationLock env (lockDir lm) key lockType t in
  not_held lm m key →
  files m !! path = None →
  fault env OpCreate path = None →
  fault env OpWrite path = None →
  ∃ lm1 m1,
    AcquireLock env lockType targetPath t lm m = Some (inl (next m), lm1, m1)
    ∧ handle_acquired (next m) m1
    ∧ files m1 = <[path := lockRecord env ol (clock m)]> (files m).
Proof.
  intros key path ol Hnot Hfile Hcreate Hwrite.
  rewrite (AcquireLock_unfold _ _ _ _ _ (not_held_false _ _ _ Hnot)).
  fold key ol.
  destruct (acquire_fuel_two ol) as [f ->].
  destruct (acquire_loop_fresh_exact (S f) (clock m) ol (alloc ol m).2)
    as (m' & -> & Hc & Hf & Hfs); try done.
  eexists _, _. split; [reflexivity |]. split; [| done].
  eexists. cbn [heap setHeap]. by rewrite lookup_insert_eq.
Qed.

(** *** After a timeout *)

(** X20: mutual exclusion does not survive a timeout.  When the lock file
    of the key holds the PID of a live process, a first [AcquireLock]
    times out, and a second one, made right after it, succeeds although
    the holder has released nothing: the failed attempt has removed the
    lock file of the holder. *)
Theorem second_attempt_takes_held_lock lockType targetPath t t' lm m c :
  let key := generateLockKey lockType targetPath in
  let path := lockFileOf env lm lockType targetPath in
  manager_wf lm m →
  not_held lm m key →
  files m !! path = Some c →
  0 < extractPIDFromLockInfo c →
  alive env (extractPIDFromLockInfo c) = true →
  fault_free env path →
  ∃ e m1 h lm2 m2,
    AcquireLock env lockType targetPath t lm m = Some (inr e, lm, m1)
    ∧ AcquireLock env lockType targetPath t' lm m1 = Some (inl h, lm2, m2)
    ∧ handle_acquired h m2
    ∧ files m2 !! path
      = Some (lockRecord env
                (newOperationLock env (lockDir lm) key lockType t')
                (clock m1)).
Proof.
  intros key path Hwf Hnot Hfile Hpos Halive Hfree.
  destruct (live_holder_loop lockType targetPath t lm m c)
    as (e & m1 & Hfirst & Hheap & Hgone); try done.
  exists e, m1.
  assert (not_held lm m1 key) as Hnot1.
  { intros a ol Hk Hol. apply (Hnot a ol Hk).
    rewrite <- Hheap; [done |]. by eapply Hwf. }
  destruct (fresh_acquire lockType targetPath t' lm m1)
    as (lm2 & m2 & Hsecond & Hacq & Hfs); try done.
  exists (next m1), lm2, m2. split; [done |]. split; [done |].
  split; [done |]. rewrite Hfs. apply lookup_insert_eq.
Qed.

End Acquire.

(** *** The file name of a lock *)

Lemma hexdigit_hex (n : Z) :
  hexdigit n ∈ list_ascii_of_string "0123456789abcdef".
Proof.
  unfold hexdigit.
  destruct (nth_in_or_default (Z.to_nat n)
              (list_ascii_of_string "0123456789abcdef") "0"%char)
    as [Hin | ->].
  - by apply list_elem_of_In.
  - by left.
Qed.

Lemma fmt_x_hex (bs : list Z) :
  Forall (λ c, c ∈ list_ascii_of_string "0123456789abcdef")
         (list_ascii_of_string (fmt_x bs)).
Proof.
  induction bs as [|b bs IH]; [constructor |].
  rewrite fmt_x_cons. cbn [list_ascii_of_string].
  apply Forall_cons. split; [apply hexdigit_hex |].
  apply Forall_cons. split; [apply hexdigit_hex | exact IH].
Qed.

(** X21: the file name of a lock does not depend on the length or on the
    characters of the target path: the key is [wtree-], the kind, [-] and
    16 characters that are lowercase hexadecimal digits. *)
Theorem lock_key_suffix_is_hex (lockType targetPath : string) :
  ∃ suffix,
    generateLockKey lockType targetPath
    = "wtree-" +:+ lockType +:+ "-" +:+ suffix
    ∧ String.length suffix = 16%nat
    ∧ Forall (λ c, c ∈ list_ascii_of_string "0123456789abcdef")
             (list_ascii_of_string suffix)
    ∧ String.length (generateLockKey lockType targetPath)
      = (23 + String.length lockType)%nat.
Proof.
  eexists. split; [reflexivity |].
  split; [apply pathHash_length |]. split; [apply fmt_x_hex |].
  unfold generateLockKey. rewrite !append_length, pathHash_length.
  simpl. lia.
Qed.

End LockMoreProofs.

(** ** The further properties on the ledgers of the test suite *)

Module RollbackMoreExamples.

Import Rollback RollbackSpec Mock Scenarios RollbackMore MoreScenarios.
Import RollbackProofs RollbackExamples RollbackMoreProofs.

Lemma Execute_outcome (rm : manager) (w : MockGitRepo) :
  Execute rm w = Some (returned rm w, managerAfter rm w, localsAfter rm w).
Proof.
  unfold returned, managerAfter, localsAfter.
  destruct (Execute_total rm w) as [[[ret rm'] st] ->]. reflexivity.
Qed.

Lemma withDependencies_reachable : reachable withDependencies.
Proof.
  unfold withDependencies, addDependency.
  set (rm0 := (AddFileCleanup "/files" _).2).
  set (rm1 := default rm0 (AddDependency 1 0 rm0)).
  apply (reach_dependency 2 0 rm1); [| reflexivity].
  apply (reach_dependency 1 0 rm0); [| reflexivity].
  apply reach_file, reach_branch, reach_worktree, reach_new.
Qed.

(** X1 on the ledger of [TestRollbackManager_DependencySkipping]. *)
Lemma reachable_ids_are_positions_witness :
  reachable withDependencies
  ∧ wf_ledger (operations withDependencies).
Proof.
  split; [exact withDependencies_reachable |].
  exact (reachable_ids_are_positions withDependencies
           withDependencies_reachable).
Defined.

(** X2 on the same ledger: the worktree is depended on by the branch and by
    the files. *)
Lemma reachable_index_mirrors_dependencies_witness :
  reachable withDependencies
  ∧ indexInv withDependencies
  ∧ dependencies withDependencies !! 0 = Some [1; 2].
Proof.
  split; [exact withDependencies_reachable |].
  split; [| vm_compute; reflexivity].
  exact (reachable_index_mirrors_dependencies withDependencies
           withDependencies_reachable).
Defined.

(** X3 on [TestRollbackManager_ExecuteWithErrors]: the call that reported
    the failed removal has emptied the ledger, and a second call does
    nothing. *)
Lemma Execute_consumes_ledger_witness :
  Execute worktreeThenBranch failingRemove
  = Some (returned worktreeThenBranch failingRemove,
          managerAfter worktreeThenBranch failingRemove,
          localsAfter worktreeThenBranch failingRemove)
  ∧ HasOperations (managerAfter worktreeThenBranch failingRemove) = false
  ∧ Execute (managerAfter worktreeThenBranch failingRemove) emptyRepo
    = Some (None, managerAfter worktreeThenBranch failingRemove,
            initState (managerAfter worktreeThenBranch failingRemove)
                      emptyRepo).
Proof.
  split; [apply Execute_outcome |].
  destruct (Execute_consumes_ledger worktreeThenBranch failingRemove
              emptyRepo _ _ _
              (Execute_outcome worktreeThenBranch failingRemove))
    as (Hhas & _ & Hagain & _).
  split; [exact Hhas | exact Hagain].
Defined.

(** X4 on [TestRollbackManager_NonCriticalFailure] with an explicit
    fail-fast: the deletion of the branch fails, the branch is not
    critical, and the call is the call of the default mode. *)
Lemma explicit_equals_default_without_critical_failure_witness :
  failFast explicitWorktreeThenBranch = true
  ∧ failFastExplicitlySet explicitWorktreeThenBranch = true
  ∧ trace (localsAfter explicitWorktreeThenBranch failingDelete)
    = [(0%nat, None); (1%nat, Some AnError)]
  ∧ Execute (asDefault explicitWorktreeThenBranch) failingDelete
    = Some (returned explicitWorktreeThenBranch failingDelete,
            asDefault (managerAfter explicitWorktreeThenBranch failingDelete),
            localsAfter explicitWorktreeThenBranch failingDelete).
Proof.
  split; [reflexivity |]. split; [reflexivity |].
  split; [vm_compute; reflexivity |].
  apply (explicit_equals_default_without_critical_failure
           explicitWorktreeThenBranch failingDelete _ _ _ eq_refl
           (Execute_outcome explicitWorktreeThenBranch failingDelete)).
  intros i e op Hin Hop. vm_compute in Hin.
  apply elem_of_cons in Hin as [[=] | Hin].
  apply elem_of_cons in Hin as [[= -> _] | Hin];
    [| by apply elem_of_nil in Hin].
  injection Hop as <-. reflexivity.
Defined.

(** X5 on [TestRollbackManager_Execute] without fail-fast: first to last,
    also when the removals fail. *)
Lemma independent_operations_run_in_insertion_order_witness :
  failFast threeWithoutFailFast = false
  ∧ map DependsOn (operations threeWithoutFailFast) = [[]; []; []]
  ∧ ∃ ret rm' st,
      Execute threeWithoutFailFast failingRemove = Some (ret, rm', st)
      ∧ (trace st).*1 = [0; 1; 2]%nat.
Proof.
  split; [reflexivity |]. split; [reflexivity |].
  apply (independent_operations_run_in_insertion_order
           threeWithoutFailFast failingRemove eq_refl).
  intros op Hin.
  repeat (apply elem_of_cons in Hin as [-> | Hin]); try reflexivity.
  by apply elem_of_nil in Hin.
Defined.

(** X6 on [TestRollbackManager_Execute]. *)
Lemma every_operation_called_at_most_once_witness :
  wf_ledger (operations threeCleanups)
  ∧ NoDup (invocations threeCleanups failingRemove).*1.
Proof.
  split; [exact threeCleanups_wf |].
  exact (proj1 (every_operation_called_at_most_once threeCleanups
                  failingRemove threeCleanups_wf)).
Defined.

(** X7 on [TestRollbackManager_ExecuteWithErrors]. *)
Lemma world_is_replay_of_calls_witness :
  Execute worktreeThenBranch failingRemove
  = Some (returned worktreeThenBranch failingRemove,
          managerAfter worktreeThenBranch failingRemove,
          localsAfter worktreeThenBranch failingRemove)
  ∧ world (localsAfter worktreeThenBranch failingRemove)
    = replay (operations worktreeThenBranch)
             [(0%nat, Some AnError); (1%nat, None)] failingRemove.
Proof.
  split; [apply Execute_outcome |].
  destruct (world_is_replay_of_calls worktreeThenBranch failingRemove _ _ _
              (Execute_outcome worktreeThenBranch failingRemove))
    as [_ Hworld].
  exact Hworld.
Defined.

(** X8 on the files that need the worktree: the removal of the worktree
    fails and the cleanup of the files is not called after it. *)
Lemma no_call_after_failed_dependency_witness :
  wf_ledger (operations filesNeedWorktree)
  ∧ neverAfterFailure (operations filesNeedWorktree)
      (invocations filesNeedWorktree failingRemove).
Proof.
  split; [exact filesNeedWorktree_wf |].
  exact (no_call_after_failed_dependency filesNeedWorktree failingRemove
           filesNeedWorktree_wf).
Defined.

(** X9 on [TestRollbackManager_Execute]: no error, and the three operations
    were called with success. *)
Lemma success_iff_every_call_succeeded_witness :
  wf_ledger (operations threeCleanups)
  ∧ Execute threeCleanups emptyRepo
    = Some (None, managerAfter threeCleanups emptyRepo,
            localsAfter threeCleanups emptyRepo)
  ∧ ∀ i, (i < 3)%nat →
         (i, None) ∈ trace (localsAfter threeCleanups emptyRepo).
Proof.
  assert (Execute threeCleanups emptyRepo
          = Some (None, managerAfter threeCleanups emptyRepo,
                  localsAfter threeCleanups emptyRepo)) as Hex
    by apply (Execute_outcome threeCleanups emptyRepo).
  split; [exact threeCleanups_wf |]. split; [exact Hex |].
  exact (proj1 (success_iff_every_call_succeeded threeCleanups emptyRepo
                  _ _ _ threeCleanups_wf Hex) eq_refl).
Defined.

Lemma danglingDependency_wf : wf_ledger (operations danglingDependency).
Proof. ledger_wf. Qed.

(** X10 on a worktree that waits for an operation that does not exist. *)
Lemma unsatisfiable_dependency_blocks_witness :
  failFast danglingDependency = false
  ∧ operations danglingDependency !! 0%nat
    = Some (removeWorktreeOp "/worktree" 0 [7])
  ∧ ∃ ret rm' st,
      Execute danglingDependency emptyRepo = Some (ret, rm', st)
      ∧ ret ≠ None
      ∧ ∀ r, (0%nat, r) ∉ trace st.
Proof.
  split; [reflexivity |]. split; [reflexivity |].
  apply (unsatisfiable_dependency_blocks danglingDependency emptyRepo
           0 (removeWorktreeOp "/worktree" 0 [7]) 7
           eq_refl danglingDependency_wf eq_refl).
  - by left.
  - right; left. simpl. lia.
Defined.

End RollbackMoreExamples.

(** ** The further properties on the locks of the test suite *)

Module LockMoreExamples.

Import Lock LockSpec LockTest LockMore LockMoreTest.
Import LockProofs LockExamples LockMoreProofs.

Lemma manager0_not_held (m : Machine) (key : string) :
  not_held manager0 m key.
Proof. intros a ol Hk. vm_compute in Hk. discriminate Hk. Qed.

Lemma env_fault_free (path : string) : fault_free env path.
Proof. intros op. reflexivity. Qed.

Lemma holderRecord_pid : extractPIDFromLockInfo holderRecord = thisPid.
Proof. vm_compute. reflexivity. Qed.

(** X11 on the record of a lock of the running process. *)
Lemma record_names_its_writer_witness :
  0 < pid someLock ≤ 2 ^ 63 - 1
  ∧ extractPIDFromLockInfo (lockRecord env someLock 0) = 4242
  ∧ (isLockStale env someLock
       (setFiles (<[lockPath someLock := lockRecord env someLock 0]> ∅)
                 boot)).1
    = false.
Proof.
  assert (0 < pid someLock ≤ 2 ^ 63 - 1) as Hpid
    by (vm_compute; split; [reflexivity | discriminate]).
  destruct (record_names_its_writer env someLock 0 Hpid) as [Hread Hstale].
  split; [exact Hpid |]. split; [exact Hread |].
  rewrite (Hstale someLock
             (setFiles (<[lockPath someLock := lockRecord env someLock 0]> ∅)
                       boot)).
  - vm_compute. reflexivity.
  - apply lookup_insert_eq.
  - reflexivity.
Defined.

(** X13 on [TestLockManager_Basic]: the first [AcquireLock]. *)
Lemma fresh_acquire_writes_record_witness :
  files machine0 !! lockFileA = None
  ∧ ∃ lm1 m1,
      AcquireLock env "create" "/repo/A" (seconds 5) manager0 machine0
      = Some (inl 0%nat, lm1, m1)
      ∧ handle_acquired 0 m1
      ∧ clock m1 = clock machine0
      ∧ ∃ content, files m1 !! lockFileA = Some content
                   ∧ extractPIDFromLockInfo content = thisPid.
Proof.
  assert (files machine0 !! lockFileA = None) as Hfile
    by (vm_compute; reflexivity).
  split; [exact Hfile |].
  destruct (fresh_acquire_writes_record env "create" "/repo/A" (seconds 5)
              manager0 machine0 (manager0_not_held _ _) Hfile
              eq_refl eq_refl)
    as (lm1 & m1 & Hacq & Hheld & _ & Hclock & _ & Hpid).
  exists lm1, m1. split; [exact Hacq |]. split; [exact Hheld |].
  split; [exact Hclock |]. apply Hpid.
  vm_compute. split; discriminate.
Defined.


Lemma heldMachine_attempt_fails :
  ∃ e m',
    AcquireLock env "create" "/repo/A" 0 manager0 heldMachine
    = Some (inr e, manager0, m').
Proof. vm_compute. eauto. Qed.

(** X15: an attempt with no time to wait, on a lock held by the running
    process through another manager, fails and removes the lock file. *)
Lemma failed_acquire_removes_lock_file_witness :
  files heldMachine !! lockFileA = Some holderRecord
  ∧ ∃ e m',
      AcquireLock env "create" "/repo/A" 0 manager0 heldMachine
      = Some (inr e, manager0, m')
      ∧ files m' !! lockFileA = None.
Proof.
  split; [apply lookup_insert_eq |].
  destruct heldMachine_attempt_fails as (e & m' & Hacq).
  exists e, m'. split; [exact Hacq |].
  exact (proj2 (failed_acquire_removes_lock_file env "create" "/repo/A" 0
                  manager0 heldMachine e manager0 m'
                  (manager0_not_held _ _) Hacq eq_refl)).
Defined.

Lemma heldMachine_file : files heldMachine !! lockFileA = Some holderRecord.
Proof. apply lookup_insert_eq. Qed.

Lemma holderRecord_alive :
  0 < extractPIDFromLockInfo holderRecord
  ∧ alive env (extractPIDFromLockInfo holderRecord) = true.
Proof. rewrite holderRecord_pid. split; reflexivity. Qed.

(** X16: one second of waiting for a lock held by the running process
    through another manager ends with the timeout error. *)
Lemma live_holder_times_out_witness :
  files heldMachine !! lockFileA = Some holderRecord
  ∧ extractPIDFromLockInfo holderRecord = thisPid
  ∧ alive env thisPid = true
  ∧ ∃ m',
      AcquireLock env "create" "/repo/A" (seconds 1) manager0 heldMachine
      = Some (inr (Errorf_wrap "failed to acquire lock"
                     (ValidationError "acquire-lock-timeout"
                        ("timeout waiting for lock (held by "
                           +:+ holderRecord +:+ ")")
                        (Some (ErrExist lockFileA)))), manager0, m')
      ∧ clock heldMachine + seconds 1 ≤ clock m'.
Proof.
  split; [exact heldMachine_file |]. split; [exact holderRecord_pid |].
  split; [reflexivity |].
  destruct (live_holder_times_out env "create" "/repo/A" (seconds 1)
              manager0 heldMachine holderRecord (manager0_not_held _ _)
              heldMachine_file (proj1 holderRecord_alive)
              (proj2 holderRecord_alive) eq_refl eq_refl)
    as (m' & Hacq & Hclock & _).
  exists m'. split; [exact Hacq | exact Hclock].
Defined.

Lemma first_acquire :
  AcquireLock env "create" "/repo/A" (seconds 5) manager0 machine0
  = Some (inl 0%nat, manager1, machine1).
Proof. vm_compute. reflexivity. Qed.

Lemma manager1_tracked_once : tracked_once manager1.
Proof.
  assert (locks manager1
          = {[generateLockKey "create" "/repo/A" := 0%nat]}) as Heq
    by (vm_compute; reflexivity).
  intros k1 k2 a. rewrite Heq.
  intros [<- _]%lookup_singleton_Some [<- _]%lookup_singleton_Some.
  reflexivity.
Qed.

(** X17 on [TestLockManager_Basic]: the lock is released twice. *)
Lemma ReleaseLock_twice_witness :
  tracked_once manager1
  ∧ ∃ lm2 m2,
      ReleaseLock env (Some 0%nat) manager1 machine1 = (None, lm2, m2)
      ∧ ReleaseLock env (Some 0%nat) lm2 m2 = (None, lm2, m2).
Proof.
  split; [exact manager1_tracked_once |].
  destruct (ReleaseLock env (Some 0%nat) manager1 machine1)
    as [[err lm2] m2] eqn:Hrel.
  assert (err = None) as ->.
  { pose proof (f_equal (λ x, x.1.1) Hrel) as Herr. cbn [fst] in Herr.
    rewrite <- Herr. vm_compute. reflexivity. }
  exists lm2, m2. split; [reflexivity |].
  exact (ReleaseLock_twice env 0 manager1 machine1 None lm2 m2
           manager1_tracked_once Hrel).
Defined.

(** X18 on the state after the first [AcquireLock] of
    [TestLockManager_Basic]. *)
Lemma reachable_manager_invariants_witness :
  reachable env manager1 machine1
  ∧ manager_wf manager1 machine1
  ∧ tracked_once manager1
  ∧ tracked_at_key env manager1 machine1.
Proof.
  assert (reachable env manager1 machine1) as Hreach.
  { eapply reach_acquire; [| exact first_acquire].
    apply (reach_new env boot). vm_compute. reflexivity. }
  split; [exact Hreach |].
  exact (reachable_manager_invariants env manager1 machine1 Hreach).
Defined.

(** X19 on the same state: [ReleaseAll] releases the lock and removes its
    file. *)
Lemma ReleaseAll_releases_every_lock_witness :
  files machine1 !! lockFileA ≠ None
  ∧ ∃ lm' m',
      ReleaseAll env manager1 machine1 = (None, lm', m')
      ∧ locks lm' = ∅
      ∧ all_released manager1 m'
      ∧ files m' !! lockFileA = None.
Proof.
  split; [vm_compute; discriminate |].
  destruct (ReleaseAll env manager1 machine1) as [[err lm'] m'] eqn:Hall.
  destruct (ReleaseAll_releases_every_lock env manager1 machine1 err lm' m'
              Hall) as (Hlocks & _ & Hrel & Hgone & Hnone).
  rewrite Hnone by (intros key a ol _ _; split; reflexivity).
  exists lm', m'. split; [reflexivity |]. split; [exact Hlocks |].
  split; [exact Hrel |].
  assert (∃ ol, heap machine1 !! 0%nat = Some ol ∧ acquired ol = true
                ∧ lockPath ol = lockFileA) as (ol & Hol & Hacq & Hpath)
    by (vm_compute; eauto).
  rewrite <- Hpath.
  apply (Hgone (generateLockKey "create" "/repo/A") 0%nat ol);
    [vm_compute; reflexivity | exact Hol | exact Hacq | reflexivity].
Defined.

Lemma manager0_wf_held : manager_wf manager0 heldMachine.
Proof. intros key a Hk. vm_compute in Hk. discriminate Hk. Qed.

(** X20: after the attempt that timed out on the lock held by the running
    process, the next attempt takes the lock. *)
Lemma second_attempt_takes_held_lock_witness :
  files heldMachine !! lockFileA = Some holderRecord
  ∧ alive env (extractPIDFromLockInfo holderRecord) = true
  ∧ ∃ e m1 h lm2 m2,
      AcquireLock env "create" "/repo/A" (seconds 1) manager0 heldMachine
      = Some (inr e, manager0, m1)
      ∧ AcquireLock env "create" "/repo/A" (seconds 5) manager0 m1
        = Some (inl h, lm2, m2)
      ∧ handle_acquired h m2.
Proof.
  split; [exact heldMachine_file |].
  split; [exact (proj2 holderRecord_alive) |].
  destruct (second_attempt_takes_held_lock env "create" "/repo/A"
              (seconds 1) (seconds 5) manager0 heldMachine holderRecord
              manager0_wf_held (manager0_not_held _ _) heldMachine_file
              (proj1 holderRecord_alive) (proj2 holderRecord_alive)
              (env_fault_free _))
    as (e & m1 & h & lm2 & m2 & Hfirst & Hsecond & Hheld & _).
  exists e, m1, h, lm2, m2.
  split; [exact Hfirst |]. split; [exact Hsecond | exact Hheld].
Defined.

End LockMoreExamples.
